(** * FileXTransfer: reconciliation-and-copy engine

    A shallow embedding of [backend.py] (path normalisation, recursive
    indexing, set difference, single-file copy in two modes, batch copy) and
    of [CopyWorker.run] from [main.py], over an explicit model of the part of
    the operating system the code talks to: a tree of directories, regular
    files and sockets, POSIX path strings, and the system calls behind
    [open], [read], [write], [os.makedirs], [os.stat], [os.utime],
    [os.walk] and [shutil.copy2]. *)

From Stdlib Require Import ZArith NArith Ascii String List Lia Permutation Sorted.
From Stdlib Require Import Init.Byte.
From stdpp Require Import base decidable option list strings gmap sorting.

Local Open Scope Z_scope.
Set Warnings "-register-all".

(** ** Python strings *)

Module Str.

(** [s.replace(old, new)] for one-character [old] and [new]. *)
Fixpoint replace (old new : ascii) (s : string) : string :=
  match s with
  | EmptyString => EmptyString
  | String c s' =>
      String (if Ascii.eqb c old then new else c) (replace old new s')
  end.

(** [c in s]. *)
Fixpoint contains (c : ascii) (s : string) : bool :=
  match s with
  | EmptyString => false
  | String d s' => Ascii.eqb d c || contains c s'
  end.

(** [s.startswith(c)] and [s.endswith(c)] for a single character. *)
Definition startswith (c : ascii) (s : string) : bool :=
  match s with
  | String d _ => Ascii.eqb d c
  | EmptyString => false
  end.

Fixpoint endswith (c : ascii) (s : string) : bool :=
  match s with
  | EmptyString => false
  | String d EmptyString => Ascii.eqb d c
  | String _ s' => endswith c s'
  end.

Definition is_empty (s : string) : bool :=
  match s with EmptyString => true | _ => false end.

(** [s.split(c)]: the fields between the occurrences of [c]. *)
Fixpoint split (c : ascii) (s : string) : list string :=
  match s with
  | EmptyString => [EmptyString]
  | String d s' =>
      if Ascii.eqb d c then EmptyString :: split c s'
      else match split c s' with
           | [] => [String d EmptyString]
           | x :: xs => String d x :: xs
           end
  end.

(** [s.rstrip(c)]. *)
Fixpoint rstrip (c : ascii) (s : string) : string :=
  match s with
  | EmptyString => EmptyString
  | String d s' =>
      match rstrip c s' with
      | EmptyString => if Ascii.eqb d c then EmptyString else String d EmptyString
      | r => String d r
      end
  end.

(** [(s[:i], s[i:])] for [i = s.rfind(c) + 1]. *)
Fixpoint rsplit (c : ascii) (s : string) : string * string :=
  match s with
  | EmptyString => (EmptyString, EmptyString)
  | String d s' =>
      let (h, t) := rsplit c s' in
      if is_empty h
      then (if Ascii.eqb d c then (String d EmptyString, s')
            else (EmptyString, String d s'))
      else (String d h, t)
  end.

(** [sep.join(parts)]. *)
Definition join (sep : string) (parts : list string) : string :=
  String.concat sep parts.

End Str.

(** ** [os.path] on a POSIX platform *)

Module OsPath.

Definition sep : ascii := "/"%char.

(** [os.path.join(a, b)]. *)
Definition join (a b : string) : string :=
  if Str.startswith sep b then b
  else if Str.is_empty a || Str.endswith sep a then a +:+ b
  else a +:+ String sep b.

(** [os.path.split(p)]: the head loses its trailing slashes unless it
    consists of slashes only. *)
Definition split (p : string) : string * string :=
  let (head, tail) := Str.rsplit sep p in
  (match Str.rstrip sep head with
   | EmptyString => head
   | stripped => stripped
   end, tail).

Definition dirname (p : string) : string := fst (split p).
Definition basename (p : string) : string := snd (split p).

(** The names a path walks through, as the kernel reads a path: empty
    fields (doubled or trailing slashes) are skipped.  Every path is read
    from one root, which also stands for the working directory.  Two
    readings of the kernel are left out: [.] and [..] are taken as plain
    names (the program never builds them; statements about roots given
    from outside assume [dot_free] below), and a slash after the name of
    a regular file, which the kernel refuses, is dropped like any other
    trailing slash. *)
Definition components (p : string) : list string :=
  List.filter (fun x => negb (Str.is_empty x)) (Str.split sep p).

End OsPath.

(** ** backend.py, line 8: [_normalize_rel] *)

Definition _normalize_rel (path : string) : string :=
  Str.replace "\"%char "/"%char path.

(** ** The file system: a tree of directories, regular files and sockets *)

Module FS.

(** A regular file carries its bytes and its access and modification
    times.  [Locked] is a directory the process may neither list nor
    enter; whatever lies beneath it is out of the program's reach and is
    not represented.  [Socket] is an entry that is neither a directory nor
    a regular file: it can be listed and examined but not opened.  (Named
    pipes, on which [open] waits for a peer, and symbolic links are not
    represented.) *)
Inductive node : Type :=
| File (data : list byte) (atime mtime : Z)
| Dir (entries : list (string * node))
| Locked
| Socket.

Definition is_dir (n : node) : bool :=
  match n with Dir _ | Locked => true | File _ _ _ | Socket => false end.


Fixpoint assoc (name : string) (es : list (string * node)) : option node :=
  match es with
  | [] => None
  | (k, v) :: es' => if String.eqb k name then Some v else assoc name es'
  end.

(** Replace the entry called [name], or add it at the end. *)
Fixpoint set_entry (name : string) (v : node) (es : list (string * node))
  : list (string * node) :=
  match es with
  | [] => [(name, v)]
  | (k, x) :: es' =>
      if String.eqb k name then (k, v) :: es'
      else (k, x) :: set_entry name v es'
  end.

(** Path resolution from node [n] along the names [p]. *)
Fixpoint lookup (n : node) (p : list string) : option node :=
  match p with
  | [] => Some n
  | c :: p' =>
      match n with
      | Dir es =>
          match assoc c es with
          | Some m => lookup m p'
          | None => None
          end
      | _ => None
      end
  end.

(** Store [v] at [p]; every directory on the way has to exist. *)
Fixpoint put (n : node) (p : list string) (v : node) : option node :=
  match p with
  | [] => Some v
  | c :: p' =>
      match n with
      | Dir es =>
          match p' with
          | [] => Some (Dir (set_entry c v es))
          | _ :: _ =>
              match assoc c es with
              | Some m =>
                  match put m p' v with
                  | Some m' => Some (Dir (set_entry c m' es))
                  | None => None
                  end
              | None => None
              end
          end
      | _ => None
      end
  end.

Definition parent (p : list string) : list string := removelast p.

(** The names of the sub-directories and of the other entries of a
    directory, as [os.scandir] sorts them for [os.walk]: whatever is not a
    directory goes to the file names, regular file or not. *)
Definition dirnames (es : list (string * node)) : list string :=
  map fst (List.filter (fun e => is_dir (snd e)) es).

Definition filenames (es : list (string * node)) : list string :=
  map fst (List.filter (fun e => negb (is_dir (snd e))) es).

(** [os.walk] from a node, top-down, errors ignored ([onerror=None]): one
    triple per directory that could be listed, the directory given by the
    names leading to it from the top.  A [Locked] directory appears among
    its parent's [dirnames], and listing it fails, which [os.walk]
    swallows. *)
Fixpoint walk (n : node) (root : list string)
  : list (list string * list string * list string) :=
  match n with
  | Dir es =>
      (root, dirnames es, filenames es)
      :: flat_map (fun e => walk (snd e) (root ++ [fst e])) es
  | _ => []
  end.

(** [file_under n p]: [p] leads from directory [n], through directories
    that can be listed, to an entry that is not a directory. *)
Inductive file_under : node -> list string -> Prop :=
| file_here es name v :
    In (name, v) es -> is_dir v = false -> file_under (Dir es) [name]
| file_below es name child p :
    In (name, child) es -> file_under child p ->
    file_under (Dir es) (name :: p).

End FS.

Export FS(node(..)).

(** ** Exceptions *)

Inductive exn : Type :=
| FileNotFoundError (path : string)
| FileExistsError (path : string)
| NotADirectoryError (path : string)
| IsADirectoryError (path : string)
| PermissionError (path : string)
| OSError (msg : string)
| SameFileError (src dst : string)
| ValueError (msg : string).

(** [isinstance(e, OSError)]: every exception above but [ValueError]. *)
Definition is_OSError (e : exn) : bool :=
  match e with ValueError _ => false | _ => true end.

Definition is_FileExistsError (e : exn) : bool :=
  match e with FileExistsError _ => true | _ => false end.

Definition quoted (s : string) : string := "'" +:+ s +:+ "'".

(** [str(e)], the text that reaches the error list and the log. *)
Definition exn_str (e : exn) : string :=
  match e with
  | FileNotFoundError p => "[Errno 2] No such file or directory: " +:+ quoted p
  | FileExistsError p => "[Errno 17] File exists: " +:+ quoted p
  | NotADirectoryError p => "[Errno 20] Not a directory: " +:+ quoted p
  | IsADirectoryError p => "[Errno 21] Is a directory: " +:+ quoted p
  | PermissionError p => "[Errno 13] Permission denied: " +:+ quoted p
  | OSError msg => msg
  | SameFileError s d => quoted s +:+ " and " +:+ quoted d +:+ " are the same file"
  | ValueError msg => msg
  end.

(** ** The world the program runs in *)

(** System calls that can fail for reasons outside the tree (a full disk, a
    revoked permission, an interrupted transfer), by the resolved path they
    work on. *)
Inductive syscall : Type :=
| SysOpenRead (p : list string)
| SysOpenWrite (p : list string)
| SysRead (p : list string)
| SysWrite (p : list string)
| SysMkdir (p : list string)
| SysStat (p : list string)
| SysUtime (p : list string).

(** The tree, a clock that ticks at every system call (and stamps written
    files), and the environment's verdict on each call: [deny t c] makes
    call [c] fail when issued at time [t]. *)
Record world : Type := World {
  fs : node;
  clock : nat;
  deny : nat -> syscall -> bool
}.

Definition tick (w : world) : world :=
  World (fs w) (S (clock w)) (deny w).

Definition with_fs (w : world) (n : node) : world :=
  World n (clock w) (deny w).

Definition now (w : world) : Z := Z.of_nat (clock w).

(** ** Computations: state passing with exceptions *)

Inductive outcome (A : Type) : Type :=
| Returns (a : A)
| Raises (e : exn).
Arguments Returns {A} a.
Arguments Raises {A} e.

Definition IO (A : Type) : Type := world -> outcome A * world.

Definition ret {A} (a : A) : IO A := fun w => (Returns a, w).
Definition raise {A} (e : exn) : IO A := fun w => (Raises e, w).

Definition bind {A B} (m : IO A) (k : A -> IO B) : IO B :=
  fun w =>
    match m w with
    | (Returns a, w') => k a w'
    | (Raises e, w') => (Raises e, w')
    end.

Notation "x <- m ;; k" := (bind m (fun x => k))
  (at level 100, m at next level, right associativity).
Notation "m ;;; k" := (bind m (fun _ => k))
  (at level 100, right associativity).

(** [try: m except Exception as e: h e]; every [exn] is an [Exception]. *)
Definition try_except {A} (m : IO A) (h : exn -> IO A) : IO A :=
  fun w =>
    match m w with
    | (Returns a, w') => (Returns a, w')
    | (Raises e, w') => h e w'
    end.

(** [try: m except <class>: h e]: other exceptions pass through. *)
Definition try_except_if {A} (cls : exn -> bool) (m : IO A) (h : exn -> IO A)
  : IO A :=
  try_except m (fun e => if cls e then h e else raise e).

Definition get_fs : IO node := fun w => (Returns (fs w), w).
Definition set_fs (n : node) : IO unit := fun w => (Returns tt, with_fs w n).
Definition get_now : IO Z := fun w => (Returns (now w), w).

(** Issue a system call: the clock ticks, and the environment may refuse. *)
Definition attempt (c : syscall) : IO unit :=
  fun w =>
    if deny w (clock w) c
    then (Raises (OSError "[Errno 5] Input/output error"), tick w)
    else (Returns tt, tick w).

(** ** System calls and the Python library functions built on them *)

Module Os.

(** The empty string names nothing; any other string is read along its
    components from the root. *)
Definition resolve (path : string) : option (list string) :=
  if Str.is_empty path then None else Some (OsPath.components path).

Definition node_at (w : world) (path : string) : option node :=
  match resolve path with
  | Some p => FS.lookup (fs w) p
  | None => None
  end.

(** The error the kernel reports for a path that does not resolve. *)
Fixpoint lookup_error (n : node) (p : list string) (path : string) : exn :=
  match p, n with
  | c :: p', Dir es =>
      match FS.assoc c es with
      | Some m => lookup_error m p' path
      | None => FileNotFoundError path
      end
  | _ :: _, File _ _ _ => NotADirectoryError path
  | _ :: _, Socket => NotADirectoryError path
  | _ :: _, Locked => PermissionError path
  | [], _ => FileNotFoundError path
  end.

(** [os.path.exists] and [os.path.isdir] never raise. *)
Definition path_exists (path : string) : IO bool :=
  fun w => (Returns (bool_decide (is_Some (node_at w path))), w).

Definition path_isdir (path : string) : IO bool :=
  fun w =>
    (Returns (match node_at w path with
              | Some n => FS.is_dir n
              | None => false
              end), w).

Definition exists_at (p : list string) : IO bool :=
  fun w => (Returns (bool_decide (is_Some (FS.lookup (fs w) p))), w).

Definition isdir_at (p : list string) : IO bool :=
  fun w =>
    (Returns (match FS.lookup (fs w) p with
              | Some n => FS.is_dir n
              | None => false
              end), w).

(** Write [v] into the tree at [p]. *)
Definition store (p : list string) (v : node) : IO unit :=
  root <- get_fs ;;
  match FS.put root p v with
  | Some root' => set_fs root'
  | None => raise (OSError "[Errno 5] Input/output error")
  end.

(** Why nothing can be created at [p], whose parent is not a plain
    directory. *)
Definition create_error (root : node) (p : list string) (path : string)
  : exn :=
  match FS.lookup root (FS.parent p) with
  | Some (File _ _ _) => NotADirectoryError path
  | Some Socket => NotADirectoryError path
  | Some Locked => PermissionError path
  | _ => lookup_error root p path
  end.

(** [os.mkdir] of the entry at [p]. *)
Definition mkdir_at (p : list string) : IO unit :=
  let path := Str.join "/" p in
  attempt (SysMkdir p) ;;;
  root <- get_fs ;;
  match FS.lookup root p with
  | Some _ => raise (FileExistsError path)
  | None =>
      match FS.lookup root (FS.parent p) with
      | Some (Dir _) => store p (Dir [])
      | _ => raise (create_error root p path)
      end
  end.

(** [os.makedirs(name, exist_ok=exist_ok)], on the names of [name] read
    backwards ([tail :: head]): first the missing head, then the leaf. *)
Fixpoint makedirs_rev (rp : list string) (exist_ok : bool) : IO unit :=
  (match rp with
   | _ :: (_ :: _) as rhead =>
       present <- exists_at (rev rhead) ;;
       if present then ret tt
       else try_except_if is_FileExistsError
              (makedirs_rev rhead exist_ok) (fun _ => ret tt)
   | _ => ret tt
   end) ;;;
  try_except_if is_OSError (mkdir_at (rev rp))
    (fun e =>
       isdir <- isdir_at (rev rp) ;;
       if negb exist_ok || negb isdir then raise e else ret tt).

Definition makedirs (name : string) (exist_ok : bool) : IO unit :=
  match resolve name with
  | Some p => makedirs_rev (rev p) exist_ok
  | None => raise (FileNotFoundError name)
  end.

(** An open file: where it is and how far it has been read. *)
Record handle : Type := Handle { h_path : list string; h_pos : nat }.

(** What [open] reports for a socket. *)
Definition no_device (path : string) : exn :=
  OSError ("[Errno 6] No such device or address: " +:+ quoted path).

(** [open(path, "rb")]. *)
Definition open_rb (path : string) : IO handle :=
  match resolve path with
  | None => raise (FileNotFoundError path)
  | Some p =>
      attempt (SysOpenRead p) ;;;
      root <- get_fs ;;
      match FS.lookup root p with
      | Some (File _ _ _) => ret (Handle p 0)
      | Some Socket => raise (no_device path)
      | Some _ => raise (IsADirectoryError path)
      | None => raise (lookup_error root p path)
      end
  end.

(** [open(path, "wb")]: the file is created, or emptied if it is there. *)
Definition open_wb (path : string) : IO handle :=
  match resolve path with
  | None => raise (FileNotFoundError path)
  | Some p =>
      attempt (SysOpenWrite p) ;;;
      root <- get_fs ;;
      t <- get_now ;;
      match FS.lookup root p with
      | Some (File _ atime _) =>
          store p (File [] atime t) ;;; ret (Handle p 0)
      | Some Socket => raise (no_device path)
      | Some _ => raise (IsADirectoryError path)
      | None =>
          match FS.lookup root (FS.parent p) with
          | Some (Dir _) => store p (File [] t t) ;;; ret (Handle p 0)
          | _ => raise (create_error root p path)
          end
      end
  end.

Definition file_data (n : node) (p : list string) : list byte :=
  match FS.lookup n p with
  | Some (File data _ _) => data
  | _ => []
  end.

(** The first [n] elements, counting in binary. *)
Fixpoint take {A} (n : N) (l : list A) : list A :=
  match l with
  | [] => []
  | x :: l' => if N.eqb n 0 then [] else x :: take (N.pred n) l'
  end.

(** The bytes of the file behind [h] from its position on. *)
Definition unread (w : world) (h : handle) : list byte :=
  skipn (h_pos h) (file_data (fs w) (h_path h)).

(** [h.read(size)] on a binary file: everything for [-1], at most [size]
    bytes otherwise, nothing at the end of the file; the handle moves on.
    The access time of the file stays as it is, as on a file system
    mounted [noatime]; and a size is taken as it comes, whereas the real
    call gives up with [OverflowError] on one that does not fit a machine
    word.  Statements below that depend on either say so: they speak of
    bytes and modification times, and bound the size. *)
Definition read (h : handle) (size : Z) : IO (list byte * handle) :=
  if size <? -1
  then raise (ValueError "read length must be non-negative or -1")
  else
    attempt (SysRead (h_path h)) ;;;
    fun w =>
      let rest := unread w h in
      let buf := if size =? -1 then rest else take (Z.to_N size) rest in
      (Returns (buf, Handle (h_path h) (h_pos h + length buf)), w).

(** [h.write(buf)] at the end of the file behind [h]. *)
Definition write (h : handle) (buf : list byte) : IO unit :=
  attempt (SysWrite (h_path h)) ;;;
  root <- get_fs ;;
  t <- get_now ;;
  match FS.lookup root (h_path h) with
  | Some (File data atime _) =>
      store (h_path h) (File (data ++ buf) atime t)
  | _ => raise (OSError "[Errno 9] Bad file descriptor")
  end.

(** [os.stat(path)], of which the program reads [(st_atime, st_mtime)];
    the times of directories and sockets are not kept. *)
Definition stat (path : string) : IO (Z * Z) :=
  match resolve path with
  | None => raise (FileNotFoundError path)
  | Some p =>
      attempt (SysStat p) ;;;
      root <- get_fs ;;
      match FS.lookup root p with
      | Some (File _ atime mtime) => ret (atime, mtime)
      | Some _ => ret (0, 0)
      | None => raise (lookup_error root p path)
      end
  end.

(** [os.utime(path, (atime, mtime))].  Times are whole numbers here; the
    program hands over the float seconds of [os.stat], which may round
    the last digits of a time away, so that no statement below speaks of
    the times the destination of a copy ends up with. *)
Definition utime (path : string) (times : Z * Z) : IO unit :=
  match resolve path with
  | None => raise (FileNotFoundError path)
  | Some p =>
      attempt (SysUtime p) ;;;
      root <- get_fs ;;
      match FS.lookup root p with
      | Some (File data _ _) => store p (File data (fst times) (snd times))
      | Some _ => ret tt
      | None => raise (lookup_error root p path)
      end
  end.

(** [os.scandir(path)]: the entries of a directory that can be listed.
    (For a path that holds a NUL character the real call raises
    [ValueError], which [os.walk] lets through: see [nul_free].) *)
Definition scandir (path : string) : IO (list (string * node)) :=
  fun w =>
    match resolve path with
    | None => (Raises (FileNotFoundError path), w)
    | Some p =>
        match FS.lookup (fs w) p with
        | Some (Dir es) => (Returns es, w)
        | Some (File _ _ _) => (Raises (NotADirectoryError path), w)
        | Some Socket => (Raises (NotADirectoryError path), w)
        | Some Locked => (Raises (PermissionError path), w)
        | None => (Raises (lookup_error (fs w) p path), w)
        end
    end.

(** [os.walk(top)] with its defaults ([onerror=None]): the error of a
    directory that cannot be listed is dropped and the walk yields nothing
    for it, at the top as further down.  The first field of each triple
    holds the names from [top] down. *)
Definition walk (top : string)
  : IO (list (list string * list string * list string)) :=
  try_except_if is_OSError
    (es <- scandir top ;; ret (FS.walk (Dir es) []))
    (fun _ => ret []).

(** [os.path.relpath(os.path.join(root, f), top)] for a [root] that
    [walk] reported [names] below [top]. *)
Definition relpath_join (names : list string) (f : string) : string :=
  Str.join "/" (names ++ [f]).

End Os.

(** ** The read/write loop

    [while True: buf = r.read(size); if not buf: break; w.write(buf)]
    (backend.py, lines 54 to 58; [shutil.copyfileobj] runs the same loop).
    The loop has no structural bound, so it runs on fuel; [None] means the
    fuel ran out before the loop ended. *)

Fixpoint pump_fuel (fuel : nat) (r w : Os.handle) (size : Z) (st : world)
  : option (outcome unit * world) :=
  match fuel with
  | O => None
  | S fuel' =>
      match Os.read r size st with
      | (Raises e, st1) => Some (Raises e, st1)
      | (Returns (buf, r'), st1) =>
          match buf with
          | [] => Some (Returns tt, st1)
          | _ :: _ =>
              match Os.write w buf st1 with
              | (Raises e, st2) => Some (Raises e, st2)
              | (Returns _, st2) => pump_fuel fuel' r' w size st2
              end
          end
      end
  end.

(** One more round than there are unread bytes always suffices for a loop
    that starts on two distinct files or at the end of its input
    ([pump_fuel_enough] below), which is how [copy_file] and
    [shutil.copyfile] start it; the last branch is never taken by them. *)
Definition pump (r w : Os.handle) (size : Z) : IO unit :=
  fun st =>
    match pump_fuel (S (length (Os.unread st r))) r w size st with
    | Some res => res
    | None => (Raises (OSError "[Errno 5] Input/output error"), st)
    end.

(** ** [shutil.copy2] *)

Module Shutil.

Definition COPY_BUFSIZE : Z := 64 * 1024.

(** [shutil._samefile]: both paths exist and lead to the same entry. *)
Definition samefile (src dst : string) : IO bool :=
  fun w =>
    (Returns (match Os.node_at w src, Os.node_at w dst with
              | Some _, Some _ =>
                  bool_decide (Os.resolve src = Os.resolve dst)
              | _, _ => false
              end), w).

Definition copyfile (src dst : string) : IO unit :=
  same <- samefile src dst ;;
  if same then raise (SameFileError src dst)
  else
    r <- Os.open_rb src ;;
    w <- Os.open_wb dst ;;
    pump r w COPY_BUFSIZE.

Definition copystat (src dst : string) : IO unit :=
  st <- Os.stat src ;;
  Os.utime dst st.

Definition copy2 (src dst : string) : IO unit :=
  isdir <- Os.path_isdir dst ;;
  let dst := if isdir then OsPath.join dst (OsPath.basename src) else dst in
  copyfile src dst ;;;
  copystat src dst.

End Shutil.

(** ** backend.py *)

Definition DEFAULT_CHUNK_SIZE : Z := 64 * 1024 * 1024.

(** Lines 13 to 20. *)
Definition list_files_recursive (path : string) : IO (gset string) :=
  triples <- Os.walk path ;;
  ret (fold_left
         (fun files '(root, _, filenames) =>
            fold_left
              (fun files f =>
                 let rel_path := Os.relpath_join root f in
                 files ∪ {[ _normalize_rel rel_path ]})
              filenames files)
         triples ∅).

(** Lines 23 to 30. *)
Definition compare (origin dest : string) : IO (gset string) :=
  origin_files <- list_files_recursive origin ;;
  dest_files <- list_files_recursive dest ;;
  ret (origin_files ∖ dest_files).

(** Lines 33 to 37. *)
Definition ensure_parent_dir (path : string) : IO unit :=
  let parent := OsPath.dirname path in
  if Str.is_empty parent then ret tt
  else
    present <- Os.path_exists parent ;;
    if negb present then Os.makedirs parent true else ret tt.

(** Lines 53 to 58: the chunked transfer. *)
Definition chunked_transfer (src dst : string) (chunk_size : Z) : IO unit :=
  r <- Os.open_rb src ;;
  w <- Os.open_wb dst ;;
  pump r w chunk_size.

(** Lines 61 to 65: timestamps, if possible. *)
Definition preserve_timestamps (src dst : string) : IO unit :=
  try_except
    (st <- Os.stat src ;;
     Os.utime dst st)
    (fun _ => ret tt).

(** Lines 40 to 65. *)
Definition copy_file (src dst : string) (chunked : bool) (chunk_size : Z)
  : IO unit :=
  ensure_parent_dir dst ;;;
  if negb chunked then Shutil.copy2 src dst
  else
    chunked_transfer src dst chunk_size ;;;
    preserve_timestamps src dst.

(** [sorted(xs)] on strings: by code points, left to right. *)
Definition sorted (xs : list string) : list string :=
  merge_sort String.le xs.

(** The body of the loop of lines 76 to 84, on the accumulators
    [(success, errors)]. *)
Definition copy_missing_step (origin dest : string) (chunked : bool)
  (acc : nat * list string) (rel_path : string) : IO (nat * list string) :=
  let '(success, errors) := acc in
  let rel_norm := _normalize_rel rel_path in
  let src := OsPath.join origin rel_norm in
  let dst := OsPath.join dest rel_norm in
  try_except
    (copy_file src dst chunked DEFAULT_CHUNK_SIZE ;;;
     ret (S success, errors))
    (fun e =>
       ret (success, errors ++ [rel_norm +:+ " -> ERROR: " +:+ exn_str e])).

(** [for x in xs: acc = body acc x]. *)
Fixpoint for_each {A S} (body : S -> A -> IO S) (xs : list A) (acc : S)
  : IO S :=
  match xs with
  | [] => ret acc
  | x :: xs' => acc' <- body acc x ;; for_each body xs' acc'
  end.

(** Lines 68 to 86. *)
Definition copy_missing_files (missing_files : gset string)
  (origin dest : string) (chunked : bool) : IO (nat * list string) :=
  for_each (copy_missing_step origin dest chunked)
    (sorted (elements missing_files)) (0%nat, []).

(** ** main.py: [CopyWorker] *)

(** What the worker emits, in the order of emission. *)
Inductive signal : Type :=
| LineLog (line : string)
| Progress (current total : nat) (message : string)
| Finished (success_count error_count : nat) (target_dest : string).

Record CopyWorker : Type := {
  files : list string;
  origin : string;
  dest : string;
  chunked : bool
}.

(** [enumerate(xs, start=start)]. *)
Fixpoint enumerate {A} (xs : list A) (start : nat) : list (nat * A) :=
  match xs with
  | [] => []
  | x :: xs' => (start, x) :: enumerate xs' (S start)
  end.

(** The body of the loop of lines 32 to 45, on [(success, errors)] and the
    signals emitted so far. *)
Definition run_step (self : CopyWorker) (total : nat)
  (acc : nat * nat * list signal) (item : nat * string)
  : IO (nat * nat * list signal) :=
  let '(success, errors, emitted) := acc in
  let '(i, rel_path) := item in
  let rel_norm := Str.replace "\"%char "/"%char rel_path in
  let src := OsPath.join (origin self) rel_norm in
  let dst := OsPath.join (dest self) rel_norm in
  res <- try_except
           (copy_file src dst (chunked self) DEFAULT_CHUNK_SIZE ;;;
            ret (S success, errors, "OK: " +:+ rel_norm))
           (fun e =>
              ret (success, S errors,
                   "ERROR: " +:+ rel_norm +:+ " (" +:+ exn_str e +:+ ")")) ;;
  let '(success, errors, msg) := res in
  ret (success, errors, emitted ++ [LineLog msg; Progress i total msg]).

(** Lines 27 to 47. *)
Definition run (self : CopyWorker) : IO (list signal) :=
  let total := length (files self) in
  res <- for_each (run_step self total) (enumerate (files self) 1)
           (0%nat, 0%nat, []) ;;
  let '(success, errors, emitted) := res in
  ret (emitted ++ [Finished success errors (dest self)]).

(** ** Notions the statements below are written in *)

(** A path is canonical when no backslash is left in it. *)
Definition canonical (path : string) : Prop :=
  Str.contains "\"%char path = false.

(** The canonical relative path of the file reached by the names [p]. *)
Definition canonical_rel (p : list string) : string :=
  _normalize_rel (Str.join "/" p).

(** [has_file w root rel]: in world [w] the directory [root] holds, at any
    depth below directories that can be listed, an entry that is not a
    directory and whose canonical relative path is [rel]. *)
Definition has_file (w : world) (root rel : string) : Prop :=
  exists n p,
    Os.node_at w root = Some n /\ FS.file_under n p /\ rel = canonical_rel p.

(** [listable w root]: [root] names a directory that can be listed. *)
Definition listable (w : world) (root : string) : Prop :=
  exists es, Os.node_at w root = Some (Dir es).

(** The regular file at [p], if there is one: its bytes and its times. *)
Definition file_at (n : node) (p : list string) : option (list byte * Z * Z) :=
  match FS.lookup n p with
  | Some (File data atime mtime) => Some (data, atime, mtime)
  | _ => None
  end.

Definition bytes_at (n : node) (p : list string) : option (list byte) :=
  option_map (fun f => fst (fst f)) (file_at n p).

Definition mtime_at (n : node) (p : list string) : option Z :=
  option_map snd (file_at n p).

(** The bytes of the regular file that [path] names in world [w]. *)
Definition content (w : world) (path : string) : option (list byte) :=
  match Os.resolve path with
  | Some p => bytes_at (fs w) p
  | None => None
  end.

(** A node with nothing below it. *)
Definition leaf (v : node) : Prop :=
  match v with Dir (_ :: _) => False | _ => True end.

(** Nothing is at [p], or a regular file is. *)
Definition free_or_file (n : node) (p : list string) : Prop :=
  match FS.lookup n p with
  | None | Some (File _ _ _) => True
  | Some _ => False
  end.

(** [creatable n p]: nothing is at [p] yet, and the names of [p] lead
    through plain directories up to the first one that is missing, so that
    [os.makedirs] can create [p]. *)
Fixpoint creatable (n : node) (p : list string) : bool :=
  match p with
  | [] => false
  | c :: p' =>
      match n with
      | Dir es =>
          match FS.assoc c es with
          | Some m => creatable m p'
          | None => true
          end
      | _ => false
      end
  end.

(** A string of [k] separators. *)
Fixpoint seps (k : nat) : string :=
  match k with
  | O => EmptyString
  | S k' => String OsPath.sep (seps k')
  end.

(** [target_ok n p]: a copy may write at [p], for a regular file is there
    to overwrite, or [p] is creatable. *)
Definition target_ok (n : node) (p : list string) : bool :=
  match FS.lookup n p with
  | Some (File _ _ _) => true
  | Some _ => false
  | None => creatable n p
  end.

(** A world in which the environment refuses no system call. *)
Definition calm (w : world) : Prop :=
  forall t c, deny w t c = false.

(** What each path of a batch meets, in the order of processing: the
    normalised path and how [copy_file] ended on it, every copy starting in
    the world the one before left behind. *)
Fixpoint batch_outcomes (origin dest : string) (chunked : bool)
  (paths : list string) (w : world) : list (string * outcome unit) :=
  match paths with
  | [] => []
  | rel_path :: rest =>
      let rel_norm := _normalize_rel rel_path in
      let '(res, w') :=
        copy_file (OsPath.join origin rel_norm) (OsPath.join dest rel_norm)
          chunked DEFAULT_CHUNK_SIZE w in
      (rel_norm, res) :: batch_outcomes origin dest chunked rest w'
  end.

Definition succeeded {A} (o : outcome A) : bool :=
  match o with Returns _ => true | Raises _ => false end.

Definition successes (outs : list (string * outcome unit)) : nat :=
  length (List.filter (fun o => succeeded (snd o)) outs).

Definition failures (outs : list (string * outcome unit))
  : list (string * exn) :=
  flat_map (fun o => match snd o with
                     | Returns _ => []
                     | Raises e => [(fst o, e)]
                     end) outs.

(** The line [copy_missing_files] records for a failure. *)
Definition error_line (f : string * exn) : string :=
  fst f +:+ " -> ERROR: " +:+ exn_str (snd f).

(** The message [CopyWorker.run] emits for an outcome. *)
Definition worker_message (o : string * outcome unit) : string :=
  match snd o with
  | Returns _ => "OK: " +:+ fst o
  | Raises e => "ERROR: " +:+ fst o +:+ " (" +:+ exn_str e +:+ ")"
  end.

Definition progress_of (sigs : list signal) : list (nat * nat * string) :=
  flat_map (fun s => match s with
                     | Progress i total msg => [(i, total, msg)]
                     | _ => []
                     end) sigs.

Definition finished_of (sigs : list signal) : list (nat * nat * string) :=
  flat_map (fun s => match s with
                     | Finished ok bad target => [(ok, bad, target)]
                     | _ => []
                     end) sigs.

(** The signals of one pass over the files [paths], counted from [start]. *)
Fixpoint worker_signals (total start : nat)
  (outs : list (string * outcome unit)) : list signal :=
  match outs with
  | [] => []
  | o :: outs' =>
      LineLog (worker_message o) :: Progress start total (worker_message o)
      :: worker_signals total (S start) outs'
  end.

(** Two worlds to run the program in: an origin [A], a destination [B]
    that lacks [sub/b.txt]; in the second one the environment refuses every
    [os.stat] and [os.utime]. *)
Definition example_tree : node :=
  Dir [("A", Dir [("a.txt", File (String.list_byte_of_string "hello") 1 2);
                  ("sub", Dir [("b.txt",
                                File (String.list_byte_of_string "world!")
                                  3 4)])]);
       ("B", Dir [("a.txt", File (String.list_byte_of_string "old") 5 6)])].

Definition example_world : world :=
  World example_tree 0 (fun _ _ => false).

Definition no_timestamps_world : world :=
  World example_tree 0
    (fun _ c => match c with
                | SysStat _ | SysUtime _ => true
                | _ => false
                end).

(** ** Well-formed trees *)






(** [is_prefix p q]: the names [p] are the first names of [q]. *)
Fixpoint is_prefix (p q : list string) : bool :=
  match p, q with
  | [], _ => true
  | c :: p', d :: q' => String.eqb c d && is_prefix p' q'
  | _ :: _, [] => false
  end.


(** The entry at [p] that is not a directory, if there is one. *)
Definition entry_at (n : node) (p : list string) : option node :=
  match FS.lookup n p with
  | Some v => if FS.is_dir v then None else Some v
  | None => None
  end.

(** Nothing below the node is a socket. *)
Fixpoint all_regular (n : node) : bool :=
  match n with
  | Dir es => forallb (fun e => all_regular (snd e)) es
  | Socket => false
  | _ => true
  end.


(** A path string without a NUL character.  Python refuses a path that
    holds one with a [ValueError] before any system call is made, which
    the calls below do not model: statements about where a path leads
    assume [nul_free]. *)
Definition nul_free (path : string) : bool :=
  negb (Str.contains "000"%char path).

(** A path none of whose names is [.] or [..].  The kernel reads these as
    the directory itself and its parent, [OsPath.components] as plain
    names: statements about where a path leads assume [dot_free]. *)
Definition dot_free (path : string) : bool :=
  forallb (fun c => negb (String.eqb c ".") && negb (String.eqb c ".."))
    (OsPath.components path).

(** ** How the program changes the tree *)

(** The tree changes by single stores of two kinds: a new empty directory
    where nothing was, only at the paths [made] allows, and a regular file
    where nothing or a regular file was, only at the paths [touch]
    allows. *)
Inductive evolves (made touch : list string -> Prop) : node -> node -> Prop :=
| evolves_refl n : evolves made touch n n
| evolves_mkdir n p n' n'' :
    FS.lookup n p = None -> made p ->
    FS.put n p (Dir []) = Some n' ->
    evolves made touch n' n'' ->
    evolves made touch n n''
| evolves_write n p data atime mtime n' n'' :
    free_or_file n p -> touch p ->
    FS.put n p (File data atime mtime) = Some n' ->
    evolves made touch n' n'' ->
    evolves made touch n n''.

(** A computation that changes the tree only in that way, however it
    ends. *)
Definition touches {A} (made touch : list string -> Prop) (m : IO A) : Prop :=
  forall w r w', m w = (r, w') -> evolves made touch (fs w) (fs w').

(** The place [path] names, if it names one. *)
Definition at_path (path : string) (q : list string) : Prop :=
  Os.resolve path = Some q.

(** The world a batch ends in. *)
Fixpoint batch_world (origin dest : string) (chunked : bool)
  (paths : list string) (w : world) : world :=
  match paths with
  | [] => w
  | rel_path :: rest =>
      let rel_norm := _normalize_rel rel_path in
      batch_world origin dest chunked rest
        (snd (copy_file (OsPath.join origin rel_norm)
                (OsPath.join dest rel_norm) chunked DEFAULT_CHUNK_SIZE w))
  end.

(** An origin that holds a socket next to a regular file. *)
Definition socket_world : world :=
  World (Dir [("A", Dir [("a.txt",
                          File (String.list_byte_of_string "hello") 1 2);
                         ("s", Socket)]);
              ("B", Dir [])])
    0 (fun _ _ => false).

(** A world in which the sixth system call fails. *)
Definition interrupted_world : world :=
  World example_tree 0 (fun t _ => Nat.eqb t 5).


(** * Properties *)

(** ** Path normalisation *)

Lemma normalize_canonical (path : string) : canonical (_normalize_rel path).
Proof.
  unfold canonical, _normalize_rel.
  induction path as [|c s IH]; simpl; [reflexivity|].
  rewrite IH, orb_false_r.
  destruct (Ascii.eqb c "\") eqn:E; [reflexivity|exact E].
Qed.

Lemma normalize_fixes_canonical (path : string) :
  canonical path -> _normalize_rel path = path.
Proof.
  unfold canonical, _normalize_rel.
  induction path as [|c s IH]; simpl; [reflexivity|].
  intros H. apply orb_false_iff in H as [Hc Hs].
  rewrite Hc, (IH Hs). reflexivity.
Qed.

Lemma normalize_idempotent (path : string) :
  _normalize_rel (_normalize_rel path) = _normalize_rel path.
Proof. apply normalize_fixes_canonical, normalize_canonical. Qed.

Lemma normalize_length (path : string) :
  String.length (_normalize_rel path) = String.length path.
Proof.
  unfold _normalize_rel.
  induction path as [|c s IH]; simpl; [reflexivity|]. now rewrite IH.
Qed.

(** A character of the result is the character of the input at the same
    place, with a slash where the input has a backslash. *)
Lemma normalize_get (path : string) (i : nat) :
  String.get i (_normalize_rel path) =
  option_map (fun c => if Ascii.eqb c "\" then "/"%char else c)
    (String.get i path).
Proof.
  unfold _normalize_rel. revert i.
  induction path as [|c s IH]; intros i; simpl; [reflexivity|].
  destruct i as [|i]; simpl; [reflexivity|]. apply IH.
Qed.

(** C5. [_normalize_rel] is a function of its argument alone, defined on
    every string; its result has no backslash (every separator, [/] or [\],
    comes out as [/], every other character is kept in place), a path
    without backslash is returned unchanged, normalising twice is
    normalising once, and [a\b/c] and [a/b/c] have the same normal form. *)
Theorem normalize_rel_canonical_idempotent :
  (forall path, canonical (_normalize_rel path)) /\
  (forall path i,
     String.get i (_normalize_rel path) =
     option_map (fun c => if Ascii.eqb c "\" then "/"%char else c)
       (String.get i path)) /\
  (forall path, canonical path -> _normalize_rel path = path) /\
  (forall path, _normalize_rel (_normalize_rel path) = _normalize_rel path) /\
  _normalize_rel "a\b/c" = _normalize_rel "a/b/c" /\
  _normalize_rel "a\b/c" = "a/b/c".
Proof.
  split; [exact normalize_canonical|].
  split; [exact normalize_get|].
  split; [exact normalize_fixes_canonical|].
  split; [exact normalize_idempotent|].
  split; reflexivity.
Qed.

Lemma normalize_rel_example :
  canonical "sub/b.txt" /\ _normalize_rel "sub/b.txt" = "sub/b.txt".
Proof.
  split; [reflexivity|].
  apply (proj1 (proj2 (proj2 normalize_rel_canonical_idempotent))).
  reflexivity.
Defined.

(** ** The batch loops *)

Lemma successes_cons (rel : string) (res : outcome unit) outs :
  successes ((rel, res) :: outs) =
  ((if succeeded res then 1 else 0) + successes outs)%nat.
Proof. unfold successes. simpl. destruct (succeeded res); reflexivity. Qed.

Lemma successes_failures outs :
  (successes outs + length (failures outs) = length outs)%nat.
Proof.
  induction outs as [|[rel res] outs IH]; [reflexivity|].
  rewrite successes_cons. unfold failures in *. simpl.
  destruct res; simpl; rewrite ?length_app; simpl; lia.
Qed.

Lemma batch_outcomes_length origin dest chunked paths w :
  length (batch_outcomes origin dest chunked paths w) = length paths.
Proof.
  revert w. induction paths as [|p ps IH]; intros w; simpl; [reflexivity|].
  destruct (copy_file _ _ _ _ w) as [res w']. simpl. now rewrite IH.
Qed.

Lemma batch_outcomes_paths origin dest chunked paths w :
  map fst (batch_outcomes origin dest chunked paths w) =
  map _normalize_rel paths.
Proof.
  revert w. induction paths as [|p ps IH]; intros w; simpl; [reflexivity|].
  destruct (copy_file _ _ _ _ w) as [res w']. simpl. now rewrite IH.
Qed.

Lemma for_each_cons {A S} (body : S -> A -> IO S) x xs acc w :
  for_each body (x :: xs) acc w =
  match body acc x w with
  | (Returns acc', w') => for_each body xs acc' w'
  | (Raises e, w') => (Raises e, w')
  end.
Proof. reflexivity. Qed.

Lemma copy_missing_step_eq origin dest chunked success errors rel_path w :
  copy_missing_step origin dest chunked (success, errors) rel_path w =
  match copy_file (OsPath.join origin (_normalize_rel rel_path))
          (OsPath.join dest (_normalize_rel rel_path)) chunked
          DEFAULT_CHUNK_SIZE w with
  | (Returns _, w') => (Returns (S success, errors), w')
  | (Raises e, w') =>
      (Returns (success,
                errors ++ [error_line (_normalize_rel rel_path, e)]), w')
  end.
Proof.
  unfold copy_missing_step, try_except, bind.
  destruct (copy_file _ _ _ _ w) as [[[]|e] w']; reflexivity.
Qed.

(** The loop of [copy_missing_files] from any accumulator: it returns, and
    adds to the accumulator what [batch_outcomes] lists. *)
Lemma copy_missing_loop origin dest chunked paths success errors w :
  exists w',
    for_each (copy_missing_step origin dest chunked) paths (success, errors) w
    = (Returns
         ((success + successes (batch_outcomes origin dest chunked paths w))%nat,
          errors ++ map error_line
                      (failures (batch_outcomes origin dest chunked paths w))),
       w').
Proof.
  revert success errors w.
  induction paths as [|p ps IH]; intros success errors w.
  - exists w. simpl. unfold ret, successes. simpl.
    now rewrite Nat.add_0_r, app_nil_r.
  - rewrite for_each_cons, copy_missing_step_eq. simpl batch_outcomes.
    destruct (copy_file _ _ _ _ w) as [[[]|e] w1].
    + destruct (IH (S success) errors w1) as [w' ->]. exists w'.
      rewrite successes_cons. simpl. do 2 f_equal. f_equal. lia.
    + destruct (IH success (errors ++ [error_line (_normalize_rel p, e)]) w1)
        as [w' ->].
      exists w'. rewrite successes_cons. simpl.
      rewrite <- app_assoc. reflexivity.
Qed.

Lemma sorted_length (xs : list string) : length (sorted xs) = length xs.
Proof. unfold sorted. now rewrite merge_sort_Permutation. Qed.

Lemma sorted_elements_length (X : gset string) :
  length (sorted (elements X)) = size X.
Proof. rewrite sorted_length. reflexivity. Qed.

Lemma enumerate_length {A} (xs : list A) start :
  length (enumerate xs start) = length xs.
Proof.
  revert start. induction xs as [|x xs IH]; intros start; simpl;
    [reflexivity|]. now rewrite IH.
Qed.

Lemma run_step_eq self total success errors emitted i rel_path w :
  run_step self total (success, errors, emitted) (i, rel_path) w =
  match copy_file (OsPath.join (origin self) (_normalize_rel rel_path))
          (OsPath.join (dest self) (_normalize_rel rel_path)) (chunked self)
          DEFAULT_CHUNK_SIZE w with
  | (res, w') =>
      (Returns
         (((if succeeded res then 1 else 0) + success)%nat,
          ((if succeeded res then 0 else 1) + errors)%nat,
          emitted ++ worker_signals total i [(_normalize_rel rel_path, res)]),
       w')
  end.
Proof.
  unfold run_step, try_except, bind, _normalize_rel.
  destruct (copy_file _ _ _ _ w) as [[[]|e] w']; reflexivity.
Qed.

Lemma worker_loop self total paths start success errors emitted w :
  let outs :=
    batch_outcomes (origin self) (dest self) (chunked self) paths w in
  exists w',
    for_each (run_step self total) (enumerate paths start)
      (success, errors, emitted) w
    = (Returns ((success + successes outs)%nat,
                (errors + length (failures outs))%nat,
                emitted ++ worker_signals total start outs), w').
Proof.
  revert start success errors emitted w.
  induction paths as [|p ps IH]; intros start success errors emitted w.
  - exists w. simpl. unfold ret, successes. simpl.
    now rewrite !Nat.add_0_r, app_nil_r.
  - simpl enumerate. rewrite for_each_cons, run_step_eq. simpl batch_outcomes.
    destruct (copy_file _ _ _ _ w) as [res w1].
    edestruct IH as [w' ->]. exists w'.
    rewrite successes_cons. unfold failures. simpl flat_map.
    fold (failures (batch_outcomes (origin self) (dest self) (chunked self)
                      ps w1)).
    rewrite length_app, <- app_assoc. simpl worker_signals.
    destruct res; simpl; do 2 f_equal; f_equal; try f_equal; lia.
Qed.

Lemma worker_signals_progress total start outs :
  progress_of (worker_signals total start outs) =
  map (fun io => (fst io, total, worker_message (snd io)))
    (enumerate outs start).
Proof.
  revert start. induction outs as [|o outs IH]; intros start; simpl;
    [reflexivity|]. now rewrite IH.
Qed.

Lemma worker_signals_finished total start outs :
  finished_of (worker_signals total start outs) = [].
Proof.
  revert start. induction outs as [|o outs IH]; intros start; simpl;
    [reflexivity|]. apply IH.
Qed.

Lemma progress_of_app s1 s2 :
  progress_of (s1 ++ s2) = progress_of s1 ++ progress_of s2.
Proof. unfold progress_of. apply flat_map_app. Qed.

Lemma finished_of_app s1 s2 :
  finished_of (s1 ++ s2) = finished_of s1 ++ finished_of s2.
Proof. unfold finished_of. apply flat_map_app. Qed.

Lemma enumerate_indices {A} (xs : list A) start :
  map fst (enumerate xs start) = seq start (length xs).
Proof.
  revert start. induction xs as [|x xs IH]; intros start; simpl;
    [reflexivity|]. now rewrite IH.
Qed.

Lemma enumerate_items {A} (xs : list A) start :
  map snd (enumerate xs start) = xs.
Proof.
  revert start. induction xs as [|x xs IH]; intros start; simpl;
    [reflexivity|]. now rewrite IH.
Qed.

Lemma copy_missing_files_outcomes (missing_files : gset string)
  origin dest chunked w :
  let outs :=
    batch_outcomes origin dest chunked (sorted (elements missing_files)) w in
  exists w',
    copy_missing_files missing_files origin dest chunked w =
    (Returns (successes outs, map error_line (failures outs)), w').
Proof.
  intros outs. unfold copy_missing_files.
  destruct (copy_missing_loop origin dest chunked
              (sorted (elements missing_files)) 0 [] w) as [w' H].
  exists w'. rewrite H. reflexivity.
Qed.

Lemma run_outcomes self w :
  let outs :=
    batch_outcomes (origin self) (dest self) (chunked self) (files self) w in
  exists w',
    run self w =
    (Returns (worker_signals (length (files self)) 1 outs
              ++ [Finished (successes outs) (length (failures outs))
                    (dest self)]), w').
Proof.
  intros outs. unfold run, bind.
  destruct (worker_loop self (length (files self)) (files self) 1 0 0 [] w)
    as [w' H].
  rewrite H. exists w'. reflexivity.
Qed.

(** The two loops once more, with the world they end in. *)
Lemma copy_missing_loop_world origin dest chunked paths success errors w :
  for_each (copy_missing_step origin dest chunked) paths (success, errors) w
  = (Returns
       ((success + successes (batch_outcomes origin dest chunked paths w))%nat,
        errors ++ map error_line
                    (failures (batch_outcomes origin dest chunked paths w))),
     batch_world origin dest chunked paths w).
Proof.
  revert success errors w.
  induction paths as [|p ps IH]; intros success errors w.
  - simpl. unfold ret, successes. simpl.
    now rewrite Nat.add_0_r, app_nil_r.
  - rewrite for_each_cons, copy_missing_step_eq.
    simpl batch_outcomes. simpl batch_world.
    destruct (copy_file _ _ _ _ w) as [[[]|e] w1]; cbn [snd].
    + rewrite IH, successes_cons. simpl. do 2 f_equal. f_equal. lia.
    + rewrite IH, successes_cons. simpl. now rewrite <- app_assoc.
Qed.

Lemma worker_loop_world self total paths start success errors emitted w :
  for_each (run_step self total) (enumerate paths start)
    (success, errors, emitted) w
  = (Returns
       ((success
         + successes (batch_outcomes (origin self) (dest self) (chunked self)
                        paths w))%nat,
        (errors
         + length (failures (batch_outcomes (origin self) (dest self)
                               (chunked self) paths w)))%nat,
        emitted ++ worker_signals total start
                     (batch_outcomes (origin self) (dest self) (chunked self)
                        paths w)),
     batch_world (origin self) (dest self) (chunked self) paths w).
Proof.
  revert start success errors emitted w.
  induction paths as [|p ps IH]; intros start success errors emitted w.
  - simpl. unfold ret, successes. simpl.
    now rewrite !Nat.add_0_r, app_nil_r.
  - simpl enumerate. rewrite for_each_cons, run_step_eq.
    simpl batch_outcomes. simpl batch_world.
    destruct (copy_file _ _ _ _ w) as [res w1]. cbn [snd]. rewrite IH.
    rewrite successes_cons. unfold failures. simpl flat_map.
    fold (failures (batch_outcomes (origin self) (dest self) (chunked self)
                      ps w1)).
    rewrite length_app, <- app_assoc. simpl worker_signals.
    destruct res; simpl; do 2 f_equal; f_equal; try f_equal; lia.
Qed.

(** C2. A failing copy never ends the batch.  [copy_missing_files] always
    returns; its result is read off the list of outcomes, which holds one
    entry for every path of the input set (each the result of the call of
    [copy_file] on that path, whatever the calls before it did); each
    failure is recorded as the path followed by the text of the exception;
    the success count plus the number of recorded failures is the number
    of paths; and the world it ends in is the one that the calls of
    [copy_file] on all the paths, one after the other, lead to.
    [CopyWorker.run] likewise always reaches its completion signal, whose
    two counts add up to the number of files, in the world all its calls
    of [copy_file] lead to. *)
Theorem batch_never_aborts :
  (forall (missing_files : gset string) origin dest chunked w,
     let paths := sorted (elements missing_files) in
     let outs := batch_outcomes origin dest chunked paths w in
     exists w' success errors,
       copy_missing_files missing_files origin dest chunked w =
       (Returns (success, errors), w') /\
       paths ≡ₚ elements missing_files /\
       map fst outs = map _normalize_rel paths /\
       success = successes outs /\
       errors = map error_line (failures outs) /\
       (success + length errors = size missing_files)%nat /\
       w' = batch_world origin dest chunked paths w) /\
  (forall self w,
     let outs :=
       batch_outcomes (origin self) (dest self) (chunked self)
         (files self) w in
     exists w' sigs,
       run self w =
       (Returns (sigs ++ [Finished (successes outs) (length (failures outs))
                            (dest self)]), w') /\
       map fst outs = map _normalize_rel (files self) /\
       (successes outs + length (failures outs) = length (files self))%nat /\
       w' = batch_world (origin self) (dest self) (chunked self)
              (files self) w).
Proof.
  split.
  - intros X origin dest chunked w paths outs.
    exists (batch_world origin dest chunked paths w),
      (successes outs), (map error_line (failures outs)).
    split.
    { unfold copy_missing_files. fold paths.
      rewrite copy_missing_loop_world. reflexivity. }
    split; [apply merge_sort_Permutation|].
    split; [apply batch_outcomes_paths|].
    split; [reflexivity|]. split; [reflexivity|].
    split; [|reflexivity].
    rewrite length_map, successes_failures.
    unfold outs. rewrite batch_outcomes_length.
    apply sorted_elements_length.
  - intros self w outs.
    exists (batch_world (origin self) (dest self) (chunked self)
              (files self) w),
      (worker_signals (length (files self)) 1 outs).
    split.
    { unfold run, bind.
      rewrite (worker_loop_world self (length (files self)) (files self)
                 1 0 0 [] w).
      reflexivity. }
    split; [apply batch_outcomes_paths|].
    split; [|reflexivity].
    rewrite successes_failures. apply batch_outcomes_length.
Qed.

(** C9. [CopyWorker.run] always returns, and what it emitted is: for the
    [i]-th of its [N] files, whatever the outcome of the copy, one
    [progress] signal carrying [i] and [N] (so the indices run 1, 2, ..., N)
    and the message of that file; then, as the last signal and nowhere
    before, one [finished] signal with the two counts, which add up to [N],
    and the target directory. *)
Theorem worker_signals_in_order :
  forall self w,
    let N := length (files self) in
    let outs :=
      batch_outcomes (origin self) (dest self) (chunked self)
        (files self) w in
    exists w' sigs ok bad,
      run self w = (Returns (sigs ++ [Finished ok bad (dest self)]), w') /\
      progress_of (sigs ++ [Finished ok bad (dest self)]) =
      map (fun io => (fst io, N, worker_message (snd io)))
        (enumerate outs 1) /\
      map (fun p => fst (fst p))
        (progress_of (sigs ++ [Finished ok bad (dest self)])) = seq 1 N /\
      finished_of sigs = [] /\
      finished_of (sigs ++ [Finished ok bad (dest self)]) =
      [(ok, bad, dest self)] /\
      (ok + bad = N)%nat.
Proof.
  intros self w N outs.
  destruct (run_outcomes self w) as [w' H].
  exists w', (worker_signals N 1 outs), (successes outs),
    (length (failures outs)).
  assert (Hlen : length outs = N) by apply batch_outcomes_length.
  split; [exact H|].
  rewrite progress_of_app, finished_of_app, worker_signals_progress,
    worker_signals_finished. simpl. rewrite app_nil_r.
  split; [reflexivity|]. split.
  - rewrite map_map. simpl.
    change (map (fun x : nat * (string * outcome unit) => fst x)
              (enumerate outs 1)) with (map fst (enumerate outs 1)).
    rewrite enumerate_indices, Hlen. reflexivity.
  - split; [reflexivity|]. split; [reflexivity|].
    rewrite successes_failures. exact Hlen.
Qed.

(** ** The order of processing *)

Lemma sorted_Sorted (xs : list string) : Sorted String.le (sorted xs).
Proof. apply Sorted_merge_sort, _. Qed.

Lemma sorted_StronglySorted (xs : list string) :
  StronglySorted String.le (sorted xs).
Proof. apply StronglySorted_merge_sort; apply _. Qed.

Lemma map_normalize_canonical (paths : list string) :
  Forall canonical paths -> map _normalize_rel paths = paths.
Proof.
  induction 1 as [|p ps Hp _ IH]; simpl; [reflexivity|].
  now rewrite (normalize_fixes_canonical p Hp), IH.
Qed.

Lemma sorted_canonical (X : gset string) :
  (forall p, p ∈ X -> canonical p) ->
  Forall canonical (sorted (elements X)).
Proof.
  intros H. apply Forall_forall. intros p Hp.
  apply H, elem_of_elements.
  unfold sorted in Hp. now rewrite merge_sort_Permutation in Hp.
Qed.

(** C6, as stated, fails: for the set of the two paths [a0] and [a\b] the
    runner handles [a0] first and then [a/b], both copies fail and are
    recorded in that order, while [a/b] comes before [a0] in the
    lexicographic order of canonical paths. *)
Lemma processing_order_not_canonical :
  let w := World (Dir []) 0 (fun _ _ => false) in
  let X : gset string := {[ "a\b"; "a0" ]} in
  map fst (batch_outcomes "A" "B" true (sorted (elements X)) w)
  = ["a0"; "a/b"] /\
  fst (copy_missing_files X "A" "B" true w) =
  Returns (0%nat,
           ["a0 -> ERROR: [Errno 2] No such file or directory: 'A/a0'";
            "a/b -> ERROR: [Errno 2] No such file or directory: 'A/a/b'"]) /\
  ~ Sorted String.le
      (map fst (batch_outcomes "A" "B" true (sorted (elements X)) w)).
Proof.
  assert (E : map fst (batch_outcomes "A" "B" true
                         (sorted (elements ({[ "a\b"; "a0" ]} : gset string)))
                         (World (Dir []) 0 (fun _ _ => false)))
              = ["a0"; "a/b"]) by (vm_compute; reflexivity).
  split; [exact E|]. split; [vm_compute; reflexivity|].
  cbv zeta. rewrite E. intros HS.
  apply Sorted_inv in HS as [_ Hhd]. apply HdRel_inv in Hhd.
  vm_compute in Hhd. exact Hhd.
Qed.

(** C6, amended.  The runner iterates over the paths as given, sorted
    lexicographically, and normalises each one after that; so for every
    input set of canonical paths (such as [compare] returns) the paths are
    processed, each once, in the lexicographic order of the canonical
    relative path, and the outcomes are recorded in that order. *)
Theorem batch_processes_in_sorted_order :
  forall (missing_files : gset string) origin dest chunked w,
    (forall p, p ∈ missing_files -> canonical p) ->
    let outs :=
      batch_outcomes origin dest chunked
        (sorted (elements missing_files)) w in
    map fst outs = sorted (elements missing_files) /\
    StronglySorted String.le (map fst outs) /\
    NoDup (map fst outs) /\
    (forall p, p ∈ map fst outs <-> p ∈ missing_files) /\
    exists w',
      copy_missing_files missing_files origin dest chunked w =
      (Returns (successes outs, map error_line (failures outs)), w').
Proof.
  intros X origin dest chunked w HX outs.
  assert (E : map fst outs = sorted (elements X)).
  { unfold outs. rewrite batch_outcomes_paths.
    apply map_normalize_canonical, sorted_canonical, HX. }
  rewrite E. split; [reflexivity|].
  split; [apply sorted_StronglySorted|].
  split.
  { unfold sorted. rewrite merge_sort_Permutation. apply NoDup_elements. }
  split.
  { intros p. unfold sorted. rewrite merge_sort_Permutation.
    apply elem_of_elements. }
  apply copy_missing_files_outcomes.
Qed.

Lemma batch_processes_in_sorted_order_example :
  let w := World (Dir []) 0 (fun _ _ => false) in
  let X : gset string := {[ "sub/b.txt"; "a.txt" ]} in
  (forall p, p ∈ X -> canonical p) /\
  map fst (batch_outcomes "A" "B" true (sorted (elements X)) w)
  = sorted (elements X).
Proof.
  assert (H : forall p, p ∈ ({[ "sub/b.txt"; "a.txt" ]} : gset string) ->
                        canonical p).
  { intros p Hp. apply elem_of_union in Hp as [Hp|Hp];
      apply elem_of_singleton in Hp; subst p; reflexivity. }
  split; [exact H|].
  exact (proj1 (batch_processes_in_sorted_order _ "A" "B" true
                  (World (Dir []) 0 (fun _ _ => false)) H)).
Defined.

(** ** Indexing and comparison *)

(** Induction over a tree, with the hypothesis for every entry of a
    directory. *)
Lemma node_induction (P : node -> Prop) :
  (forall data atime mtime, P (File data atime mtime)) ->
  (forall es, List.Forall (fun e => P (snd e)) es -> P (Dir es)) ->
  P Locked -> P Socket ->
  forall n, P n.
Proof.
  intros HF HD HL HS.
  fix IH 1. intros [data atime mtime|es| |].
  - apply HF.
  - apply HD. induction es as [|[k v] es IHes]; constructor.
    + apply IH.
    + exact IHes.
  - exact HL.
  - exact HS.
Qed.

Lemma filenames_In (es : list (string * node)) (f : string) :
  In f (FS.filenames es) <->
  exists v, In (f, v) es /\ FS.is_dir v = false.
Proof.
  unfold FS.filenames. rewrite in_map_iff. split.
  - intros [[k v] [Hk Hin]]. simpl in Hk. subst k.
    apply filter_In in Hin as [Hin Hfile]. simpl in Hfile.
    apply negb_true_iff in Hfile. eauto.
  - intros (v & Hin & Hv).
    exists (f, v). split; [reflexivity|].
    apply filter_In. split; [exact Hin|]. simpl. now rewrite Hv.
Qed.

(** The files [FS.walk] reports are the entries under the node that are
    not directories. *)
Lemma walk_reports_files (n : node) :
  forall (r full : list string),
    (exists root ds fns f,
        In (root, ds, fns) (FS.walk n r) /\ In f fns /\ full = root ++ [f])
    <-> (exists p, FS.file_under n p /\ full = r ++ p).
Proof.
  induction n as [data atime mtime|es IH| |] using node_induction;
    intros r full.
  - split.
    + intros (root & ds & fns & f & [] & _).
    + intros (p & Hp & _). inversion Hp.
  - simpl. split.
    + intros (root & ds & fns & f & [Heq|Hin] & Hf & Hfull).
      * inversion Heq; subst root ds fns; clear Heq.
        apply filenames_In in Hf as (v & Hf & Hv).
        exists [f]. split; [econstructor; eassumption|exact Hfull].
      * apply in_flat_map in Hin as ([k v] & Hkv & Hin). simpl in Hin.
        rewrite List.Forall_forall in IH.
        destruct (proj1 (IH (k, v) Hkv (r ++ [k]) full)) as (p & Hp & Hfull').
        { exists root, ds, fns, f. auto. }
        exists (k :: p). split; [econstructor; eassumption|].
        rewrite Hfull', <- app_assoc. reflexivity.
    + intros (p & Hp & Hfull). inversion Hp as [es' name v Hin Hv
                                                |es' name child p' Hin Hsub];
        subst.
      * exists r, (FS.dirnames es), (FS.filenames es), name.
        split; [left; reflexivity|]. split; [|reflexivity].
        apply filenames_In. eauto.
      * rewrite List.Forall_forall in IH.
        destruct (proj2 (IH (name, child) Hin (r ++ [name])
                           (r ++ name :: p')))
          as (root & ds & fns & f & Hw & Hf & Hfull).
        { exists p'. split; [exact Hsub|].
          rewrite <- app_assoc. reflexivity. }
        exists root, ds, fns, f. split; [|auto].
        right. apply in_flat_map. exists (name, child). auto.
  - split.
    + intros (root & ds & fns & f & [] & _).
    + intros (p & Hp & _). inversion Hp.
  - split.
    + intros (root & ds & fns & f & [] & _).
    + intros (p & Hp & _). inversion Hp.
Qed.

(** Adding the files of a list of triples to a set. *)
Lemma index_fold (g : list string -> string -> string)
  (l : list (list string * list string * list string))
  (acc : gset string) (x : string) :
  x ∈ fold_left
        (fun files '(root, _, filenames) =>
           fold_left (fun files f => files ∪ {[ g root f ]}) filenames files)
        l acc
  <-> x ∈ acc \/
      exists root ds fns f,
        In (root, ds, fns) l /\ In f fns /\ x = g root f.
Proof.
  revert acc. induction l as [|[[root ds] fns] l IH]; intros acc; simpl.
  - split; [auto|]. intros [H|(?&?&?&?&[]&_)]. exact H.
  - rewrite IH. clear IH.
    assert (Hin : forall (fs0 : list string) (acc0 : gset string),
               x ∈ fold_left (fun files f => files ∪ {[ g root f ]}) fs0 acc0
               <-> x ∈ acc0 \/ exists f, In f fs0 /\ x = g root f).
    { induction fs0 as [|f fs0 IHf]; intros acc0; simpl.
      - split; [auto|]. intros [H|(?&[]&_)]. exact H.
      - rewrite IHf, elem_of_union, elem_of_singleton. split.
        + intros [[H|H]|(f' & Hf' & Hx)]; eauto 6.
        + intros [H|(f' & [Hf'|Hf'] & Hx)]; subst; eauto 6. }
    rewrite Hin. split.
    + intros [[H|(f & Hf & Hx)]|(root' & ds' & fns' & f & Hl & Hf & Hx)].
      * auto.
      * right. exists root, ds, fns, f. auto.
      * right. exists root', ds', fns', f. auto.
    + intros [H|(root' & ds' & fns' & f & [Heq|Hl] & Hf & Hx)].
      * auto.
      * inversion Heq; subst. left. right. eauto.
      * right. exists root', ds', fns', f. auto.
Qed.

Lemma lookup_error_is_OSError (n : node) (p : list string) path :
  is_OSError (Os.lookup_error n p path) = true.
Proof.
  revert n. induction p as [|c p IH]; intros n; simpl.
  - destruct n; reflexivity.
  - destruct n as [data atime mtime|es| |]; try reflexivity.
    destruct (FS.assoc c es); [apply IH|reflexivity].
Qed.

Lemma walk_returns (top : string) (w : world) :
  Os.walk top w =
  (Returns (match Os.node_at w top with
            | Some n => FS.walk n []
            | None => []
            end), w).
Proof.
  unfold Os.walk, try_except_if, try_except, bind, Os.scandir, Os.node_at.
  destruct (Os.resolve top) as [p|]; [|reflexivity].
  destruct (FS.lookup (fs w) p) as [[data atime mtime|es| |]|] eqn:E;
    try reflexivity.
  simpl. now rewrite lookup_error_is_OSError.
Qed.

(** [list_files_recursive] returns, whatever the path, and does not touch
    the world; its result holds the canonical relative paths of the entries
    under the path that are not directories. *)
Lemma list_files_recursive_returns (path : string) (w : world) :
  exists files,
    list_files_recursive path w = (Returns files, w) /\
    forall rel, rel ∈ files <-> has_file w path rel.
Proof.
  unfold list_files_recursive, bind. rewrite walk_returns.
  eexists. split; [reflexivity|]. intros rel.
  rewrite (index_fold (fun root f => _normalize_rel (Os.relpath_join root f))).
  rewrite elem_of_empty. unfold has_file.
  destruct (Os.node_at w path) as [n|]; simpl.
  - split.
    + intros [[]|(root & ds & fns & f & Hw & Hf & Hrel)].
      destruct (proj1 (walk_reports_files n [] (root ++ [f])))
        as (p & Hp & Hfull); [exists root, ds, fns, f; auto|].
      exists n, p. repeat split; [exact Hp|].
      rewrite Hrel. unfold Os.relpath_join, canonical_rel.
      rewrite Hfull. reflexivity.
    + intros (n' & p & Hn & Hp & Hrel). inversion Hn; subst n'; clear Hn.
      destruct (proj2 (walk_reports_files n [] p))
        as (root & ds & fns & f & Hw & Hf & Hfull); [exists p; auto|].
      right. exists root, ds, fns, f. repeat split; [exact Hw|exact Hf|].
      rewrite Hrel. unfold Os.relpath_join, canonical_rel.
      rewrite Hfull. reflexivity.
  - split.
    + intros [[]|(?&?&?&?&[]&_)].
    + intros (n' & p & Hn & _). discriminate.
Qed.

Lemma has_file_same_tree (w w' : world) root rel :
  fs w' = fs w -> has_file w' root rel <-> has_file w root rel.
Proof. unfold has_file, Os.node_at. intros ->. reflexivity. Qed.

Lemma not_listable_no_file (w : world) root rel :
  ~ listable w root -> ~ has_file w root rel.
Proof.
  intros Hno (n & p & Hn & Hp & _). apply Hno.
  inversion Hp; subst; eexists; exact Hn.
Qed.

(** C1, as stated, fails: the index holds whatever [os.walk] lists among
    the file names, regular file or not, so [compare] reports the socket
    of the origin, at whose path there is no regular file. *)
Lemma compare_reports_a_socket :
  compare "A" "B" socket_world = (Returns {[ "a.txt"; "s" ]}, socket_world) /\
  Os.node_at socket_world (OsPath.join "A" "s") = Some Socket /\
  content socket_world (OsPath.join "A" "s") = None /\
  ~ (forall rel missing,
        compare "A" "B" socket_world = (Returns missing, socket_world) ->
        rel ∈ missing ->
        is_Some (content socket_world (OsPath.join "A" rel))).
Proof.
  assert (Hc : compare "A" "B" socket_world
               = (Returns {[ "a.txt"; "s" ]}, socket_world))
    by (vm_compute; reflexivity).
  split; [exact Hc|]. split; [reflexivity|]. split; [reflexivity|].
  intros H. destruct (H "s" _ Hc) as [data Hdata].
  - apply elem_of_union. right. now apply elem_of_singleton.
  - discriminate.
Qed.

(** C1, amended.  For roots written without NUL and without [.] or [..],
    [compare] returns, without touching the world, the difference of the
    two indexes, which is exactly the set of canonical relative paths of
    the entries that are not directories (regular files or not) found
    below the origin through directories that can be listed, and not so
    found below the destination; its result depends on the two trees
    only, so running it again on unchanged trees gives the same set. *)
Theorem compare_is_set_difference :
  forall (w : world) (origin dest : string),
    nul_free origin = true -> nul_free dest = true ->
    dot_free origin = true -> dot_free dest = true ->
    exists missing origin_files dest_files,
      compare origin dest w = (Returns missing, w) /\
      list_files_recursive origin w = (Returns origin_files, w) /\
      list_files_recursive dest w = (Returns dest_files, w) /\
      missing = origin_files ∖ dest_files /\
      (forall rel,
          rel ∈ missing <->
          has_file w origin rel /\ ~ has_file w dest rel) /\
      (forall w',
          fs w' = fs w -> compare origin dest w' = (Returns missing, w')).
Proof.
  intros w origin dest _ _ _ _.
  destruct (list_files_recursive_returns origin w) as (A & HA & HinA).
  destruct (list_files_recursive_returns dest w) as (B & HB & HinB).
  exists (A ∖ B), A, B.
  assert (Hc : compare origin dest w = (Returns (A ∖ B), w)).
  { unfold compare, bind. rewrite HA, HB. reflexivity. }
  split; [exact Hc|]. split; [exact HA|]. split; [exact HB|].
  split; [reflexivity|]. split.
  - intros rel. rewrite elem_of_difference, HinA, HinB. reflexivity.
  - intros w' Hfs.
    destruct (list_files_recursive_returns origin w') as (A' & HA' & HinA').
    destruct (list_files_recursive_returns dest w') as (B' & HB' & HinB').
    unfold compare, bind. rewrite HA', HB'. unfold ret. do 2 f_equal.
    apply set_eq. intros rel.
    rewrite !elem_of_difference, HinA, HinB, HinA', HinB'.
    rewrite !(has_file_same_tree w w') by exact Hfs. reflexivity.
Qed.

Lemma compare_is_set_difference_example :
  nul_free "A" = true /\ nul_free "B" = true /\
  dot_free "A" = true /\ dot_free "B" = true /\
  exists missing origin_files dest_files,
    compare "A" "B" example_world = (Returns missing, example_world) /\
    list_files_recursive "A" example_world
    = (Returns origin_files, example_world) /\
    list_files_recursive "B" example_world
    = (Returns dest_files, example_world) /\
    missing = origin_files ∖ dest_files /\
    (forall rel,
        rel ∈ missing <->
        has_file example_world "A" rel /\ ~ has_file example_world "B" rel) /\
    (forall w',
        fs w' = fs example_world ->
        compare "A" "B" w' = (Returns missing, w')).
Proof.
  split; [reflexivity|]. split; [reflexivity|].
  split; [reflexivity|]. split; [reflexivity|].
  apply (compare_is_set_difference example_world "A" "B"); reflexivity.
Defined.

(** C4, as stated, fails: indexing a root that does not exist, and indexing
    a root that may not be listed, both return the empty set and raise
    nothing. *)
Lemma indexing_bad_root_is_silent :
  let w := World (Dir [("vault", Locked)]) 0 (fun _ _ => false) in
  Os.node_at w "missing" = None /\
  list_files_recursive "missing" w = (Returns ∅, w) /\
  Os.node_at w "vault" = Some Locked /\
  list_files_recursive "vault" w = (Returns ∅, w) /\
  ~ (forall root,
        ~ listable w root ->
        exists e w', list_files_recursive root w = (Raises e, w')).
Proof.
  cbv zeta.
  split; [reflexivity|]. split; [reflexivity|].
  split; [reflexivity|]. split; [reflexivity|].
  intros H. destruct (H "missing") as (e & w' & He).
  - intros [es Hes]. discriminate.
  - discriminate.
Qed.

(** C4, amended.  Indexing a root, written without NUL and without [.] or
    [..], that is not a directory that can be listed (it does not exist,
    it is unreadable, or it is no directory) does not fail:
    [list_files_recursive] returns the empty set, raises nothing and
    changes nothing. *)
Theorem indexing_unlistable_root_returns_empty :
  forall (w : world) (root : string),
    nul_free root = true -> dot_free root = true ->
    ~ listable w root ->
    list_files_recursive root w = (Returns ∅, w).
Proof.
  intros w root _ _ Hno.
  destruct (list_files_recursive_returns root w) as (files & Hf & Hin).
  rewrite Hf. do 2 f_equal. apply set_eq. intros rel.
  rewrite Hin, elem_of_empty. split; [|intros []].
  apply not_listable_no_file, Hno.
Qed.

Lemma indexing_unlistable_root_example :
  let w := World (Dir [("vault", Locked)]) 0 (fun _ _ => false) in
  nul_free "vault" = true /\ dot_free "vault" = true /\
  ~ listable w "vault" /\
  list_files_recursive "vault" w = (Returns ∅, w).
Proof.
  cbv zeta.
  assert (H : ~ listable (World (Dir [("vault", Locked)]) 0
                            (fun _ _ => false)) "vault").
  { intros [es Hes]. discriminate. }
  split; [reflexivity|]. split; [reflexivity|]. split; [exact H|].
  exact (indexing_unlistable_root_returns_empty _ "vault"
           eq_refl eq_refl H).
Defined.

(** ** The tree: lookups after updates *)

Lemma assoc_set_entry_same c v es :
  FS.assoc c (FS.set_entry c v es) = Some v.
Proof.
  induction es as [|[k x] es IH]; simpl.
  - now rewrite String.eqb_refl.
  - destruct (String.eqb k c) eqn:E; simpl; rewrite E; [reflexivity|exact IH].
Qed.

Lemma assoc_set_entry_other c c' v es :
  c' <> c -> FS.assoc c' (FS.set_entry c v es) = FS.assoc c' es.
Proof.
  intros Hne. induction es as [|[k x] es IH]; simpl.
  - destruct (String.eqb c c') eqn:E; [|reflexivity].
    apply String.eqb_eq in E. congruence.
  - destruct (String.eqb k c) eqn:E; simpl.
    + apply String.eqb_eq in E. subst k.
      destruct (String.eqb c c') eqn:E'; [|reflexivity].
      apply String.eqb_eq in E'. congruence.
    + now rewrite IH.
Qed.

Lemma lookup_put_same n p v n' :
  FS.put n p v = Some n' -> FS.lookup n' p = Some v.
Proof.
  revert n n'. induction p as [|c p IH]; intros n n' H; simpl in *.
  - congruence.
  - destruct n as [| es | |]; try discriminate.
    destruct p as [|c' p].
    + inversion H; subst. simpl. now rewrite assoc_set_entry_same.
    + destruct (FS.assoc c es) as [m|]; try discriminate.
      destruct (FS.put m (c' :: p) v) as [m'|] eqn:Hm; try discriminate.
      inversion H; subst. cbn [FS.lookup].
      rewrite assoc_set_entry_same. apply (IH m m' Hm).
Qed.

Lemma lookup_leaf v c q : leaf v -> FS.lookup v (c :: q) = None.
Proof. destruct v as [| [|e es] | |]; simpl; intros H; try reflexivity; tauto. Qed.

(** Storing a leaf where nothing or a regular file was leaves every other
    regular file as it is, and makes no new one. *)
Lemma file_at_put_other n p v n' q :
  FS.put n p v = Some n' -> leaf v -> free_or_file n p -> q <> p ->
  file_at n' q = file_at n q.
Proof.
  unfold file_at, free_or_file.
  revert n n' q. induction p as [|c p IH]; intros n n' q H Hv Hfree Hq.
  - simpl in *. inversion H; subst n'; clear H.
    destruct q as [|c q]; [congruence|].
    rewrite (lookup_leaf v c q Hv).
    destruct n as [| [|e es] | |]; try reflexivity; tauto.
  - simpl in H. destruct n as [| es | |]; try discriminate.
    destruct q as [|c' q].
    { destruct p; [inversion H; reflexivity|].
      destruct (FS.assoc c es); try discriminate.
      destruct (FS.put _ _ _); try discriminate.
      inversion H; reflexivity. }
    destruct (string_dec c' c) as [->|Hc].
    + assert (Hqp : q <> p) by congruence. clear Hq.
      destruct p as [|c2 p].
      * inversion H; subst n'; clear H. cbn [FS.lookup] in *.
        rewrite assoc_set_entry_same.
        destruct q as [|c3 q]; [congruence|].
        rewrite (lookup_leaf v c3 q Hv).
        destruct (FS.assoc c es) as [[| [|e es'] | |]|]; try reflexivity; tauto.
      * destruct (FS.assoc c es) as [m|] eqn:Ha; try discriminate.
        destruct (FS.put m (c2 :: p) v) as [m'|] eqn:Hm; try discriminate.
        inversion H; subst n'; clear H.
        cbn [FS.lookup] in *. rewrite assoc_set_entry_same.
        rewrite Ha in *. apply (IH m m' q Hm Hv Hfree Hqp).
    + assert (E : FS.lookup n' (c' :: q) = FS.lookup (Dir es) (c' :: q)).
      { destruct p as [|c2 p].
        - inversion H; subst n'. cbn [FS.lookup].
          now rewrite assoc_set_entry_other.
        - destruct (FS.assoc c es) as [m|]; try discriminate.
          destruct (FS.put m (c2 :: p) v) as [m'|]; try discriminate.
          inversion H; subst n'. cbn [FS.lookup].
          now rewrite assoc_set_entry_other. }
      now rewrite E.
Qed.

Lemma put_existing n p v x :
  FS.lookup n p = Some x -> exists n', FS.put n p v = Some n'.
Proof.
  revert n. induction p as [|c p IH]; intros n H; simpl in *; [eauto|].
  destruct n as [| es | |]; try discriminate.
  destruct p as [|c' p]; [eauto|].
  destruct (FS.assoc c es) as [m|]; try discriminate.
  destruct (IH m H) as [m' ->]. eauto.
Qed.

Lemma put_child n p c v es :
  FS.lookup n p = Some (Dir es) -> exists n', FS.put n (p ++ [c]) v = Some n'.
Proof.
  revert n. induction p as [|k p IH]; intros n H; simpl in *.
  - inversion H; subst. eauto.
  - destruct n as [| es' | |]; try discriminate.
    destruct (FS.assoc k es') as [m|]; try discriminate.
    destruct (IH m H) as [m' Hm'].
    destruct (p ++ [c]) eqn:E; [destruct p; discriminate|].
    rewrite Hm'. eauto.
Qed.

Lemma lookup_app n p q :
  FS.lookup n (p ++ q) =
  match FS.lookup n p with
  | Some m => FS.lookup m q
  | None => None
  end.
Proof.
  revert n. induction p as [|c p IH]; intros n; simpl; [reflexivity|].
  destruct n as [| es | |]; try reflexivity.
  destruct (FS.assoc c es); [apply IH|reflexivity].
Qed.

Lemma creatable_absent n p : creatable n p = true -> FS.lookup n p = None.
Proof.
  revert n. induction p as [|c p IH]; intros n H; simpl in *; [discriminate|].
  destruct n as [| es | |]; try reflexivity.
  destruct (FS.assoc c es); [apply IH, H|reflexivity].
Qed.

Lemma creatable_snoc n p c :
  creatable n (p ++ [c]) = true ->
  creatable n p = true \/
  exists es, FS.lookup n p = Some (Dir es) /\ FS.assoc c es = None.
Proof.
  revert n. induction p as [|k p IH]; intros n H; simpl in *.
  - destruct n as [| es | |]; try discriminate.
    destruct (FS.assoc c es) eqn:E; [discriminate|]. right. eauto.
  - destruct n as [| es | |]; try discriminate.
    destruct (FS.assoc k es) as [m|]; [apply IH, H|]. now left.
Qed.

(** ** What a system call that returned has done *)

Lemma fs_tick w : fs (tick w) = fs w.
Proof. reflexivity. Qed.

Lemma fs_with_fs w n : fs (with_fs w n) = n.
Proof. reflexivity. Qed.

Lemma deny_tick w : deny (tick w) = deny w.
Proof. reflexivity. Qed.

Lemma deny_with_fs w n : deny (with_fs w n) = deny w.
Proof. reflexivity. Qed.

Ltac run_io :=
  unfold Os.store, bind, ret, raise, get_fs, set_fs, get_now, attempt;
  cbv beta iota.

Ltac case_put :=
  match goal with
  | |- context [FS.put ?n ?p ?v] =>
      let E := fresh "Hput" in
      let n' := fresh "n'" in
      destruct (FS.put n p v) as [n'|] eqn:E
  end.

Ltac case_deny :=
  match goal with
  | |- context [deny ?w ?t ?c] => destruct (deny w t c)
  end.

Lemma take_firstn {A} (n : N) (l : list A) :
  Os.take n l = firstn (N.to_nat n) l.
Proof.
  revert n. induction l as [|x l IH]; intros n; simpl.
  - now rewrite firstn_nil.
  - destruct (N.eqb_spec n 0) as [->|Hn]; [reflexivity|].
    rewrite IH. replace (N.to_nat n) with (S (N.to_nat (N.pred n))) by lia.
    reflexivity.
Qed.

Lemma take_nil {A} (n : N) (l : list A) :
  n <> 0%N -> Os.take n l = [] -> l = [].
Proof.
  intros Hn. destruct l as [|x l]; [reflexivity|]. simpl.
  destruct (N.eqb_spec n 0); [contradiction|discriminate].
Qed.

Lemma take_skipn {A} (n : N) (l : list A) :
  Os.take n l ++ skipn (length (Os.take n l)) l = l.
Proof.
  rewrite take_firstn.
  rewrite length_firstn.
  destruct (Nat.le_ge_cases (N.to_nat n) (length l)) as [H|H].
  - rewrite Nat.min_l by exact H. apply firstn_skipn.
  - rewrite Nat.min_r by exact H.
    rewrite firstn_all2 by exact H. rewrite skipn_all. apply app_nil_r.
Qed.

Lemma read_returns h size w buf h' w' :
  Os.read h size w = (Returns (buf, h'), w') ->
  -1 <= size /\ w' = tick w /\
  buf = (if size =? -1 then Os.unread w h
         else Os.take (Z.to_N size) (Os.unread w h)) /\
  h' = Os.Handle (Os.h_path h) (Os.h_pos h + length buf).
Proof.
  unfold Os.read. destruct (Z.ltb_spec size (-1)) as [Hlt|Hge];
    [discriminate|].
  run_io. case_deny; [discriminate|].
  intros H. inversion H; subst. auto.
Qed.

Lemma write_returns h buf w w' :
  Os.write h buf w = (Returns tt, w') ->
  exists data atime mtime n',
    FS.lookup (fs w) (Os.h_path h) = Some (File data atime mtime) /\
    FS.put (fs w) (Os.h_path h) (File (data ++ buf) atime (now (tick w)))
    = Some n' /\
    w' = with_fs (tick w) n'.
Proof.
  unfold Os.write. run_io. case_deny; [discriminate|].
  rewrite fs_tick.
  destruct (FS.lookup (fs w) (Os.h_path h)) as [[data atime mtime| | |]|];
    try discriminate.
  case_put; [|discriminate].
  intros H. inversion H; subst. eauto 8.
Qed.

Lemma open_rb_returns path w h w' :
  Os.open_rb path w = (Returns h, w') ->
  exists p data atime mtime,
    Os.resolve path = Some p /\ h = Os.Handle p 0 /\ w' = tick w /\
    FS.lookup (fs w) p = Some (File data atime mtime).
Proof.
  unfold Os.open_rb. destruct (Os.resolve path) as [p|]; [|discriminate].
  run_io. case_deny; [discriminate|]. rewrite fs_tick.
  destruct (FS.lookup (fs w) p) as [[data atime mtime| | |]|] eqn:E;
    try discriminate.
  intros H. inversion H; subst. eauto 8.
Qed.

Lemma open_wb_returns path w h w' :
  Os.open_wb path w = (Returns h, w') ->
  exists p atime n',
    Os.resolve path = Some p /\ h = Os.Handle p 0 /\
    free_or_file (fs w) p /\
    FS.put (fs w) p (File [] atime (now (tick w))) = Some n' /\
    w' = with_fs (tick w) n'.
Proof.
  unfold Os.open_wb, free_or_file.
  destruct (Os.resolve path) as [p|]; [|discriminate].
  run_io. case_deny; [discriminate|]. rewrite fs_tick.
  destruct (FS.lookup (fs w) p) as [[data atime mtime| | |]|] eqn:E;
    try discriminate.
  - case_put; [|discriminate].
    intros H. inversion H; subst. exists p, atime, n'. rewrite E. auto.
  - destruct (FS.lookup (fs w) (FS.parent p)) as [[| es | |]|];
      try discriminate.
    case_put; [|discriminate].
    intros H. inversion H; subst. exists p, (now (tick w)), n'.
    rewrite E. auto.
Qed.

Lemma file_at_written n p data atime mtime n' :
  FS.put n p (File data atime mtime) = Some n' ->
  file_at n' p = Some (data, atime, mtime).
Proof. intros H. unfold file_at. now rewrite (lookup_put_same _ _ _ _ H). Qed.

Lemma file_data_file_at n p :
  Os.file_data n p =
  match file_at n p with Some f => fst (fst f) | None => [] end.
Proof.
  unfold Os.file_data, file_at.
  destruct (FS.lookup n p) as [[| | |]|]; reflexivity.
Qed.

Lemma free_or_file_of_file n p data atime mtime :
  FS.lookup n p = Some (File data atime mtime) -> free_or_file n p.
Proof. unfold free_or_file. now intros ->. Qed.

(** ** The read/write loop *)

Lemma unread_after_write st st' r wh n' k data atime mtime :
  Os.h_path r <> Os.h_path wh ->
  free_or_file (fs st) (Os.h_path wh) ->
  FS.put (fs st) (Os.h_path wh) (File data atime mtime) = Some n' ->
  fs st' = n' ->
  Os.unread st' (Os.Handle (Os.h_path r) (Os.h_pos r + k))
  = skipn k (Os.unread st r).
Proof.
  intros Hne Hfree Hput Hfs. unfold Os.unread. cbn [Os.h_path Os.h_pos].
  rewrite Hfs, !file_data_file_at.
  rewrite (file_at_put_other _ _ _ _ (Os.h_path r) Hput I Hfree Hne).
  rewrite skipn_skipn. f_equal. lia.
Qed.

(** The loop does not run out of fuel when it starts with more fuel than
    unread bytes, on two distinct files or at the end of its input. *)
Lemma pump_fuel_enough fuel r wh size st :
  Os.h_path r <> Os.h_path wh \/ Os.unread st r = [] ->
  (length (Os.unread st r) < fuel)%nat ->
  exists res, pump_fuel fuel r wh size st = Some res.
Proof.
  revert r st. induction fuel as [|fuel IH]; intros r st Hstart Hfuel;
    [lia|].
  simpl. destruct (Os.read r size st) as [[[buf r']|e] st1] eqn:Hr; [|eauto].
  apply read_returns in Hr as (Hsize & -> & Hbuf & ->).
  destruct buf as [|b buf]; [eauto|].
  destruct (Os.write wh (b :: buf) (tick st)) as [[[]|e] st2] eqn:Hw; [|eauto].
  apply write_returns in Hw as (data & atime & mtime & n' & Hl & Hput & ->).
  rewrite fs_tick in Hl, Hput.
  destruct Hstart as [Hne|Hend].
  2:{ rewrite Hend in Hbuf. destruct (size =? -1); discriminate. }
  apply IH.
  - left. exact Hne.
  - rewrite (unread_after_write st (with_fs (tick (tick st)) n') r wh n'
               _ _ _ _ Hne (free_or_file_of_file _ _ _ _ _ Hl) Hput eq_refl).
    rewrite length_skipn.
    assert (length (Os.unread st r) <> 0)%nat.
    { intros H0. apply length_zero_iff_nil in H0. rewrite H0 in Hbuf.
      destruct (size =? -1); discriminate. }
    simpl. lia.
Qed.

(** What a loop that returned has written, for a chunk size other than 0
    and two distinct files: all that was unread, after what was there. *)
Lemma pump_fuel_returns fuel r wh size st st' data atime mtime :
  Os.h_path r <> Os.h_path wh -> size <> 0 ->
  file_at (fs st) (Os.h_path wh) = Some (data, atime, mtime) ->
  pump_fuel fuel r wh size st = Some (Returns tt, st') ->
  (exists atime' mtime',
      file_at (fs st') (Os.h_path wh)
      = Some (data ++ Os.unread st r, atime', mtime')) /\
  (forall q, q <> Os.h_path wh -> file_at (fs st') q = file_at (fs st) q).
Proof.
  intros Hne Hsize. revert r st data atime mtime Hne.
  induction fuel as [|fuel IH]; intros r st data atime mtime Hne Hat H;
    [discriminate|].
  simpl in H.
  destruct (Os.read r size st) as [[[buf r']|e] st1] eqn:Hr; [|discriminate].
  apply read_returns in Hr as (Hsz & -> & Hbuf & ->).
  destruct buf as [|b buf].
  - inversion H; subst st'; clear H. rewrite fs_tick.
    assert (Hend : Os.unread st r = []).
    { destruct (Z.eqb_spec size (-1)); [congruence|].
      symmetry in Hbuf. apply take_nil in Hbuf; [exact Hbuf|lia]. }
    rewrite Hend, app_nil_r. eauto.
  - destruct (Os.write wh (b :: buf) (tick st)) as [[[]|e] st2] eqn:Hw;
      [|discriminate].
    apply write_returns in Hw as (data0 & atime0 & mtime0 & n' & Hl & Hput & ->).
    rewrite fs_tick in Hl, Hput.
    pose proof (free_or_file_of_file _ _ _ _ _ Hl) as Hfree.
    assert (data0 = data /\ atime0 = atime) as [-> ->].
    { unfold file_at in Hat. rewrite Hl in Hat. now inversion Hat. }
    apply (IH _ _ (data ++ b :: buf) atime (now (tick (tick st)))) in H;
      [|exact Hne|exact (file_at_written _ _ _ _ _ _ Hput)].
    destruct H as [(atime' & mtime' & Hdata) Hothers].
    cbn [Os.h_path] in Hdata, Hothers. rewrite fs_with_fs in Hothers.
    split.
    + exists atime', mtime'. rewrite Hdata.
      rewrite (unread_after_write st (with_fs (tick (tick st)) n') r wh n'
                 _ _ _ _ Hne Hfree Hput eq_refl).
      rewrite <- app_assoc. do 4 f_equal.
      destruct (size =? -1) in Hbuf.
      * rewrite <- Hbuf. now rewrite skipn_all, app_nil_r.
      * rewrite Hbuf. apply take_skipn.
    + intros q Hq. rewrite (Hothers q Hq).
      exact (file_at_put_other _ _ _ _ q Hput I Hfree Hq).
Qed.

(** A loop with chunk size 0, or at the end of its input, writes nothing. *)
Lemma pump_fuel_nothing fuel r wh size st st' :
  size = 0 \/ Os.unread st r = [] ->
  pump_fuel fuel r wh size st = Some (Returns tt, st') ->
  st' = tick st.
Proof.
  intros Hcase H. destruct fuel as [|fuel]; [discriminate|]. simpl in H.
  destruct (Os.read r size st) as [[[buf r']|e] st1] eqn:Hr; [|discriminate].
  apply read_returns in Hr as (Hsz & -> & Hbuf & ->).
  assert (buf = []) as ->.
  { destruct Hcase as [->|Hend].
    - simpl in Hbuf. rewrite Hbuf. destruct (Os.unread st r); reflexivity.
    - rewrite Hend in Hbuf. destruct (size =? -1); exact Hbuf. }
  now inversion H.
Qed.

Lemma pump_returns r wh size st st' data atime mtime :
  Os.h_path r <> Os.h_path wh -> size <> 0 ->
  file_at (fs st) (Os.h_path wh) = Some (data, atime, mtime) ->
  pump r wh size st = (Returns tt, st') ->
  (exists atime' mtime',
      file_at (fs st') (Os.h_path wh)
      = Some (data ++ Os.unread st r, atime', mtime')) /\
  (forall q, q <> Os.h_path wh -> file_at (fs st') q = file_at (fs st) q).
Proof.
  intros Hne Hsize Hat. unfold pump.
  destruct (pump_fuel _ r wh size st) as [res|] eqn:E; [|discriminate].
  intros ->. exact (pump_fuel_returns _ _ _ _ _ _ _ _ _ Hne Hsize Hat E).
Qed.

Lemma pump_nothing r wh size st st' :
  size = 0 \/ Os.unread st r = [] ->
  pump r wh size st = (Returns tt, st') ->
  st' = tick st.
Proof.
  intros Hcase. unfold pump.
  destruct (pump_fuel _ r wh size st) as [res|] eqn:E; [|discriminate].
  intros ->. exact (pump_fuel_nothing _ _ _ _ _ _ Hcase E).
Qed.

(** ** One transfer: open both files, run the loop *)

Lemma content_file_at w path p :
  Os.resolve path = Some p ->
  content w path = option_map (fun f => fst (fst f)) (file_at (fs w) p).
Proof. unfold content, bytes_at. now intros ->. Qed.

Lemma content_same_bytes w w' :
  (forall q, bytes_at (fs w') q = bytes_at (fs w) q) ->
  forall path, content w' path = content w path.
Proof.
  intros H path. unfold content. destruct (Os.resolve path); [apply H|].
  reflexivity.
Qed.

(** A transfer that returned read a regular file and left at the
    destination: all of its bytes, for a chunk size other than 0 and a
    destination that is another file; nothing otherwise (a loop that cannot
    read, or a source emptied by opening the destination).  No other file
    changed. *)
Lemma chunked_transfer_returns src dst size w w' :
  chunked_transfer src dst size w = (Returns tt, w') ->
  exists ps pd data,
    Os.resolve src = Some ps /\ Os.resolve dst = Some pd /\
    content w src = Some data /\
    free_or_file (fs w) pd /\
    content w' dst
    = Some (if (size =? 0) || bool_decide (ps = pd) then [] else data) /\
    (forall q, q <> pd -> file_at (fs w') q = file_at (fs w) q).
Proof.
  unfold chunked_transfer. unfold bind at 1.
  destruct (Os.open_rb src w) as [[r|e] w1] eqn:Hr; [|discriminate].
  apply open_rb_returns in Hr as (ps & data & atime & mtime & Hps & -> & ->
                                  & Hsrc).
  unfold bind at 1.
  destruct (Os.open_wb dst (tick w)) as [[wh|e] w2] eqn:Hw; [|discriminate].
  apply open_wb_returns in Hw as (pd & atime' & n' & Hpd & -> & Hfree & Hput
                                  & ->).
  rewrite fs_tick in Hfree, Hput. intros Hpump.
  exists ps, pd, data. split; [exact Hps|]. split; [exact Hpd|].
  split. { rewrite (content_file_at _ _ _ Hps). unfold file_at.
           now rewrite Hsrc. }
  split; [exact Hfree|].
  rewrite (content_file_at _ _ _ Hpd).
  pose proof (file_at_written _ _ _ _ _ _ Hput) as Hnew.
  pose proof (fun q => file_at_put_other _ _ _ _ q Hput I Hfree) as Hkeep.
  destruct ((size =? 0) || bool_decide (ps = pd)) eqn:Hcase.
  - apply pump_nothing in Hpump.
    + subst w'. rewrite fs_tick, fs_with_fs, Hnew. split; [reflexivity|].
      exact Hkeep.
    + apply orb_true_iff in Hcase as [H0|Heq].
      * left. now apply Z.eqb_eq.
      * right. apply bool_decide_eq_true in Heq. subst pd.
        unfold Os.unread. cbn [Os.h_path Os.h_pos].
        rewrite fs_with_fs, file_data_file_at, Hnew. reflexivity.
  - apply orb_false_iff in Hcase as [H0 Hne].
    apply Z.eqb_neq in H0. apply bool_decide_eq_false in Hne.
    apply (pump_returns _ _ _ _ _ [] atime' (now (tick (tick w)))) in Hpump;
      [|exact Hne|exact H0|exact Hnew].
    destruct Hpump as [(a2 & m2 & Hdata) Hothers].
    cbn [Os.h_path] in Hdata, Hothers. rewrite fs_with_fs in Hothers.
    split.
    + rewrite Hdata. simpl. f_equal.
      unfold Os.unread. cbn [Os.h_path Os.h_pos].
      rewrite fs_with_fs, file_data_file_at, (Hkeep ps Hne).
      unfold file_at. now rewrite Hsrc.
    + intros q Hq. rewrite (Hothers q Hq). apply Hkeep, Hq.
Qed.

(** The loop started by a transfer never runs out of fuel. *)
Lemma chunked_transfer_loop_ends src dst size w r w1 wh w2 :
  Os.open_rb src w = (Returns r, w1) ->
  Os.open_wb dst w1 = (Returns wh, w2) ->
  exists res,
    pump_fuel (S (length (Os.unread w2 r))) r wh size w2 = Some res.
Proof.
  intros Hr Hw.
  apply open_rb_returns in Hr as (ps & data & atime & mtime & Hps & -> & ->
                                  & Hsrc).
  apply open_wb_returns in Hw as (pd & atime' & n' & Hpd & -> & Hfree & Hput
                                  & ->).
  apply pump_fuel_enough; [|lia].
  destruct (decide (ps = pd)) as [->|Hne]; [right|left; exact Hne].
  unfold Os.unread. cbn [Os.h_path Os.h_pos].
  rewrite fs_with_fs, file_data_file_at,
    (file_at_written _ _ _ _ _ _ Hput). reflexivity.
Qed.

(** ** Timestamps and directories leave the bytes alone *)

Lemma stat_keeps_tree path w r w' :
  Os.stat path w = (r, w') -> fs w' = fs w.
Proof.
  unfold Os.stat. destruct (Os.resolve path) as [p|].
  - run_io. case_deny.
    + intros H; inversion H; reflexivity.
    + rewrite fs_tick.
      destruct (FS.lookup (fs w) p) as [[| | |]|];
        intros H; inversion H; reflexivity.
  - intros H; inversion H; reflexivity.
Qed.

Lemma utime_keeps_bytes path times w r w' :
  Os.utime path times w = (r, w') ->
  forall q, bytes_at (fs w') q = bytes_at (fs w) q.
Proof.
  unfold Os.utime. destruct (Os.resolve path) as [p|].
  - run_io. case_deny.
    + intros H; inversion H; reflexivity.
    + rewrite fs_tick.
      destruct (FS.lookup (fs w) p) as [[data atime mtime| | |]|] eqn:E;
        try (intros H; inversion H; reflexivity).
      case_put; intros H; inversion H; subst; try reflexivity.
      intros q. rewrite fs_with_fs. unfold bytes_at.
      destruct (decide (q = p)) as [->|Hq].
      * rewrite (file_at_written _ _ _ _ _ _ Hput). unfold file_at.
        now rewrite E.
      * now rewrite (file_at_put_other _ _ _ _ q Hput I
                       (free_or_file_of_file _ _ _ _ _ E) Hq).
  - intros H; inversion H; reflexivity.
Qed.

Lemma copystat_keeps_bytes src dst w r w' :
  Shutil.copystat src dst w = (r, w') ->
  forall q, bytes_at (fs w') q = bytes_at (fs w) q.
Proof.
  unfold Shutil.copystat, bind.
  destruct (Os.stat src w) as [[st|e] w1] eqn:Hs.
  - intros Hu q. rewrite (utime_keeps_bytes _ _ _ _ _ Hu q).
    now rewrite (stat_keeps_tree _ _ _ _ Hs).
  - intros H q. inversion H; subst. now rewrite (stat_keeps_tree _ _ _ _ Hs).
Qed.

(** Lines 61 to 65 never raise, and leave every file's bytes as they are. *)
Lemma preserve_timestamps_returns src dst w :
  exists w',
    preserve_timestamps src dst w = (Returns tt, w') /\
    forall q, bytes_at (fs w') q = bytes_at (fs w) q.
Proof.
  unfold preserve_timestamps, try_except.
  fold (Shutil.copystat src dst).
  destruct (Shutil.copystat src dst w) as [[[]|e] w1] eqn:H.
  - exists w1. split; [reflexivity|]. exact (copystat_keeps_bytes _ _ _ _ _ H).
  - exists w1. split; [reflexivity|]. exact (copystat_keeps_bytes _ _ _ _ _ H).
Qed.

Lemma mkdir_at_keeps_files p w r w' :
  Os.mkdir_at p w = (r, w') ->
  forall q, file_at (fs w') q = file_at (fs w) q.
Proof.
  unfold Os.mkdir_at. run_io. case_deny.
  - intros H; inversion H; reflexivity.
  - rewrite fs_tick.
    destruct (FS.lookup (fs w) p) as [x|] eqn:E;
      [intros H; inversion H; reflexivity|].
    destruct (FS.lookup (fs w) (FS.parent p)) as [[| es | |]|];
      try (intros H; inversion H; reflexivity).
    case_put; intros H; inversion H; subst; try reflexivity.
    intros q. rewrite fs_with_fs.
    assert (Hfree : free_or_file (fs w) p)
      by (unfold free_or_file; now rewrite E).
    destruct (decide (q = p)) as [->|Hq].
    + unfold file_at. now rewrite (lookup_put_same _ _ _ _ Hput), E.
    + exact (file_at_put_other _ _ _ _ q Hput I Hfree Hq).
Qed.

Lemma makedirs_rev_keeps_files rp exist_ok w r w' :
  Os.makedirs_rev rp exist_ok w = (r, w') ->
  forall q, file_at (fs w') q = file_at (fs w) q.
Proof.
  revert w r w'. induction rp as [|tail rhead IH]; intros w r w'.
  - simpl. unfold bind at 1. unfold ret at 1. cbv beta iota.
    unfold try_except_if, try_except.
    destruct (Os.mkdir_at _ w) as [[[]|e] w1] eqn:Hm.
    + intros H; inversion H; subst. exact (mkdir_at_keeps_files _ _ _ _ Hm).
    + pose proof (mkdir_at_keeps_files _ _ _ _ Hm) as Hk.
      destruct (is_OSError e); unfold bind, Os.isdir_at, raise, ret;
        cbv beta iota;
        try destruct (negb exist_ok || _);
        intros H; inversion H; subst; exact Hk.
  - cbn [Os.makedirs_rev]. unfold bind at 1.
    set (head := match rhead with
                 | [] => ret tt
                 | _ :: _ => _
                 end).
    assert (Hhead : forall r1 w1, head w = (r1, w1) ->
                      forall q, file_at (fs w1) q = file_at (fs w) q).
    { subst head. destruct rhead as [|c rh].
      - intros r1 w1 H; inversion H; reflexivity.
      - intros r1 w1. unfold bind, Os.exists_at. cbv beta iota.
        destruct (bool_decide _).
        + intros H; inversion H; reflexivity.
        + unfold try_except_if, try_except.
          destruct (Os.makedirs_rev (c :: rh) exist_ok w) as [[[]|e] w2]
            eqn:Hrec.
          * intros H; inversion H; subst. exact (IH _ _ _ Hrec).
          * pose proof (IH _ _ _ Hrec) as Hk.
            destruct (is_FileExistsError e); unfold ret, raise;
              intros H; inversion H; subst; exact Hk. }
    destruct (head w) as [[[]|e] w1] eqn:Hh.
    + specialize (Hhead _ _ eq_refl).
      unfold try_except_if, try_except.
      destruct (Os.mkdir_at _ w1) as [[[]|e] w2] eqn:Hm.
      * intros H; inversion H; subst. intros q.
        now rewrite (mkdir_at_keeps_files _ _ _ _ Hm q).
      * pose proof (mkdir_at_keeps_files _ _ _ _ Hm) as Hk.
        destruct (is_OSError e); unfold bind, Os.isdir_at, raise, ret;
          cbv beta iota;
          try destruct (negb exist_ok || _);
          intros H; inversion H; subst; intros q; now rewrite Hk.
    + intros H; inversion H; subst. exact (Hhead _ _ eq_refl).
Qed.

Lemma ensure_parent_dir_keeps_files path w r w' :
  ensure_parent_dir path w = (r, w') ->
  forall q, file_at (fs w') q = file_at (fs w) q.
Proof.
  unfold ensure_parent_dir.
  destruct (Str.is_empty (OsPath.dirname path));
    [intros H; inversion H; reflexivity|].
  unfold bind, Os.path_exists. cbv beta iota.
  destruct (negb _); [|intros H; inversion H; reflexivity].
  unfold Os.makedirs. destruct (Os.resolve _) as [p|].
  - apply makedirs_rev_keeps_files.
  - intros H; inversion H; reflexivity.
Qed.

(** ** [copy_file] *)

Lemma bytes_at_same_files n n' :
  (forall q, file_at n' q = file_at n q) ->
  forall q, bytes_at n' q = bytes_at n q.
Proof. intros H q. unfold bytes_at. now rewrite H. Qed.

(** [copy_file] in chunked mode is the transfer followed by the
    timestamps, which cannot fail it. *)
Lemma copy_file_chunked_inv src dst size w w' :
  copy_file src dst true size w = (Returns tt, w') ->
  exists w0 w1,
    ensure_parent_dir dst w = (Returns tt, w0) /\
    chunked_transfer src dst size w0 = (Returns tt, w1) /\
    preserve_timestamps src dst w1 = (Returns tt, w').
Proof.
  unfold copy_file. unfold bind at 1.
  destruct (ensure_parent_dir dst w) as [[[]|e] w0] eqn:He; [|discriminate].
  cbn [negb]. unfold bind at 1.
  destruct (chunked_transfer src dst size w0) as [[[]|e] w1] eqn:Ht;
    [|discriminate].
  intros Hp. eauto.
Qed.

(** What a chunked copy that returned left behind. *)
Lemma copy_file_chunked_returns src dst size w w' :
  copy_file src dst true size w = (Returns tt, w') ->
  exists ps pd data,
    Os.resolve src = Some ps /\ Os.resolve dst = Some pd /\
    content w src = Some data /\
    content w' dst
    = Some (if (size =? 0) || bool_decide (ps = pd) then [] else data) /\
    (forall q, q <> pd -> bytes_at (fs w') q = bytes_at (fs w) q).
Proof.
  intros H. apply copy_file_chunked_inv in H as (w0 & w1 & He & Ht & Hp).
  apply chunked_transfer_returns in Ht
    as (ps & pd & data & Hps & Hpd & Hsrc & _ & Hdst & Hothers).
  destruct (preserve_timestamps_returns src dst w1) as (w2 & Hp' & Hkeep).
  rewrite Hp in Hp'. inversion Hp'; subst w2; clear Hp'.
  pose proof (ensure_parent_dir_keeps_files _ _ _ _ He) as Hk0.
  exists ps, pd, data. split; [exact Hps|]. split; [exact Hpd|].
  split.
  { rewrite <- Hsrc. symmetry.
    apply content_same_bytes, bytes_at_same_files, Hk0. }
  split.
  { rewrite <- Hdst. apply content_same_bytes, Hkeep. }
  intros q Hq. rewrite Hkeep. unfold bytes_at.
  now rewrite (Hothers q Hq), Hk0.
Qed.

Lemma copy2_returns src dst w w' pd :
  Os.resolve dst = Some pd -> free_or_file (fs w) pd ->
  Shutil.copy2 src dst w = (Returns tt, w') ->
  exists ps data,
    Os.resolve src = Some ps /\ ps <> pd /\
    content w src = Some data /\ content w' dst = Some data /\
    (forall q, q <> pd -> bytes_at (fs w') q = bytes_at (fs w) q).
Proof.
  intros Hpd Hfree. unfold Shutil.copy2. unfold bind at 1.
  unfold Os.path_isdir at 1. cbv beta iota.
  assert (Hnd : match Os.node_at w dst with
                | Some n => FS.is_dir n
                | None => false
                end = false).
  { unfold Os.node_at. rewrite Hpd. unfold free_or_file in Hfree.
    destruct (FS.lookup (fs w) pd) as [[| | |]|]; simpl; tauto. }
  rewrite Hnd. unfold bind at 1.
  destruct (Shutil.copyfile src dst w) as [[[]|e] w1] eqn:Hc; [|discriminate].
  intros Hstat. unfold Shutil.copyfile in Hc. unfold bind at 1 in Hc.
  unfold Shutil.samefile at 1 in Hc. cbv beta iota in Hc.
  destruct (match Os.node_at w src with
            | Some _ => _
            | None => false
            end) eqn:Hsame; [discriminate|].
  change (chunked_transfer src dst Shutil.COPY_BUFSIZE w = (Returns tt, w1))
    in Hc.
  apply chunked_transfer_returns in Hc
    as (ps & pd' & data & Hps & Hpd' & Hsrc & _ & Hdst & Hothers).
  rewrite Hpd in Hpd'. inversion Hpd'; subst pd'; clear Hpd'.
  assert (Hne : ps <> pd).
  { intros ->. unfold Os.node_at in Hsame. rewrite Hps, Hpd in Hsame.
    rewrite (content_file_at _ _ _ Hps) in Hsrc. unfold file_at in Hsrc.
    destruct (FS.lookup (fs w) pd); [|discriminate].
    now rewrite bool_decide_eq_true_2 in Hsame. }
  exists ps, data. split; [exact Hps|]. split; [exact Hne|].
  split; [exact Hsrc|].
  pose proof (copystat_keeps_bytes _ _ _ _ _ Hstat) as Hkeep.
  split.
  - rewrite (content_same_bytes _ _ Hkeep), Hdst.
    rewrite bool_decide_eq_false_2 by exact Hne. reflexivity.
  - intros q Hq. rewrite Hkeep. unfold bytes_at. now rewrite (Hothers q Hq).
Qed.

(** C3, as stated, fails: the mode changes the result where one of the
    two modes raises.  For a destination that names the source itself the
    chunked copy returns and has emptied the file, while the fast copy
    raises and leaves it as it was; for a destination that is a directory
    the chunked copy raises, while the fast copy returns and has written
    the file into that directory. *)
Lemma copy_modes_differ :
  content example_world "A/a.txt"
  = Some (String.list_byte_of_string "hello") /\
  fst (copy_file "A/a.txt" "A//a.txt" true DEFAULT_CHUNK_SIZE example_world)
  = Returns tt /\
  content (snd (copy_file "A/a.txt" "A//a.txt" true DEFAULT_CHUNK_SIZE
                  example_world)) "A//a.txt"
  = Some [] /\
  fst (copy_file "A/a.txt" "A//a.txt" false DEFAULT_CHUNK_SIZE example_world)
  = Raises (SameFileError "A/a.txt" "A//a.txt") /\
  content (snd (copy_file "A/a.txt" "A//a.txt" false DEFAULT_CHUNK_SIZE
                  example_world)) "A//a.txt"
  = Some (String.list_byte_of_string "hello") /\
  fst (copy_file "A/sub/b.txt" "B" true DEFAULT_CHUNK_SIZE example_world)
  = Raises (IsADirectoryError "B") /\
  content (snd (copy_file "A/sub/b.txt" "B" true DEFAULT_CHUNK_SIZE
                  example_world)) "B/b.txt"
  = None /\
  fst (copy_file "A/sub/b.txt" "B" false DEFAULT_CHUNK_SIZE example_world)
  = Returns tt /\
  content (snd (copy_file "A/sub/b.txt" "B" false DEFAULT_CHUNK_SIZE
                  example_world)) "B/b.txt"
  = Some (String.list_byte_of_string "world!") /\
  ~ (forall w src dst data,
        content w src = Some data ->
        content (snd (copy_file src dst true DEFAULT_CHUNK_SIZE w)) dst
        = content (snd (copy_file src dst false DEFAULT_CHUNK_SIZE w)) dst).
Proof.
  repeat (split; [vm_compute; reflexivity|]).
  intros H.
  specialize (H example_world "A/a.txt" "A//a.txt"
                (String.list_byte_of_string "hello") eq_refl).
  vm_compute in H. discriminate.
Qed.

(** C3, amended.  Whenever the chunked copy (with any chunk size other
    than 0, the default among them) and the fast copy of the same source
    to the same destination, run from the same state, both return, the
    destination holds the same bytes after either, and these are the bytes
    the source held. *)
Theorem copy_modes_same_content :
  forall (w : world) (src dst : string) (chunk_size : Z) (w1 w2 : world),
    chunk_size <> 0 ->
    copy_file src dst true chunk_size w = (Returns tt, w1) ->
    copy_file src dst false chunk_size w = (Returns tt, w2) ->
    exists data,
      content w src = Some data /\
      content w1 dst = Some data /\
      content w2 dst = Some data.
Proof.
  intros w src dst size w1 w2 Hsize Hchunked Hfast.
  pose proof Hchunked as Hc.
  apply copy_file_chunked_inv in Hc as (w0 & wa & He & Ht & _).
  apply chunked_transfer_returns in Ht
    as (ps & pd & data & Hps & Hpd & Hsrc0 & Hfree & _).
  unfold copy_file in Hfast. unfold bind at 1 in Hfast.
  rewrite He in Hfast. cbn [negb] in Hfast.
  apply (copy2_returns _ _ _ _ pd Hpd Hfree) in Hfast
    as (ps' & data' & Hps' & Hne & Hsrc' & Hdst2 & _).
  rewrite Hps in Hps'. inversion Hps'; subst ps'; clear Hps'.
  rewrite Hsrc0 in Hsrc'. inversion Hsrc'; subst data'; clear Hsrc'.
  apply copy_file_chunked_returns in Hchunked
    as (ps1 & pd1 & data1 & Hps1 & Hpd1 & Hsrc1 & Hdst1 & _).
  rewrite Hps in Hps1. inversion Hps1; subst ps1; clear Hps1.
  rewrite Hpd in Hpd1. inversion Hpd1; subst pd1; clear Hpd1.
  apply Z.eqb_neq in Hsize. rewrite Hsize in Hdst1.
  rewrite bool_decide_eq_false_2 in Hdst1 by exact Hne. simpl in Hdst1.
  exists data1.
  split; [exact Hsrc1|]. split; [exact Hdst1|].
  rewrite Hdst2. f_equal.
  pose proof (ensure_parent_dir_keeps_files _ _ _ _ He) as Hk0.
  rewrite <- (content_same_bytes _ _ (bytes_at_same_files _ _ Hk0) src)
    in Hsrc1.
  congruence.
Qed.

(** ** Runs in a calm world *)

Lemma calm_tick w : calm w -> calm (tick w).
Proof. intros H t c. apply H. Qed.

Lemma calm_with_fs w n : calm w -> calm (with_fs w n).
Proof. intros H t c. apply H. Qed.

Lemma attempt_calm c w : calm w -> attempt c w = (Returns tt, tick w).
Proof. intros H. unfold attempt. now rewrite H. Qed.

Lemma parent_snoc (par : list string) c : FS.parent (par ++ [c]) = par.
Proof. apply removelast_last. Qed.

Lemma mkdir_at_calm par c w es :
  calm w ->
  FS.lookup (fs w) par = Some (Dir es) -> FS.assoc c es = None ->
  exists w',
    Os.mkdir_at (par ++ [c]) w = (Returns tt, w') /\ calm w' /\
    FS.lookup (fs w') (par ++ [c]) = Some (Dir []).
Proof.
  intros Hcalm Hpar Hc.
  destruct (put_child (fs w) par c (Dir []) es Hpar) as [n' Hput].
  exists (with_fs (tick w) n').
  split; [|split; [apply calm_with_fs, calm_tick, Hcalm|
                   exact (lookup_put_same _ _ _ _ Hput)]].
  unfold Os.mkdir_at. unfold bind at 1. rewrite (attempt_calm _ _ Hcalm).
  run_io. rewrite fs_tick, lookup_app, Hpar.
  change (FS.lookup (Dir es) [c]) with
    (match FS.assoc c es with Some m => Some m | None => None end).
  rewrite Hc, parent_snoc, Hpar. cbv beta. rewrite fs_tick, Hput.
  reflexivity.
Qed.

Lemma makedirs_tail (p : list string) exist_ok w0 w1 :
  Os.mkdir_at p w0 = (Returns tt, w1) ->
  try_except_if is_OSError (Os.mkdir_at p)
    (fun e =>
       isdir <- Os.isdir_at p ;;
       if negb exist_ok || negb isdir then raise e else ret tt) w0
  = (Returns tt, w1).
Proof. intros H. unfold try_except_if, try_except. now rewrite H. Qed.

(** In a calm world [os.makedirs] creates every path that is creatable. *)
Lemma makedirs_rev_calm (par : list string) :
  forall w,
    calm w -> creatable (fs w) par = true ->
    exists w',
      Os.makedirs_rev (rev par) true w = (Returns tt, w') /\ calm w' /\
      FS.lookup (fs w') par = Some (Dir []).
Proof.
  induction par as [|c par IH] using rev_ind; intros w Hcalm Hcre;
    [discriminate|].
  rewrite rev_app_distr. cbn [rev app Os.makedirs_rev].
  assert (Hleaf : rev (rev par) ++ [c] = par ++ [c])
    by now rewrite rev_involutive.
  apply creatable_snoc in Hcre as [Hcre|(es & Hpar & Hc)].
  - destruct (IH w Hcalm Hcre) as (w1 & Hrun & Hcalm1 & Hdir).
    destruct (mkdir_at_calm par c w1 [] Hcalm1 Hdir eq_refl)
      as (w2 & Hmk & Hcalm2 & Hnew).
    exists w2. split; [|auto].
    destruct (rev par) as [|t rh] eqn:Erev.
    { apply (f_equal (@rev string)) in Erev. rewrite rev_involutive in Erev.
      subst par. discriminate. }
    rewrite <- Erev in *. unfold bind at 1. unfold bind at 1.
    unfold Os.exists_at at 1. cbv beta iota.
    rewrite rev_involutive, (creatable_absent _ _ Hcre).
    rewrite bool_decide_eq_false_2 by (intros [x Hx]; discriminate).
    unfold try_except_if at 1, try_except at 1. rewrite Hrun.
    exact (makedirs_tail _ true w1 w2 Hmk).
  - destruct (mkdir_at_calm par c w es Hcalm Hpar Hc)
      as (w2 & Hmk & Hcalm2 & Hnew).
    exists w2. split; [|auto].
    rewrite <- Hleaf in Hmk.
    destruct (rev par) as [|t rh] eqn:Erev.
    + unfold bind at 1. unfold ret at 1. cbv beta iota.
      exact (makedirs_tail _ true w w2 Hmk).
    + rewrite <- Erev in *. unfold bind at 1. unfold bind at 1.
      unfold Os.exists_at at 1. cbv beta iota.
      rewrite rev_involutive, Hpar.
      rewrite bool_decide_eq_true_2 by eauto.
      unfold ret at 1. cbv beta iota.
      rewrite rev_involutive in Hmk.
      exact (makedirs_tail _ true w w2 Hmk).
Qed.

(** ** Path strings: the parent of a path *)

Lemma str_app_cons d (a b : string) : String d a +:+ b = String d (a +:+ b).
Proof. reflexivity. Qed.

Lemma str_app_nil_l (b : string) : "" +:+ b = b.
Proof. reflexivity. Qed.

Lemma str_app_nil_r (a : string) : a +:+ "" = a.
Proof. induction a as [|d a IH]; [reflexivity|]. now rewrite str_app_cons, IH. Qed.

Lemma str_app_assoc (a b c : string) : (a +:+ b) +:+ c = a +:+ (b +:+ c).
Proof.
  induction a as [|d a IH]; [reflexivity|]. now rewrite !str_app_cons, IH.
Qed.

Lemma split_not_nil c s : Str.split c s <> [].
Proof.
  destruct s as [|d s]; simpl; [discriminate|].
  destruct (Ascii.eqb d c); [discriminate|].
  destruct (Str.split c s); discriminate.
Qed.

Lemma split_app c (a t : string) :
  Str.split c (a +:+ String c t) = Str.split c a ++ Str.split c t.
Proof.
  induction a as [|d a IH].
  - rewrite str_app_nil_l. simpl. now rewrite Ascii.eqb_refl.
  - rewrite str_app_cons. simpl. rewrite IH.
    destruct (Ascii.eqb d c); [reflexivity|].
    pose proof (split_not_nil c a) as Hne.
    destruct (Str.split c a) as [|x xs]; [contradiction|reflexivity].
Qed.

Lemma split_free c (t : string) :
  Str.contains c t = false -> Str.split c t = [t].
Proof.
  induction t as [|d t IH]; simpl; [reflexivity|].
  intros H. apply orb_false_iff in H as [Hd Ht].
  rewrite Hd, (IH Ht). reflexivity.
Qed.

Lemma components_app_sep (a t : string) :
  OsPath.components (a +:+ String OsPath.sep t)
  = OsPath.components a ++ OsPath.components t.
Proof. unfold OsPath.components. now rewrite split_app, List.filter_app. Qed.

Lemma components_seps k : OsPath.components (seps k) = [].
Proof.
  induction k as [|k IH]; [reflexivity|].
  change (seps (S k)) with ("" +:+ String OsPath.sep (seps k)).
  now rewrite components_app_sep, IH.
Qed.

Lemma components_app_seps (a : string) k :
  OsPath.components (a +:+ seps k) = OsPath.components a.
Proof.
  destruct k as [|k]; simpl.
  - now rewrite str_app_nil_r.
  - now rewrite components_app_sep, components_seps, app_nil_r.
Qed.

Lemma rstrip_seps (s : string) :
  exists k, s = Str.rstrip OsPath.sep s +:+ seps k.
Proof.
  induction s as [|d s [k IH]]; [exists 0%nat; reflexivity|].
  simpl. destruct (Str.rstrip OsPath.sep s) as [|e r] eqn:E.
  - rewrite str_app_nil_l in IH.
    destruct (Ascii.eqb_spec d OsPath.sep) as [->|Hd].
    + exists (S k). simpl. now rewrite <- IH.
    + exists k. rewrite str_app_cons, str_app_nil_l. now rewrite <- IH.
  - exists k. rewrite str_app_cons. now rewrite <- IH.
Qed.

Lemma rsplit_spec c (s : string) :
  let (h, t) := Str.rsplit c s in
  Str.contains c t = false /\
  ((h = "" /\ s = t) \/ exists h0, h = h0 +:+ String c "" /\
                                   s = h0 +:+ String c t).
Proof.
  induction s as [|d s IH]; simpl.
  - split; [reflexivity|]. left. auto.
  - destruct (Str.rsplit c s) as [h t]. destruct IH as [Ht Hs].
    destruct h as [|e h]; simpl.
    + destruct Hs as [[_ ->]|(h0 & Hh & _)].
      2:{ destruct h0; discriminate. }
      destruct (Ascii.eqb_spec d c) as [->|Hd].
      * split; [exact Ht|]. right. exists "". auto.
      * split.
        -- simpl. rewrite Ht, orb_false_r. now apply Ascii.eqb_neq.
        -- left. auto.
    + split; [exact Ht|]. right.
      destruct Hs as [[Hh _]|(h0 & Hh & Hs)]; [discriminate|].
      exists (String d h0). rewrite !str_app_cons, <- Hh, <- Hs. auto.
Qed.

(** The names of a path are the names of its [dirname] followed by its
    [basename], unless the [basename] is empty (a path that ends in a
    slash). *)
Lemma components_dirname (path : string) :
  OsPath.basename path <> "" ->
  OsPath.components path
  = OsPath.components (OsPath.dirname path) ++ [OsPath.basename path].
Proof.
  unfold OsPath.basename, OsPath.dirname, OsPath.split.
  pose proof (rsplit_spec OsPath.sep path) as H.
  destruct (Str.rsplit OsPath.sep path) as [h t]. cbn [fst snd].
  destruct H as [Ht Hs]. intros Hne.
  assert (Hct : OsPath.components t = [t]).
  { unfold OsPath.components. rewrite (split_free _ _ Ht). simpl.
    destruct t; [contradiction|reflexivity]. }
  assert (Hhead : OsPath.components
                    (match Str.rstrip OsPath.sep h with
                     | "" => h
                     | String _ _ as stripped => stripped
                     end) = OsPath.components h).
  { destruct (rstrip_seps h) as [k Hk].
    destruct (Str.rstrip OsPath.sep h) as [|e r] eqn:E; [reflexivity|].
    rewrite Hk. now rewrite components_app_seps. }
  rewrite Hhead.
  destruct Hs as [[-> ->]|(h0 & -> & ->)].
  - now rewrite Hct.
  - rewrite !components_app_sep, Hct.
    change (OsPath.components "") with (@nil string).
    now rewrite app_nil_r.
Qed.

(** ** A copy in a calm world *)

Lemma read_calm h size w :
  calm w -> -1 <= size ->
  Os.read h size w
  = (Returns (if size =? -1 then Os.unread w h
              else Os.take (Z.to_N size) (Os.unread w h),
              Os.Handle (Os.h_path h)
                (Os.h_pos h
                 + length (if size =? -1 then Os.unread w h
                           else Os.take (Z.to_N size) (Os.unread w h)))),
     tick w).
Proof.
  intros Hcalm Hsize. unfold Os.read.
  destruct (Z.ltb_spec size (-1)) as [Hlt|_]; [lia|].
  unfold bind. rewrite (attempt_calm _ _ Hcalm). reflexivity.
Qed.

Lemma write_calm h buf w data atime mtime :
  calm w ->
  file_at (fs w) (Os.h_path h) = Some (data, atime, mtime) ->
  exists n',
    FS.put (fs w) (Os.h_path h) (File (data ++ buf) atime (now (tick w)))
    = Some n' /\
    Os.write h buf w = (Returns tt, with_fs (tick w) n').
Proof.
  intros Hcalm Hat. unfold file_at in Hat.
  destruct (FS.lookup (fs w) (Os.h_path h)) as [[d a m| | |]|] eqn:E;
    try discriminate.
  inversion Hat; subst d a m; clear Hat.
  destruct (put_existing (fs w) (Os.h_path h)
              (File (data ++ buf) atime (now (tick w))) _ E) as [n' Hput].
  exists n'. split; [exact Hput|].
  unfold Os.write. unfold bind at 1. rewrite (attempt_calm _ _ Hcalm).
  run_io. rewrite !fs_tick, E. cbv beta. rewrite fs_tick, Hput. reflexivity.
Qed.

(** In a calm world the loop returns, given more fuel than unread bytes. *)
Lemma pump_fuel_calm fuel wh size :
  forall r st data atime mtime,
    calm st -> Os.h_path r <> Os.h_path wh ->
    file_at (fs st) (Os.h_path wh) = Some (data, atime, mtime) ->
    -1 <= size ->
    (length (Os.unread st r) < fuel)%nat ->
    exists st',
      pump_fuel fuel r wh size st = Some (Returns tt, st') /\ calm st'.
Proof.
  induction fuel as [|fuel IH];
    intros r st data atime mtime Hcalm Hne Hat Hsize Hfuel; [lia|].
  simpl. rewrite (read_calm _ _ _ Hcalm Hsize).
  destruct (if size =? -1 then Os.unread st r
            else Os.take (Z.to_N size) (Os.unread st r))
    as [|b buf] eqn:Hbuf.
  - exists (tick st). split; [reflexivity|apply calm_tick, Hcalm].
  - destruct (write_calm wh (b :: buf) (tick st) data atime mtime
                (calm_tick _ Hcalm) Hat) as (n' & Hput & ->).
    rewrite fs_tick in Hput.
    assert (Hfree : free_or_file (fs st) (Os.h_path wh)).
    { unfold free_or_file. unfold file_at in Hat.
      destruct (FS.lookup (fs st) (Os.h_path wh)) as [[| | |]|];
        try discriminate; exact I. }
    pose proof (unread_after_write st (with_fs (tick (tick st)) n') r wh n'
                  (length (b :: buf)) _ _ _ Hne Hfree Hput eq_refl) as Hun.
    apply (IH _ _ (data ++ b :: buf) atime (now (tick (tick st)))).
    + apply calm_with_fs, calm_tick, calm_tick, Hcalm.
    + exact Hne.
    + exact (file_at_written _ _ _ _ _ _ Hput).
    + exact Hsize.
    + rewrite Hun, length_skipn.
      assert (length (Os.unread st r) <> 0)%nat.
      { intros H0. apply length_zero_iff_nil in H0. rewrite H0 in Hbuf.
        destruct (size =? -1); discriminate. }
      simpl. lia.
Qed.

Lemma pump_calm r wh size st data atime mtime :
  calm st -> Os.h_path r <> Os.h_path wh ->
  file_at (fs st) (Os.h_path wh) = Some (data, atime, mtime) ->
  -1 <= size ->
  exists st', pump r wh size st = (Returns tt, st') /\ calm st'.
Proof.
  intros Hcalm Hne Hat Hsize. unfold pump.
  destruct (pump_fuel_calm (S (length (Os.unread st r))) wh size r st
              data atime mtime Hcalm Hne Hat Hsize (Nat.lt_succ_diag_r _))
    as (st' & Hrun & Hcalm').
  rewrite Hrun. eauto.
Qed.

Lemma open_rb_calm src w ps data atime mtime :
  calm w -> Os.resolve src = Some ps ->
  file_at (fs w) ps = Some (data, atime, mtime) ->
  Os.open_rb src w = (Returns (Os.Handle ps 0), tick w).
Proof.
  intros Hcalm Hps Hat. unfold file_at in Hat.
  destruct (FS.lookup (fs w) ps) as [[d a m| | |]|] eqn:E; try discriminate.
  unfold Os.open_rb. rewrite Hps. unfold bind at 1.
  rewrite (attempt_calm _ _ Hcalm). run_io. rewrite fs_tick, E. reflexivity.
Qed.

Lemma open_wb_calm dst w par c es :
  calm w -> Os.resolve dst = Some (par ++ [c]) ->
  FS.lookup (fs w) par = Some (Dir es) ->
  free_or_file (fs w) (par ++ [c]) ->
  exists n' atime,
    FS.put (fs w) (par ++ [c]) (File [] atime (now (tick w))) = Some n' /\
    Os.open_wb dst w
    = (Returns (Os.Handle (par ++ [c]) 0), with_fs (tick w) n').
Proof.
  intros Hcalm Hpd Hpar Hfree. unfold Os.open_wb. rewrite Hpd.
  unfold bind at 1. rewrite (attempt_calm _ _ Hcalm). run_io.
  rewrite !fs_tick. unfold free_or_file in Hfree.
  destruct (FS.lookup (fs w) (par ++ [c])) as [[d a m| | |]|] eqn:E;
    try contradiction.
  - destruct (put_existing (fs w) (par ++ [c]) (File [] a (now (tick w))) _ E)
      as [n' Hput].
    exists n', a. split; [exact Hput|].
    cbv beta. rewrite fs_tick, Hput. reflexivity.
  - rewrite parent_snoc, Hpar.
    destruct (put_child (fs w) par c (File [] (now (tick w)) (now (tick w)))
                es Hpar) as [n' Hput].
    exists n', (now (tick w)). split; [exact Hput|].
    cbv beta. rewrite fs_tick, Hput. reflexivity.
Qed.

Lemma chunked_transfer_calm src dst size w ps par c es data atime mtime :
  calm w ->
  Os.resolve src = Some ps -> Os.resolve dst = Some (par ++ [c]) ->
  file_at (fs w) ps = Some (data, atime, mtime) ->
  ps <> par ++ [c] ->
  FS.lookup (fs w) par = Some (Dir es) ->
  free_or_file (fs w) (par ++ [c]) ->
  -1 <= size ->
  exists w', chunked_transfer src dst size w = (Returns tt, w') /\ calm w'.
Proof.
  intros Hcalm Hps Hpd Hat Hne Hpar Hfree Hsize.
  unfold chunked_transfer. unfold bind at 1.
  rewrite (open_rb_calm _ _ _ _ _ _ Hcalm Hps Hat). unfold bind at 1.
  destruct (open_wb_calm dst (tick w) par c es (calm_tick _ Hcalm) Hpd Hpar
              Hfree) as (n' & a' & Hput & ->).
  apply (pump_calm _ _ _ _ [] a' (now (tick (tick w)))).
  - apply calm_with_fs, calm_tick, calm_tick, Hcalm.
  - exact Hne.
  - exact (file_at_written _ _ _ _ _ _ Hput).
  - exact Hsize.
Qed.

Lemma copystat_calm src dst w ps pd fsrc fdst :
  calm w ->
  Os.resolve src = Some ps -> Os.resolve dst = Some pd ->
  file_at (fs w) ps = Some fsrc -> file_at (fs w) pd = Some fdst ->
  exists w', Shutil.copystat src dst w = (Returns tt, w') /\ calm w'.
Proof.
  intros Hcalm Hps Hpd Hs Hd. unfold file_at in Hs, Hd.
  destruct (FS.lookup (fs w) ps) as [[d a m| | |]|] eqn:Es; try discriminate.
  destruct (FS.lookup (fs w) pd) as [[d' a' m'| | |]|] eqn:Ed; try discriminate.
  destruct (put_existing (fs w) pd (File d' a m) _ Ed) as [n' Hput].
  exists (with_fs (tick (tick w)) n').
  split; [|apply calm_with_fs, calm_tick, calm_tick, Hcalm].
  unfold Shutil.copystat. unfold bind at 1. unfold Os.stat. rewrite Hps.
  unfold bind at 1. rewrite (attempt_calm _ _ Hcalm). run_io.
  rewrite fs_tick, Es. unfold Os.utime. rewrite Hpd. unfold bind at 1.
  rewrite (attempt_calm _ _ (calm_tick _ Hcalm)). run_io.
  rewrite !fs_tick, Ed. cbv beta. cbn [fst snd]. rewrite !fs_tick, Hput.
  reflexivity.
Qed.

Lemma lookup_snoc_dir n par c x :
  FS.lookup n (par ++ [c]) = Some x ->
  exists es, FS.lookup n par = Some (Dir es).
Proof.
  rewrite lookup_app. destruct (FS.lookup n par) as [[| es | |]|];
    try discriminate. eauto.
Qed.

(** In a calm world [ensure_parent_dir] returns for every destination a
    copy may write at, and leaves its parent a plain directory. *)
Lemma ensure_parent_dir_calm dst w :
  calm w -> OsPath.basename dst <> "" ->
  target_ok (fs w) (OsPath.components dst) = true ->
  exists w0 es,
    ensure_parent_dir dst w = (Returns tt, w0) /\ calm w0 /\
    FS.lookup (fs w0) (OsPath.components (OsPath.dirname dst))
    = Some (Dir es) /\
    free_or_file (fs w0) (OsPath.components dst).
Proof.
  intros Hcalm Hbase Hok.
  rewrite (components_dirname dst Hbase) in *.
  set (par := OsPath.components (OsPath.dirname dst)) in *.
  set (c := OsPath.basename dst) in *.
  unfold target_ok in Hok. unfold ensure_parent_dir.
  assert (Hsame :
            (exists es, FS.lookup (fs w) par = Some (Dir es)) ->
            exists w0 es,
              (Returns tt, w) = (Returns tt, w0) /\ calm w0 /\
              FS.lookup (fs w0) par = Some (Dir es) /\
              free_or_file (fs w0) (par ++ [c])).
  { intros [es Hes]. exists w, es. repeat split; auto.
    unfold free_or_file.
    destruct (FS.lookup (fs w) (par ++ [c])) as [[| | |]|]; try discriminate;
      exact I. }
  assert (Hpresent :
            is_Some (FS.lookup (fs w) par) ->
            exists es, FS.lookup (fs w) par = Some (Dir es)).
  { intros [x Hx].
    destruct (FS.lookup (fs w) (par ++ [c])) as [y|] eqn:E.
    - exact (lookup_snoc_dir _ _ _ _ E).
    - apply creatable_snoc in Hok as [Hcre|(es & Hes & _)]; [|eauto].
      apply creatable_absent in Hcre. congruence. }
  destruct (Str.is_empty (OsPath.dirname dst)) eqn:Hempty.
  - apply Hsame, Hpresent.
    assert (par = []) as ->; [|simpl; eauto].
    subst par. destruct (OsPath.dirname dst); [reflexivity|discriminate].
  - unfold bind at 1. unfold Os.path_exists at 1. cbv beta iota.
    unfold Os.node_at, Os.resolve. rewrite Hempty. fold par.
    destruct (FS.lookup (fs w) par) as [x|] eqn:Epar.
    + rewrite bool_decide_eq_true_2 by eauto. cbn [negb].
      apply Hsame, Hpresent. eauto.
    + rewrite bool_decide_eq_false_2 by (intros [y Hy]; discriminate).
      cbn [negb]. unfold Os.makedirs, Os.resolve. rewrite Hempty. fold par.
      rewrite lookup_app, Epar in Hok.
      apply creatable_snoc in Hok as [Hcre|(es & Hes & _)]; [|congruence].
      destruct (makedirs_rev_calm par w Hcalm Hcre)
        as (w0 & Hrun & Hcalm0 & Hdir).
      exists w0, []. repeat split; auto.
      unfold free_or_file. rewrite lookup_app, Hdir. simpl. exact I.
Qed.

Lemma content_inv w path data :
  content w path = Some data ->
  exists p atime mtime,
    Os.resolve path = Some p /\ file_at (fs w) p = Some (data, atime, mtime).
Proof.
  unfold content, bytes_at. destruct (Os.resolve path) as [p|]; [|discriminate].
  destruct (file_at (fs w) p) as [[[d a] m]|] eqn:E; [|discriminate].
  simpl. intros H. inversion H; subst. exists p, a, m. auto.
Qed.

Lemma resolve_named path :
  OsPath.basename path <> "" ->
  Os.resolve path = Some (OsPath.components path).
Proof.
  intros H. unfold Os.resolve. destruct path; [|reflexivity].
  exfalso. apply H. reflexivity.
Qed.

Lemma copy2_calm src dst w ps par c es data atime mtime :
  calm w ->
  Os.resolve src = Some ps -> Os.resolve dst = Some (par ++ [c]) ->
  file_at (fs w) ps = Some (data, atime, mtime) ->
  ps <> par ++ [c] ->
  FS.lookup (fs w) par = Some (Dir es) ->
  free_or_file (fs w) (par ++ [c]) ->
  exists w', Shutil.copy2 src dst w = (Returns tt, w').
Proof.
  intros Hcalm Hps Hpd Hat Hne Hpar Hfree.
  destruct (chunked_transfer_calm src dst Shutil.COPY_BUFSIZE w ps par c es
              data atime mtime Hcalm Hps Hpd Hat Hne Hpar Hfree)
    as (w1 & Ht & Hcalm1); [discriminate|].
  pose proof Ht as Ht'.
  apply chunked_transfer_returns in Ht'
    as (ps' & pd' & data' & Hps' & Hpd' & _ & _ & Hdst & Hothers).
  rewrite Hps in Hps'. inversion Hps'; subst ps'; clear Hps'.
  rewrite Hpd in Hpd'. inversion Hpd'; subst pd'; clear Hpd'.
  apply content_inv in Hdst as (pd' & a2 & m2 & Hpd' & Hdst).
  rewrite Hpd in Hpd'. inversion Hpd'; subst pd'; clear Hpd'.
  destruct (copystat_calm src dst w1 ps (par ++ [c]) (data, atime, mtime)
              _ Hcalm1 Hps Hpd (eq_trans (Hothers ps Hne) Hat) Hdst)
    as (w2 & Hstat & _).
  exists w2. unfold Shutil.copy2. unfold bind at 1.
  unfold Os.path_isdir at 1. cbv beta iota.
  assert (Hnd : match Os.node_at w dst with
                | Some n => FS.is_dir n
                | None => false
                end = false).
  { unfold Os.node_at. rewrite Hpd. unfold free_or_file in Hfree.
    destruct (FS.lookup (fs w) (par ++ [c])) as [[| | |]|]; simpl; tauto. }
  rewrite Hnd. unfold bind at 1.
  assert (Hcopy : Shutil.copyfile src dst w = (Returns tt, w1)).
  { unfold Shutil.copyfile. unfold bind at 1.
    unfold Shutil.samefile at 1. cbv beta iota.
    assert (Hsame : match Os.node_at w src with
                    | Some _ =>
                        match Os.node_at w dst with
                        | Some _ =>
                            bool_decide (Os.resolve src = Os.resolve dst)
                        | None => false
                        end
                    | None => false
                    end = false).
    { rewrite Hps, Hpd.
      rewrite bool_decide_eq_false_2 by congruence.
      destruct (Os.node_at w src); [|reflexivity].
      destruct (Os.node_at w dst); reflexivity. }
    rewrite Hsame. exact Ht. }
  rewrite Hcopy. exact Hstat.
Qed.

(** In a calm world a copy of a regular file to another place a copy may
    write at returns, in either mode and for every chunk size that [read]
    accepts, and leaves the bytes of the source at the destination, or no
    bytes for a chunked copy with chunk size 0. *)
Lemma copy_file_calm src dst chunked size w data :
  calm w -> OsPath.basename dst <> "" ->
  content w src = Some data ->
  target_ok (fs w) (OsPath.components dst) = true ->
  Os.resolve src <> Os.resolve dst ->
  -1 <= size ->
  exists w',
    copy_file src dst chunked size w = (Returns tt, w') /\
    content w' dst = Some (if chunked && (size =? 0) then [] else data).
Proof.
  intros Hcalm Hbase Hsrc Hok Hne Hsize.
  pose proof Hsrc as Hsrc'.
  apply content_inv in Hsrc' as (ps & atime & mtime & Hps & Hat).
  pose proof (resolve_named dst Hbase) as Hpd.
  destruct (ensure_parent_dir_calm dst w Hcalm Hbase Hok)
    as (w0 & es & He & Hcalm0 & Hpar & Hfree).
  pose proof (ensure_parent_dir_keeps_files _ _ _ _ He) as Hk0.
  rewrite (components_dirname dst Hbase) in Hpd, Hfree.
  assert (Hne' : ps <> OsPath.components (OsPath.dirname dst)
                       ++ [OsPath.basename dst]) by congruence.
  rewrite <- (Hk0 ps) in Hat.
  destruct chunked.
  - destruct (chunked_transfer_calm src dst size w0 ps _ _ es data atime mtime
                Hcalm0 Hps Hpd Hat Hne' Hpar Hfree Hsize)
      as (w1 & Ht & Hcalm1).
    destruct (preserve_timestamps_returns src dst w1) as (w2 & Hp & _).
    assert (Hrun : copy_file src dst true size w = (Returns tt, w2)).
    { unfold copy_file. unfold bind at 1. rewrite He. cbn [negb].
      unfold bind at 1. rewrite Ht. exact Hp. }
    exists w2. split; [exact Hrun|].
    apply copy_file_chunked_returns in Hrun
      as (ps' & pd' & data' & Hps' & Hpd' & Hsrc' & Hdst & _).
    rewrite Hdst. rewrite Hsrc in Hsrc'. inversion Hsrc'; subst data'.
    rewrite bool_decide_eq_false_2 by congruence.
    now rewrite orb_false_r.
  - destruct (copy2_calm src dst w0 ps _ _ es data atime mtime
                Hcalm0 Hps Hpd Hat Hne' Hpar Hfree) as (w2 & Hc).
    assert (Hrun : copy_file src dst false size w = (Returns tt, w2)).
    { unfold copy_file. unfold bind at 1. rewrite He. exact Hc. }
    exists w2. split; [exact Hrun|].
    apply (copy2_returns _ _ _ _ _ Hpd Hfree) in Hc
      as (ps' & data' & Hps' & _ & Hsrc' & Hdst & _).
    rewrite Hdst. simpl. f_equal.
    rewrite (content_same_bytes _ _ (bytes_at_same_files _ _ Hk0) src)
      in Hsrc'.
    congruence.
Qed.

(** ** [ensure_parent_dir] *)

Lemma ensure_parent_dir_present dst w :
  OsPath.dirname dst = "" \/ is_Some (Os.node_at w (OsPath.dirname dst)) ->
  ensure_parent_dir dst w = (Returns tt, w).
Proof.
  intros H. unfold ensure_parent_dir.
  destruct (Str.is_empty (OsPath.dirname dst)) eqn:E; [reflexivity|].
  destruct H as [H|H]; [rewrite H in E; discriminate|].
  unfold bind, Os.path_exists. cbv beta iota.
  now rewrite bool_decide_eq_true_2 by exact H.
Qed.

Lemma mkdir_at_returns p w w' :
  Os.mkdir_at p w = (Returns tt, w') -> FS.lookup (fs w') p = Some (Dir []).
Proof.
  unfold Os.mkdir_at. run_io. case_deny; [discriminate|]. rewrite fs_tick.
  destruct (FS.lookup (fs w) p); [discriminate|].
  destruct (FS.lookup (fs w) (FS.parent p)) as [[| es | |]|]; try discriminate.
  cbv beta. rewrite fs_tick. case_put; [|discriminate].
  intros H. inversion H; subst. rewrite fs_with_fs.
  exact (lookup_put_same _ _ _ _ Hput).
Qed.

(** When [os.makedirs(name, exist_ok=True)] returns, [name] is a
    directory. *)
Lemma makedirs_rev_returns rp w w' :
  Os.makedirs_rev rp true w = (Returns tt, w') ->
  exists n, FS.lookup (fs w') (rev rp) = Some n /\ FS.is_dir n = true.
Proof.
  assert (Htail : forall p w1,
             try_except_if is_OSError (Os.mkdir_at p)
               (fun e =>
                  isdir <- Os.isdir_at p ;;
                  if negb true || negb isdir then raise e else ret tt) w1
             = (Returns tt, w') ->
             exists n, FS.lookup (fs w') p = Some n /\ FS.is_dir n = true).
  { intros p w1. unfold try_except_if, try_except.
    destruct (Os.mkdir_at p w1) as [[[]|e] w2] eqn:Hm.
    - intros H. inversion H; subst. apply mkdir_at_returns in Hm.
      rewrite Hm. eauto.
    - destruct (is_OSError e); [|discriminate].
      unfold bind, Os.isdir_at. cbv beta iota.
      destruct (FS.lookup (fs w2) p) as [n|] eqn:E; [|discriminate].
      destruct (FS.is_dir n) eqn:Hd; [|discriminate].
      intros H. inversion H; subst. rewrite E. eauto. }
  destruct rp as [|tail rhead]; cbn [Os.makedirs_rev]; unfold bind at 1.
  - unfold ret at 1. cbv beta iota. apply Htail.
  - match goal with
    | |- context [match ?head w with _ => _ end] =>
        destruct (head w) as [[[]|e] w1]
    end; [apply Htail|discriminate].
Qed.

(** When [ensure_parent_dir] returns, the parent of the path is there, and
    it is a directory if it was not there before. *)
Lemma ensure_parent_dir_returns dst w w' :
  ensure_parent_dir dst w = (Returns tt, w') ->
  OsPath.dirname dst = "" \/
  (is_Some (Os.node_at w (OsPath.dirname dst)) /\ w' = w) \/
  (Os.node_at w (OsPath.dirname dst) = None /\
   exists n, Os.node_at w' (OsPath.dirname dst) = Some n /\
             FS.is_dir n = true).
Proof.
  unfold ensure_parent_dir.
  destruct (Str.is_empty (OsPath.dirname dst)) eqn:E.
  { left. destruct (OsPath.dirname dst); [reflexivity|discriminate]. }
  right. revert H. unfold bind, Os.path_exists. cbv beta iota.
  destruct (Os.node_at w (OsPath.dirname dst)) as [x|] eqn:Ex.
  - rewrite bool_decide_eq_true_2 by eauto. cbn [negb].
    intros H. inversion H; subst. left. eauto.
  - rewrite bool_decide_eq_false_2 by (intros [y Hy]; discriminate).
    cbn [negb]. unfold Os.makedirs, Os.node_at.
    destruct (Os.resolve (OsPath.dirname dst)) as [p|]; [|discriminate].
    intros H. apply makedirs_rev_returns in H as (n & Hn & Hd).
    rewrite rev_involutive in Hn. right. eauto.
Qed.

Lemma ensure_parent_dir_idempotent dst w w' :
  ensure_parent_dir dst w = (Returns tt, w') ->
  ensure_parent_dir dst w' = (Returns tt, w').
Proof.
  intros H. apply ensure_parent_dir_present.
  apply ensure_parent_dir_returns in H
    as [H|[[H ->]|(_ & n & Hn & _)]]; [auto|auto|].
  right. rewrite Hn. eauto.
Qed.

Lemma copy_file_starts_with_ensure src dst chunked size w w' :
  copy_file src dst chunked size w = (Returns tt, w') ->
  exists w0, ensure_parent_dir dst w = (Returns tt, w0).
Proof.
  unfold copy_file. unfold bind at 1.
  destruct (ensure_parent_dir dst w) as [[[]|e] w0]; [eauto|discriminate].
Qed.

Lemma copy_file_ensure_fails src dst chunked size w e w0 :
  ensure_parent_dir dst w = (Raises e, w0) ->
  copy_file src dst chunked size w = (Raises e, w0).
Proof. intros H. unfold copy_file. unfold bind at 1. now rewrite H. Qed.

Lemma creatable_target_ok n p : creatable n p = true -> target_ok n p = true.
Proof.
  intros H. unfold target_ok. now rewrite (creatable_absent _ _ H).
Qed.

Lemma creatable_not_source w src dst data :
  content w src = Some data ->
  creatable (fs w) (OsPath.components dst) = true ->
  OsPath.basename dst <> "" ->
  Os.resolve src <> Os.resolve dst.
Proof.
  intros Hsrc Hcre Hbase Heq.
  apply content_inv in Hsrc as (ps & a & m & Hps & Hat).
  rewrite (resolve_named dst Hbase), Hps in Heq. inversion Heq; subst ps.
  unfold file_at in Hat. now rewrite (creatable_absent _ _ Hcre) in Hat.
Qed.

(** C7. [copy_file] begins with [ensure_parent_dir] on the destination: a
    copy that returned has first seen it return, and a copy on which it
    raises stops there.  When [ensure_parent_dir] returns, the parent of
    the path is there, and is a directory if it was missing before; it
    changes nothing and does not fail when the parent is already there (or
    the path has no parent part); running it again after it returned
    changes nothing.  In a calm world it creates the parent chain of every
    creatable destination, and the copy of a regular file to such a
    destination (one whose parent directories need not exist yet) returns,
    in either mode, with the bytes of the source at the destination. *)
Theorem copy_file_ensures_parent_dir :
  (forall src dst chunked size w w',
      copy_file src dst chunked size w = (Returns tt, w') ->
      exists w0, ensure_parent_dir dst w = (Returns tt, w0)) /\
  (forall src dst chunked size w e w0,
      ensure_parent_dir dst w = (Raises e, w0) ->
      copy_file src dst chunked size w = (Raises e, w0)) /\
  (forall dst w w',
      ensure_parent_dir dst w = (Returns tt, w') ->
      OsPath.dirname dst = "" \/
      (is_Some (Os.node_at w (OsPath.dirname dst)) /\ w' = w) \/
      (Os.node_at w (OsPath.dirname dst) = None /\
       exists n, Os.node_at w' (OsPath.dirname dst) = Some n /\
                 FS.is_dir n = true)) /\
  (forall dst w,
      OsPath.dirname dst = "" \/
      is_Some (Os.node_at w (OsPath.dirname dst)) ->
      ensure_parent_dir dst w = (Returns tt, w)) /\
  (forall dst w w',
      ensure_parent_dir dst w = (Returns tt, w') ->
      ensure_parent_dir dst w' = (Returns tt, w')) /\
  (forall dst w,
      calm w -> OsPath.basename dst <> "" ->
      creatable (fs w) (OsPath.components dst) = true ->
      exists w0 es,
        ensure_parent_dir dst w = (Returns tt, w0) /\
        FS.lookup (fs w0) (OsPath.components (OsPath.dirname dst))
        = Some (Dir es)) /\
  (forall src dst chunked size w data,
      calm w -> OsPath.basename dst <> "" ->
      content w src = Some data ->
      creatable (fs w) (OsPath.components dst) = true ->
      0 < size ->
      exists w',
        copy_file src dst chunked size w = (Returns tt, w') /\
        content w' dst = Some data).
Proof.
  split; [exact copy_file_starts_with_ensure|].
  split; [exact copy_file_ensure_fails|].
  split; [exact ensure_parent_dir_returns|].
  split; [exact ensure_parent_dir_present|].
  split; [exact ensure_parent_dir_idempotent|].
  split.
  - intros dst w Hcalm Hbase Hcre.
    destruct (ensure_parent_dir_calm dst w Hcalm Hbase
                (creatable_target_ok _ _ Hcre))
      as (w0 & es & He & _ & Hpar & _).
    eauto.
  - intros src dst chunked size w data Hcalm Hbase Hsrc Hcre Hsize.
    destruct (copy_file_calm src dst chunked size w data Hcalm Hbase Hsrc
                (creatable_target_ok _ _ Hcre)
                (creatable_not_source _ _ _ _ Hsrc Hcre Hbase))
      as (w' & Hrun & Hdst); [lia|].
    exists w'. split; [exact Hrun|].
    rewrite Hdst. destruct (Z.eqb_spec size 0); [lia|].
    now rewrite andb_false_r.
Qed.

(** C8. Lines 61 to 65 always return, whatever [os.stat] and [os.utime]
    do; so once the parent directory is ensured and the chunked transfer
    has returned, [copy_file] returns, and with every file's bytes as the
    transfer left them. *)
Theorem timestamp_failure_is_swallowed :
  (forall src dst w,
      exists w', preserve_timestamps src dst w = (Returns tt, w')) /\
  (forall src dst chunk_size w w1,
      (ensure_parent_dir dst ;;; chunked_transfer src dst chunk_size) w
      = (Returns tt, w1) ->
      exists w2,
        copy_file src dst true chunk_size w = (Returns tt, w2) /\
        forall path, content w2 path = content w1 path).
Proof.
  split.
  - intros src dst w.
    destruct (preserve_timestamps_returns src dst w) as (w' & H & _). eauto.
  - intros src dst size w w1 Hcontent. unfold bind at 1 in Hcontent.
    destruct (ensure_parent_dir dst w) as [[[]|e] w0] eqn:He; [|discriminate].
    destruct (preserve_timestamps_returns src dst w1) as (w2 & H & Hkeep).
    exists w2. split; [|apply content_same_bytes, Hkeep].
    unfold copy_file. unfold bind at 1. rewrite He. cbn [negb].
    unfold bind at 1. rewrite Hcontent. exact H.
Qed.

(** C10. A chunked copy that returned with a chunk size above 0 left the
    destination with the bytes of the source (those it held before the
    copy, unless source and destination are one file, which opening the
    destination empties).  With chunk size 0 a chunked copy that returned
    left the destination empty, whatever the source holds; and in a calm
    world such a copy does return, for every regular file and every
    destination a copy may write at. *)
Theorem chunk_size_zero_truncates :
  (forall src dst chunk_size w w',
      0 < chunk_size ->
      copy_file src dst true chunk_size w = (Returns tt, w') ->
      exists data,
        content w' dst = Some data /\ content w' src = Some data /\
        (Os.resolve src <> Os.resolve dst -> content w src = Some data)) /\
  (forall src dst w w',
      copy_file src dst true 0 w = (Returns tt, w') ->
      content w' dst = Some []) /\
  (forall src dst w data,
      calm w -> OsPath.basename dst <> "" ->
      content w src = Some data ->
      target_ok (fs w) (OsPath.components dst) = true ->
      Os.resolve src <> Os.resolve dst ->
      exists w',
        copy_file src dst true 0 w = (Returns tt, w') /\
        content w' dst = Some []).
Proof.
  split; [|split].
  - intros src dst size w w' Hsize H.
    apply copy_file_chunked_returns in H
      as (ps & pd & data & Hps & Hpd & Hsrc & Hdst & Hothers).
    destruct (Z.eqb_spec size 0); [lia|]. simpl in Hdst.
    destruct (decide (ps = pd)) as [->|Hne].
    + rewrite bool_decide_eq_true_2 in Hdst by reflexivity.
      exists []. split; [exact Hdst|]. split.
      * unfold content in *. rewrite Hps. now rewrite Hpd in Hdst.
      * intros Hdiff. congruence.
    + rewrite bool_decide_eq_false_2 in Hdst by exact Hne.
      exists data. split; [exact Hdst|]. split; [|auto].
      unfold content in *. rewrite Hps in *. now rewrite (Hothers ps Hne).
  - intros src dst w w' H.
    apply copy_file_chunked_returns in H
      as (ps & pd & data & _ & _ & _ & Hdst & _).
    exact Hdst.
  - intros src dst w data Hcalm Hbase Hsrc Hok Hne.
    destruct (copy_file_calm src dst true 0 w data Hcalm Hbase Hsrc Hok Hne)
      as (w' & Hrun & Hdst); [lia|].
    eauto.
Qed.

(** ** The properties at work *)

Lemma example_world_calm : calm example_world.
Proof. intros t c. reflexivity. Qed.

Lemma copy_modes_same_content_example :
  DEFAULT_CHUNK_SIZE <> 0 /\
  exists data,
    content example_world "A/sub/b.txt" = Some data /\
    content (snd (copy_file "A/sub/b.txt" "B/sub/b.txt" true
                    DEFAULT_CHUNK_SIZE example_world)) "B/sub/b.txt"
    = Some data /\
    content (snd (copy_file "A/sub/b.txt" "B/sub/b.txt" false
                    DEFAULT_CHUNK_SIZE example_world)) "B/sub/b.txt"
    = Some data.
Proof.
  split; [discriminate|].
  apply (copy_modes_same_content example_world "A/sub/b.txt" "B/sub/b.txt"
           DEFAULT_CHUNK_SIZE).
  - discriminate.
  - vm_compute; reflexivity.
  - vm_compute; reflexivity.
Defined.

Lemma copy_into_missing_dirs_example :
  calm example_world /\
  OsPath.basename "B/x/y/b.txt" <> "" /\
  Os.node_at example_world (OsPath.dirname "B/x/y/b.txt") = None /\
  creatable (fs example_world) (OsPath.components "B/x/y/b.txt") = true /\
  exists w',
    copy_file "A/sub/b.txt" "B/x/y/b.txt" true DEFAULT_CHUNK_SIZE
      example_world = (Returns tt, w') /\
    content w' "B/x/y/b.txt" = Some (String.list_byte_of_string "world!").
Proof.
  split; [exact example_world_calm|].
  split; [discriminate|]. split; [reflexivity|]. split; [reflexivity|].
  apply (proj2 (proj2 (proj2 (proj2 (proj2 (proj2
           copy_file_ensures_parent_dir)))))).
  - exact example_world_calm.
  - discriminate.
  - reflexivity.
  - reflexivity.
  - reflexivity.
Defined.

Lemma timestamp_failure_example :
  (exists e w',
      Os.stat "A/sub/b.txt" no_timestamps_world = (Raises e, w')) /\
  exists w2,
    copy_file "A/sub/b.txt" "B/sub/b.txt" true DEFAULT_CHUNK_SIZE
      no_timestamps_world = (Returns tt, w2) /\
    content w2 "B/sub/b.txt" = Some (String.list_byte_of_string "world!").
Proof.
  split; [do 2 eexists; vm_compute; reflexivity|].
  destruct (proj2 timestamp_failure_is_swallowed
              "A/sub/b.txt" "B/sub/b.txt" DEFAULT_CHUNK_SIZE
              no_timestamps_world
              (snd ((ensure_parent_dir "B/sub/b.txt" ;;;
                     chunked_transfer "A/sub/b.txt" "B/sub/b.txt"
                       DEFAULT_CHUNK_SIZE) no_timestamps_world)))
    as (w2 & Hrun & Hkeep).
  - vm_compute; reflexivity.
  - exists w2. split; [exact Hrun|]. rewrite Hkeep. vm_compute; reflexivity.
Defined.

Lemma chunk_size_zero_example :
  content example_world "A/sub/b.txt"
  = Some (String.list_byte_of_string "world!") /\
  exists w',
    copy_file "A/sub/b.txt" "B/sub/b.txt" true 0 example_world
    = (Returns tt, w') /\
    content w' "B/sub/b.txt" = Some [].
Proof.
  split; [reflexivity|].
  apply (proj2 (proj2 chunk_size_zero_truncates)
           "A/sub/b.txt" "B/sub/b.txt" example_world
           (String.list_byte_of_string "world!")).
  - exact example_world_calm.
  - discriminate.
  - reflexivity.
  - reflexivity.
  - discriminate.
Defined.

(** * Further properties *)

(** ** Stores, and what they keep *)

Lemma evolves_trans made touch n1 n2 n3 :
  evolves made touch n1 n2 -> evolves made touch n2 n3 ->
  evolves made touch n1 n3.
Proof.
  induction 1 as [n|n p n' n'' Hnone Hmade Hput _ IH
                  |n p data atime mtime n' n'' Hfree Ht Hput _ IH];
    intros H23.
  - exact H23.
  - exact (evolves_mkdir made touch _ _ _ _ Hnone Hmade Hput (IH H23)).
  - exact (evolves_write made touch _ _ _ _ _ _ _ Hfree Ht Hput (IH H23)).
Qed.

Lemma evolves_mono (made touch touch' : list string -> Prop) n n' :
  (forall p, touch p -> touch' p) ->
  evolves made touch n n' -> evolves made touch' n n'.
Proof.
  intros Hsub. induction 1 as [n|n p n' n'' Hnone Hmade Hput _ IH
                               |n p data atime mtime n' n'' Hfree Ht Hput _ IH].
  - constructor.
  - exact (evolves_mkdir made touch' _ _ _ _ Hnone Hmade Hput IH).
  - exact (evolves_write made touch' _ _ _ _ _ _ _ Hfree (Hsub _ Ht) Hput IH).
Qed.

(** A regular file changes, appears or disappears only at a touched
    path. *)
Lemma evolves_frame made touch n n' q :
  evolves made touch n n' -> ~ touch q -> file_at n' q = file_at n q.
Proof.
  induction 1 as [n|n p n' n'' Hnone Hmade Hput _ IH
                  |n p data atime mtime n' n'' Hfree Ht Hput _ IH];
    intros Hq.
  - reflexivity.
  - rewrite (IH Hq). destruct (decide (q = p)) as [->|Hne].
    + unfold file_at. now rewrite (lookup_put_same _ _ _ _ Hput), Hnone.
    + apply (file_at_put_other _ _ _ _ q Hput I); [|exact Hne].
      unfold free_or_file. now rewrite Hnone.
  - rewrite (IH Hq).
    apply (file_at_put_other _ _ _ _ q Hput I Hfree). congruence.
Qed.

(** No regular file is ever removed. *)
Lemma evolves_keeps_files made touch n n' q :
  evolves made touch n n' -> is_Some (file_at n q) -> is_Some (file_at n' q).
Proof.
  induction 1 as [n|n p n' n'' Hnone Hmade Hput _ IH
                  |n p data atime mtime n' n'' Hfree Ht Hput _ IH];
    intros Hq.
  - exact Hq.
  - apply IH. destruct (decide (q = p)) as [->|Hne].
    + unfold file_at in Hq. rewrite Hnone in Hq. destruct Hq; discriminate.
    + rewrite (file_at_put_other _ _ _ _ q Hput I); [exact Hq| |exact Hne].
      unfold free_or_file. now rewrite Hnone.
  - apply IH. destruct (decide (q = p)) as [->|Hne].
    + rewrite (file_at_written _ _ _ _ _ _ Hput). eauto.
    + now rewrite (file_at_put_other _ _ _ _ q Hput I Hfree Hne).
Qed.

(** ** Computations and their stores *)

Lemma touches_ret {A} made touch (a : A) : touches made touch (ret a).
Proof. intros w r w' H. inversion H. constructor. Qed.

Lemma touches_raise {A} made touch e : touches made touch (@raise A e).
Proof. intros w r w' H. inversion H. constructor. Qed.

Lemma touches_bind {A B} made touch (m : IO A) (k : A -> IO B) :
  touches made touch m -> (forall a, touches made touch (k a)) ->
  touches made touch (bind m k).
Proof.
  intros Hm Hk w r w'. unfold bind.
  destruct (m w) as [[a|e] w1] eqn:E.
  - intros H. exact (evolves_trans _ _ _ _ _ (Hm _ _ _ E) (Hk a _ _ _ H)).
  - intros H. inversion H; subst. exact (Hm _ _ _ E).
Qed.

Lemma touches_try_except {A} made touch (m : IO A) (h : exn -> IO A) :
  touches made touch m -> (forall e, touches made touch (h e)) ->
  touches made touch (try_except m h).
Proof.
  intros Hm Hh w r w'. unfold try_except.
  destruct (m w) as [[a|e] w1] eqn:E.
  - intros H. inversion H; subst. exact (Hm _ _ _ E).
  - intros H. exact (evolves_trans _ _ _ _ _ (Hm _ _ _ E) (Hh e _ _ _ H)).
Qed.

Lemma touches_try_except_if {A} made touch cls (m : IO A) (h : exn -> IO A) :
  touches made touch m -> (forall e, touches made touch (h e)) ->
  touches made touch (try_except_if cls m h).
Proof.
  intros Hm Hh. apply touches_try_except; [exact Hm|].
  intros e. destruct (cls e); [apply Hh|apply touches_raise].
Qed.

(** A computation that leaves the tree as it is. *)
Lemma touches_reader {A} made touch (m : IO A) :
  (forall w r w', m w = (r, w') -> fs w' = fs w) -> touches made touch m.
Proof.
  intros H w r w' E. rewrite (H _ _ _ E). constructor.
Qed.

Lemma touches_attempt made touch c : touches made touch (attempt c).
Proof.
  apply touches_reader. intros w r w'. unfold attempt.
  case_deny; intros H; inversion H; reflexivity.
Qed.

Lemma touches_mono {A} (made touch touch' : list string -> Prop) (m : IO A) :
  (forall p, touch p -> touch' p) ->
  touches made touch m -> touches made touch' m.
Proof.
  intros Hsub Hm w r w' E. exact (evolves_mono _ _ _ _ _ Hsub (Hm _ _ _ E)).
Qed.

Lemma touches_bind_with {A B} made touch (Q : A -> Prop) (m : IO A)
  (k : A -> IO B) :
  touches made touch m ->
  (forall w a w', m w = (Returns a, w') -> Q a) ->
  (forall a, Q a -> touches made touch (k a)) ->
  touches made touch (bind m k).
Proof.
  intros Hm HQ Hk w r w'. unfold bind.
  destruct (m w) as [[a|e] w1] eqn:E.
  - intros H.
    exact (evolves_trans _ _ _ _ _ (Hm _ _ _ E) (Hk a (HQ _ _ _ E) _ _ _ H)).
  - intros H. inversion H; subst. exact (Hm _ _ _ E).
Qed.

Lemma free_or_file_absent n p : FS.lookup n p = None -> free_or_file n p.
Proof. unfold free_or_file. now intros ->. Qed.

Lemma resolve_components root cr :
  Os.resolve root = Some cr -> cr = OsPath.components root.
Proof.
  unfold Os.resolve. destruct (Str.is_empty root); [discriminate|].
  now intros [= <-].
Qed.

Lemma is_prefix_refl p : is_prefix p p = true.
Proof.
  induction p as [|c p IH]; [reflexivity|]. simpl.
  now rewrite String.eqb_refl.
Qed.

Lemma is_prefix_app q a b : is_prefix q a = true -> is_prefix q (a ++ b) = true.
Proof.
  revert a. induction q as [|c q IH]; intros a H; [reflexivity|].
  destruct a as [|d a]; [discriminate|]. simpl in *.
  apply andb_true_iff in H as [Hc Hq]. now rewrite Hc, (IH _ Hq).
Qed.

Lemma touches_mkdir_at (made touch : list string -> Prop) p :
  made p -> touches made touch (Os.mkdir_at p).
Proof.
  intros Hmade w r w'. unfold Os.mkdir_at. run_io. case_deny.
  - intros H; inversion H; constructor.
  - rewrite fs_tick.
    destruct (FS.lookup (fs w) p) as [x|] eqn:E;
      [intros H; inversion H; constructor|].
    destruct (FS.lookup (fs w) (FS.parent p)) as [[| es | |]|];
      try (intros H; inversion H; constructor).
    cbv beta. rewrite fs_tick.
    case_put; intros H; inversion H; subst; [|constructor].
    rewrite fs_with_fs.
    exact (evolves_mkdir made touch _ _ _ _ E Hmade Hput (evolves_refl _ _ _)).
Qed.

Lemma touches_makedirs_rev (made touch : list string -> Prop) rp exist_ok :
  (forall q, is_prefix q (rev rp) = true -> made q) ->
  touches made touch (Os.makedirs_rev rp exist_ok).
Proof.
  assert (Htail : forall p,
             made p ->
             touches made touch
               (try_except_if is_OSError (Os.mkdir_at p)
                  (fun e =>
                     isdir <- Os.isdir_at p ;;
                     if negb exist_ok || negb isdir then raise e
                     else ret tt))).
  { intros p Hp. apply touches_try_except_if; [apply touches_mkdir_at, Hp|].
    intros e. apply touches_bind.
    - apply touches_reader. intros w r w' H. inversion H. reflexivity.
    - intros b. destruct (negb exist_ok || negb b);
        [apply touches_raise|apply touches_ret]. }
  induction rp as [|tail rhead IH]; intros Hmade; cbn [Os.makedirs_rev].
  - apply touches_bind; [apply touches_ret|intros _].
    apply Htail, Hmade, is_prefix_refl.
  - apply touches_bind;
      [|intros _; apply Htail, Hmade, is_prefix_refl].
    destruct rhead as [|c rh]; [apply touches_ret|].
    apply touches_bind.
    + apply touches_reader. intros w r w' H. inversion H. reflexivity.
    + intros b. destruct b; [apply touches_ret|].
      apply touches_try_except_if; [|intros e; apply touches_ret].
      apply IH. intros q Hq. apply Hmade.
      change (rev (tail :: c :: rh)) with (rev (c :: rh) ++ [tail]).
      now apply is_prefix_app.
Qed.

Lemma touches_ensure_parent_dir (made touch : list string -> Prop) path :
  (forall q,
      is_prefix q (OsPath.components (OsPath.dirname path)) = true ->
      made q) ->
  touches made touch (ensure_parent_dir path).
Proof.
  intros Hmade. unfold ensure_parent_dir.
  destruct (Str.is_empty (OsPath.dirname path)); [apply touches_ret|].
  apply touches_bind.
  - apply touches_reader. intros w r w' H. inversion H. reflexivity.
  - intros b. destruct (negb b); [|apply touches_ret].
    unfold Os.makedirs.
    destruct (Os.resolve (OsPath.dirname path)) as [p|] eqn:E;
      [|apply touches_raise].
    apply touches_makedirs_rev. rewrite rev_involutive.
    now rewrite (resolve_components _ _ E).
Qed.

Lemma touches_open_rb made touch path : touches made touch (Os.open_rb path).
Proof.
  apply touches_reader. intros w r w' H.
  unfold Os.open_rb in H. destruct (Os.resolve path) as [p|];
    [|inversion H; reflexivity].
  revert H. run_io. case_deny; [intros H; inversion H; reflexivity|].
  rewrite fs_tick.
  destruct (FS.lookup (fs w) p) as [[| | |]|];
    intros H; inversion H; reflexivity.
Qed.

Lemma touches_open_wb (made touch : list string -> Prop) path :
  (forall q, at_path path q -> touch q) -> touches made touch (Os.open_wb path).
Proof.
  intros Ht w r w'. unfold Os.open_wb.
  destruct (Os.resolve path) as [p|] eqn:Hp;
    [|intros H; inversion H; constructor].
  run_io. case_deny; [intros H; inversion H; constructor|].
  rewrite fs_tick.
  destruct (FS.lookup (fs w) p) as [[data atime mtime| | |]|] eqn:E;
    try (intros H; inversion H; constructor).
  - cbv beta. rewrite fs_tick. case_put; intros H; inversion H; subst;
      [|constructor].
    rewrite fs_with_fs.
    exact (evolves_write made touch _ _ _ _ _ _ _
             (free_or_file_of_file _ _ _ _ _ E) (Ht _ Hp) Hput
             (evolves_refl _ _ _)).
  - destruct (FS.lookup (fs w) (FS.parent p)) as [[| es | |]|];
      try (intros H; inversion H; constructor).
    cbv beta. rewrite fs_tick. case_put; intros H; inversion H; subst;
      [|constructor].
    rewrite fs_with_fs.
    exact (evolves_write made touch _ _ _ _ _ _ _
             (free_or_file_absent _ _ E) (Ht _ Hp) Hput (evolves_refl _ _ _)).
Qed.

Lemma touches_read made touch h size : touches made touch (Os.read h size).
Proof.
  apply touches_reader. intros w r w'. unfold Os.read.
  destruct (size <? -1); [intros H; inversion H; reflexivity|].
  run_io. case_deny; intros H; inversion H; reflexivity.
Qed.

Lemma touches_write (made touch : list string -> Prop) h buf :
  touch (Os.h_path h) -> touches made touch (Os.write h buf).
Proof.
  intros Ht w r w'. unfold Os.write. run_io.
  case_deny; [intros H; inversion H; constructor|]. rewrite fs_tick.
  destruct (FS.lookup (fs w) (Os.h_path h)) as [[data atime mtime| | |]|] eqn:E;
    try (intros H; inversion H; constructor).
  cbv beta. rewrite fs_tick. case_put; intros H; inversion H; subst;
    [|constructor].
  rewrite fs_with_fs.
  exact (evolves_write made touch _ _ _ _ _ _ _
           (free_or_file_of_file _ _ _ _ _ E) Ht Hput (evolves_refl _ _ _)).
Qed.

Lemma pump_fuel_touches (made touch : list string -> Prop) fuel wh size :
  touch (Os.h_path wh) ->
  forall r st res st',
    pump_fuel fuel r wh size st = Some (res, st') ->
    evolves made touch (fs st) (fs st').
Proof.
  intros Ht. induction fuel as [|fuel IH]; intros r st res st' H;
    [discriminate|].
  simpl in H.
  destruct (Os.read r size st) as [[[buf r']|e] st1] eqn:Hr.
  - pose proof (touches_read made touch _ _ _ _ _ Hr) as H1.
    destruct buf as [|b buf].
    + inversion H; subst. exact H1.
    + destruct (Os.write wh (b :: buf) st1) as [[[]|e] st2] eqn:Hw.
      * exact (evolves_trans _ _ _ _ _ H1
                 (evolves_trans _ _ _ _ _
                    (touches_write made touch _ _ Ht _ _ _ Hw)
                    (IH _ _ _ _ H))).
      * inversion H; subst.
        exact (evolves_trans _ _ _ _ _ H1
                 (touches_write made touch _ _ Ht _ _ _ Hw)).
  - inversion H; subst. exact (touches_read made touch _ _ _ _ _ Hr).
Qed.

Lemma touches_pump (made touch : list string -> Prop) r wh size :
  touch (Os.h_path wh) -> touches made touch (pump r wh size).
Proof.
  intros Ht w res w'. unfold pump.
  destruct (pump_fuel _ r wh size w) as [[res1 st1]|] eqn:E.
  - intros H. inversion H; subst.
    exact (pump_fuel_touches _ _ _ _ _ Ht _ _ _ _ E).
  - intros H. inversion H; subst. constructor.
Qed.

Lemma touches_chunked_transfer (made touch : list string -> Prop) src dst size :
  (forall q, at_path dst q -> touch q) ->
  touches made touch (chunked_transfer src dst size).
Proof.
  intros Ht. unfold chunked_transfer.
  apply touches_bind; [apply touches_open_rb|]. intros r.
  apply (touches_bind_with made touch (fun h => at_path dst (Os.h_path h))).
  - apply touches_open_wb, Ht.
  - intros w h w' H.
    apply open_wb_returns in H as (p & a & n' & Hp & -> & _). exact Hp.
  - intros h Hh. apply touches_pump, Ht, Hh.
Qed.

Lemma touches_stat made touch path : touches made touch (Os.stat path).
Proof.
  apply touches_reader. intros w r w' H.
  exact (stat_keeps_tree _ _ _ _ H).
Qed.

Lemma touches_utime (made touch : list string -> Prop) path times :
  (forall q, at_path path q -> touch q) ->
  touches made touch (Os.utime path times).
Proof.
  intros Ht w r w'. unfold Os.utime.
  destruct (Os.resolve path) as [p|] eqn:Hp;
    [|intros H; inversion H; constructor].
  run_io. case_deny; [intros H; inversion H; constructor|].
  rewrite fs_tick.
  destruct (FS.lookup (fs w) p) as [[data atime mtime| | |]|] eqn:E;
    try (intros H; inversion H; constructor).
  cbv beta. rewrite fs_tick. case_put; intros H; inversion H; subst;
    [|constructor].
  rewrite fs_with_fs.
  exact (evolves_write made touch _ _ _ _ _ _ _
           (free_or_file_of_file _ _ _ _ _ E) (Ht _ Hp) Hput
           (evolves_refl _ _ _)).
Qed.

Lemma touches_copystat (made touch : list string -> Prop) src dst :
  (forall q, at_path dst q -> touch q) ->
  touches made touch (Shutil.copystat src dst).
Proof.
  intros Ht. unfold Shutil.copystat.
  apply touches_bind; [apply touches_stat|].
  intros st. apply touches_utime, Ht.
Qed.

Lemma touches_preserve_timestamps (made touch : list string -> Prop) src dst :
  (forall q, at_path dst q -> touch q) ->
  touches made touch (preserve_timestamps src dst).
Proof.
  intros Ht. unfold preserve_timestamps.
  apply touches_try_except; [|intros e; apply touches_ret].
  exact (touches_copystat made touch src dst Ht).
Qed.

(** A chunked copy stores regular files at its destination only. *)
Lemma touches_copy_file_chunked (made touch : list string -> Prop)
  src dst size :
  (forall q,
      is_prefix q (OsPath.components (OsPath.dirname dst)) = true -> made q) ->
  (forall q, at_path dst q -> touch q) ->
  touches made touch (copy_file src dst true size).
Proof.
  intros Hmade Ht. unfold copy_file.
  apply touches_bind; [apply touches_ensure_parent_dir, Hmade|].
  intros _. cbn [negb].
  apply touches_bind; [apply touches_chunked_transfer, Ht|].
  intros _. apply touches_preserve_timestamps, Ht.
Qed.

(** A fast copy stores regular files at its destination, or in it under
    the name of the source. *)
Lemma touches_copy2 (made touch : list string -> Prop) src dst :
  (forall q, at_path dst q -> touch q) ->
  (forall q, at_path (OsPath.join dst (OsPath.basename src)) q -> touch q) ->
  touches made touch (Shutil.copy2 src dst).
Proof.
  intros Ht Ht'. unfold Shutil.copy2.
  apply touches_bind.
  { apply touches_reader. intros w r w' H. inversion H. reflexivity. }
  intros isdir.
  assert (Hd : forall q,
             at_path (if isdir then OsPath.join dst (OsPath.basename src)
                      else dst) q -> touch q)
    by (destruct isdir; assumption).
  apply touches_bind; [|intros _; apply touches_copystat, Hd].
  unfold Shutil.copyfile. apply touches_bind.
  { apply touches_reader. intros w r w' H. inversion H. reflexivity. }
  intros same. destruct same; [apply touches_raise|].
  exact (touches_chunked_transfer made touch src _ Shutil.COPY_BUFSIZE Hd).
Qed.

Lemma touches_copy_file (touch : list string -> Prop) src dst chunked size :
  (forall q, at_path dst q -> touch q) ->
  (chunked = false ->
   forall q, at_path (OsPath.join dst (OsPath.basename src)) q -> touch q) ->
  touches (fun _ => True) touch (copy_file src dst chunked size).
Proof.
  intros Ht Ht'. destruct chunked.
  - apply touches_copy_file_chunked; [auto|exact Ht].
  - unfold copy_file.
    apply touches_bind; [apply touches_ensure_parent_dir; auto|].
    intros _. cbn [negb]. apply touches_copy2; [exact Ht|exact (Ht' eq_refl)].
Qed.

(** ** The index and the comparison at their edges *)

Lemma has_file_canonical w root rel : has_file w root rel -> canonical rel.
Proof.
  intros (n & p & _ & _ & ->). apply normalize_canonical.
Qed.

Lemma compare_result_canonical (w : world) (origin dest : string) :
  exists missing,
    compare origin dest w = (Returns missing, w) /\
    forall rel, rel ∈ missing -> canonical rel.
Proof.
  destruct (list_files_recursive_returns origin w) as (A & HA & HinA).
  destruct (list_files_recursive_returns dest w) as (B & HB & HinB).
  exists (A ∖ B). split.
  { unfold compare, bind. rewrite HA, HB. reflexivity. }
  intros rel Hrel. apply elem_of_difference in Hrel as [Hrel _].
  apply HinA in Hrel. exact (has_file_canonical _ _ _ Hrel).
Qed.

(** X1. Every path in an index, and so every path [compare] reports, is
    canonical: no backslash is left in it. *)
Theorem indexed_paths_are_canonical :
  forall (w : world) (path dest : string),
    exists files missing,
      list_files_recursive path w = (Returns files, w) /\
      compare path dest w = (Returns missing, w) /\
      (forall rel, rel ∈ files -> canonical rel) /\
      (forall rel, rel ∈ missing -> canonical rel) /\
      missing ⊆ files.
Proof.
  intros w path dest.
  destruct (list_files_recursive_returns path w) as (A & HA & HinA).
  destruct (list_files_recursive_returns dest w) as (B & HB & HinB).
  exists A, (A ∖ B). split; [exact HA|]. split.
  { unfold compare, bind. rewrite HA, HB. reflexivity. }
  split.
  { intros rel Hrel. apply HinA in Hrel.
    exact (has_file_canonical _ _ _ Hrel). }
  split.
  - intros rel Hrel. apply elem_of_difference in Hrel as [Hrel _].
    apply HinA in Hrel. exact (has_file_canonical _ _ _ Hrel).
  - apply elem_of_subseteq. intros rel Hrel.
    apply elem_of_difference in Hrel. tauto.
Qed.

(** X2. Compared with itself a directory has nothing missing, whatever it
    holds and whether or not it can be listed (for a path without NUL). *)
Theorem compare_with_itself_is_empty :
  forall (w : world) (path : string),
    nul_free path = true ->
    compare path path w = (Returns ∅, w).
Proof.
  intros w path _.
  destruct (list_files_recursive_returns path w) as (A & HA & _).
  unfold compare, bind. rewrite HA, HA. unfold ret. do 2 f_equal.
  apply set_eq. intros rel. rewrite elem_of_difference, elem_of_empty. tauto.
Qed.

Lemma compare_with_itself_is_empty_example :
  nul_free "A" = true /\
  compare "A" "A" example_world = (Returns ∅, example_world).
Proof.
  split; [reflexivity|].
  apply (compare_with_itself_is_empty example_world "A"). reflexivity.
Defined.

(** X3. For roots written without NUL and without [.] or [..]: a
    destination that cannot be listed (missing, unreadable, no directory)
    makes every indexed entry of the origin count as missing; an origin
    that cannot be listed makes nothing count as missing. *)
Theorem compare_with_unlistable_side :
  forall (w : world) (origin dest : string),
    nul_free origin = true -> nul_free dest = true ->
    dot_free origin = true -> dot_free dest = true ->
    (~ listable w dest ->
     exists files,
       list_files_recursive origin w = (Returns files, w) /\
       compare origin dest w = (Returns files, w)) /\
    (~ listable w origin ->
     compare origin dest w = (Returns ∅, w)).
Proof.
  intros w origin dest _ _ _ _.
  destruct (list_files_recursive_returns origin w) as (A & HA & HinA).
  destruct (list_files_recursive_returns dest w) as (B & HB & HinB).
  split; intros Hno.
  - exists A. split; [exact HA|].
    unfold compare, bind. rewrite HA, HB. unfold ret. do 2 f_equal.
    apply set_eq. intros rel. rewrite elem_of_difference, HinB.
    pose proof (not_listable_no_file w dest rel Hno). tauto.
  - unfold compare, bind. rewrite HA, HB. unfold ret. do 2 f_equal.
    apply set_eq. intros rel. rewrite elem_of_difference, HinA, elem_of_empty.
    pose proof (not_listable_no_file w origin rel Hno). tauto.
Qed.

Lemma compare_with_unlistable_side_example :
  nul_free "A" = true /\ nul_free "C" = true /\
  dot_free "A" = true /\ dot_free "C" = true /\
  ~ listable example_world "C" /\
  exists files,
    list_files_recursive "A" example_world = (Returns files, example_world) /\
    compare "A" "C" example_world = (Returns files, example_world).
Proof.
  assert (H : ~ listable example_world "C")
    by (intros [es Hes]; discriminate).
  split; [reflexivity|]. split; [reflexivity|].
  split; [reflexivity|]. split; [reflexivity|].
  split; [exact H|].
  exact (proj1 (compare_with_unlistable_side example_world "A" "C"
                  eq_refl eq_refl eq_refl eq_refl) H).
Defined.

(** X4. What [compare] returns goes through either batch runner in
    lexicographic order of the canonical paths, each path once.  On a set
    that [compare] returned, [copy_missing_files] and [CopyWorker.run]
    (given the sorted list, as the window gives it) end with the counts,
    the error lines and the signals of the outcomes taken in the order of
    the sorted elements themselves, in the world that the copies made in
    that order lead to. *)
Theorem analysis_result_is_processed_in_order :
  forall (w : world) (a b : string) (missing : gset string)
         from to mode w1,
    compare a b w = (Returns missing, w) ->
    let paths := sorted (elements missing) in
    let outs := batch_outcomes from to mode paths w1 in
    copy_missing_files missing from to mode w1
    = (Returns (successes outs, map error_line (failures outs)),
       batch_world from to mode paths w1) /\
    run {| files := paths; origin := from; dest := to; chunked := mode |} w1
    = (Returns (worker_signals (length paths) 1 outs
                ++ [Finished (successes outs) (length (failures outs)) to]),
       batch_world from to mode paths w1) /\
    map fst outs = paths /\
    StronglySorted String.le (map fst outs) /\
    NoDup (map fst outs).
Proof.
  intros w a b missing from to mode w1 Hcmp paths outs.
  destruct (compare_result_canonical w a b) as (missing' & Hc & Hcan).
  rewrite Hcmp in Hc. injection Hc as <-.
  assert (E : map fst outs = paths).
  { unfold outs. rewrite batch_outcomes_paths.
    apply map_normalize_canonical, sorted_canonical, Hcan. }
  split.
  { unfold copy_missing_files. fold paths.
    rewrite copy_missing_loop_world. reflexivity. }
  split.
  { unfold run, bind. cbn [files origin dest chunked].
    rewrite (worker_loop_world
               {| files := paths; origin := from; dest := to;
                  chunked := mode |} (length paths) paths 1 0 0 [] w1).
    reflexivity. }
  rewrite E. split; [reflexivity|].
  split; [apply sorted_StronglySorted|].
  unfold paths, sorted. rewrite merge_sort_Permutation. apply NoDup_elements.
Qed.

Lemma analysis_result_is_processed_in_order_example :
  compare "A" "C" example_world
  = (Returns {[ "a.txt"; "sub/b.txt" ]}, example_world) /\
  map fst (batch_outcomes "A" "C" true
             (sorted (elements ({[ "a.txt"; "sub/b.txt" ]} : gset string)))
             example_world)
  = sorted (elements ({[ "a.txt"; "sub/b.txt" ]} : gset string)).
Proof.
  assert (H : compare "A" "C" example_world
              = (Returns {[ "a.txt"; "sub/b.txt" ]}, example_world))
    by (vm_compute; reflexivity).
  split; [exact H|].
  exact (proj1 (proj2 (proj2 (analysis_result_is_processed_in_order
                                example_world "A" "C" _ "A" "C" true
                                example_world H)))).
Defined.

(** ** The two batch runners *)

(** X5. [CopyWorker.run] on the sorted missing paths and
    [copy_missing_files] on the set do the same work: from the same world
    they end in the same world, the worker's [finished] signal carries the
    success count and the number of error lines that [copy_missing_files]
    returns, and the worker emits as many [progress] signals as the two
    counts add up to. *)
Theorem worker_agrees_with_copy_missing_files :
  forall (missing_files : gset string) from to mode w,
    let self := {| files := sorted (elements missing_files);
                   origin := from; dest := to; chunked := mode |} in
    exists success errors sigs w',
      copy_missing_files missing_files from to mode w
      = (Returns (success, errors), w') /\
      run self w
      = (Returns (sigs ++ [Finished success (length errors) to]), w') /\
      w' = batch_world from to mode (sorted (elements missing_files)) w /\
      length (progress_of sigs) = (success + length errors)%nat.
Proof.
  intros X from to mode w self.
  set (paths := sorted (elements X)).
  set (outs := batch_outcomes from to mode paths w).
  exists (successes outs), (map error_line (failures outs)),
    (worker_signals (length paths) 1 outs),
    (batch_world from to mode paths w).
  split.
  { unfold copy_missing_files. fold paths.
    rewrite copy_missing_loop_world. reflexivity. }
  split.
  { unfold run, bind.
    change (files self) with paths.
    rewrite (worker_loop_world self (length paths) paths 1 0 0 [] w).
    change (origin self) with from. change (dest self) with to.
    change (chunked self) with mode. fold outs.
    rewrite length_map. reflexivity. }
  split; [reflexivity|].
  rewrite worker_signals_progress, length_map, enumerate_length,
    length_map, successes_failures.
  reflexivity.
Qed.

(** ** What a copy leaves alone *)

Lemma touches_for_each {A S} made touch (body : S -> A -> IO S) (xs : list A) :
  (forall acc x, In x xs -> touches made touch (body acc x)) ->
  forall acc, touches made touch (for_each body xs acc).
Proof.
  induction xs as [|x xs IH]; intros Hbody acc; simpl.
  - apply touches_ret.
  - apply touches_bind; [apply Hbody; now left|].
    intros acc'. apply IH. intros acc0 y Hy. apply Hbody. now right.
Qed.

(** The places the batch writes regular files at: the destinations of its
    paths and, for the fast mode, the entries of the same name in them. *)
Lemma touches_copy_missing_files (touch : list string -> Prop)
  (missing_files : gset string) origin dest chunked :
  (forall rel q,
      rel ∈ missing_files ->
      at_path (OsPath.join dest (_normalize_rel rel)) q -> touch q) ->
  (chunked = false ->
   forall rel q,
     rel ∈ missing_files ->
     at_path (OsPath.join (OsPath.join dest (_normalize_rel rel))
                (OsPath.basename
                   (OsPath.join origin (_normalize_rel rel)))) q ->
     touch q) ->
  touches (fun _ => True) touch
    (copy_missing_files missing_files origin dest chunked).
Proof.
  intros Ht Ht'. unfold copy_missing_files. apply touches_for_each.
  intros [success errors] rel Hrel.
  assert (Hin : rel ∈ missing_files).
  { apply elem_of_elements. apply list_elem_of_In in Hrel.
    unfold sorted in Hrel. now rewrite merge_sort_Permutation in Hrel. }
  unfold copy_missing_step. apply touches_try_except.
  - apply touches_bind; [|intros _; apply touches_ret].
    apply touches_copy_file.
    + intros q. apply Ht, Hin.
    + intros Hc q. apply (Ht' Hc), Hin.
  - intros e. apply touches_ret.
Qed.

(** X6. Whatever its outcome, a chunked copy to a destination written
    without [.] or [..] leaves every regular file but the destination
    with the bytes and the modification time it had, creates no other
    regular file and removes none; a fast copy does the same except at
    the destination and at the entry of the source's name inside the
    destination. *)
Theorem copy_file_changes_its_destination_only :
  forall src dst chunked size w r w' q,
    dot_free dst = true ->
    (chunked = false -> dot_free (OsPath.basename src) = true) ->
    copy_file src dst chunked size w = (r, w') ->
    Os.resolve dst <> Some q ->
    (chunked = false ->
     Os.resolve (OsPath.join dst (OsPath.basename src)) <> Some q) ->
    bytes_at (fs w') q = bytes_at (fs w) q /\
    mtime_at (fs w') q = mtime_at (fs w) q.
Proof.
  intros src dst chunked size w r w' q _ _ Hrun Hq Hq'.
  set (touch := fun p => at_path dst p \/
                         (chunked = false /\
                          at_path (OsPath.join dst (OsPath.basename src)) p)).
  assert (H : file_at (fs w') q = file_at (fs w) q).
  { apply (evolves_frame (fun _ => True) touch).
    - refine (touches_copy_file touch src dst chunked size _ _ _ _ _ Hrun).
      + intros p Hp. now left.
      + intros Hc p Hp. right. auto.
    - unfold touch, at_path. intros [H|[Hc H]];
        [exact (Hq H)|exact (Hq' Hc H)]. }
  unfold bytes_at, mtime_at. now rewrite H.
Qed.

Lemma copy_file_changes_its_destination_only_example :
  dot_free "B/sub/b.txt" = true /\
  Os.resolve "B/sub/b.txt" <> Some ["A"; "sub"; "b.txt"] /\
  bytes_at (fs (snd (copy_file "A/sub/b.txt" "B/sub/b.txt" true
                       DEFAULT_CHUNK_SIZE no_timestamps_world)))
    ["A"; "sub"; "b.txt"]
  = bytes_at (fs no_timestamps_world) ["A"; "sub"; "b.txt"] /\
  mtime_at (fs (snd (copy_file "A/sub/b.txt" "B/sub/b.txt" true
                       DEFAULT_CHUNK_SIZE no_timestamps_world)))
    ["A"; "sub"; "b.txt"]
  = mtime_at (fs no_timestamps_world) ["A"; "sub"; "b.txt"].
Proof.
  split; [reflexivity|]. split; [discriminate|].
  apply (copy_file_changes_its_destination_only
           "A/sub/b.txt" "B/sub/b.txt" true DEFAULT_CHUNK_SIZE
           no_timestamps_world
           (fst (copy_file "A/sub/b.txt" "B/sub/b.txt" true
                   DEFAULT_CHUNK_SIZE no_timestamps_world))).
  - reflexivity.
  - discriminate.
  - vm_compute; reflexivity.
  - discriminate.
  - discriminate.
Defined.

(** X7. Neither a single copy nor a whole batch ever removes a regular
    file, or turns one into something else: whatever was a regular file
    before is one afterwards, whatever the mode and however the copies
    end. *)
Theorem copies_never_remove_files :
  (forall src dst chunked size w r w' q,
      copy_file src dst chunked size w = (r, w') ->
      is_Some (file_at (fs w) q) -> is_Some (file_at (fs w') q)) /\
  (forall (missing_files : gset string) origin dest chunked w r w' q,
      copy_missing_files missing_files origin dest chunked w = (r, w') ->
      is_Some (file_at (fs w) q) -> is_Some (file_at (fs w') q)).
Proof.
  split.
  - intros src dst chunked size w r w' q Hrun.
    apply (evolves_keeps_files (fun _ => True) (fun _ => True)).
    refine (touches_copy_file _ src dst chunked size _ _ _ _ _ Hrun); auto.
  - intros X origin dest chunked w r w' q Hrun.
    apply (evolves_keeps_files (fun _ => True) (fun _ => True)).
    refine (touches_copy_missing_files _ X origin dest chunked _ _ _ _ _ Hrun);
      auto.
Qed.

Lemma copies_never_remove_files_example :
  is_Some (file_at (fs example_world) ["B"; "a.txt"]) /\
  is_Some (file_at
             (fs (snd (copy_missing_files {[ "a.txt"; "sub/b.txt" ]}
                         "A" "B" true example_world)))
             ["B"; "a.txt"]).
Proof.
  assert (H : is_Some (file_at (fs example_world) ["B"; "a.txt"]))
    by (vm_compute; eauto).
  split; [exact H|].
  apply (proj2 copies_never_remove_files {[ "a.txt"; "sub/b.txt" ]}
           "A" "B" true example_world
           (fst (copy_missing_files {[ "a.txt"; "sub/b.txt" ]}
                   "A" "B" true example_world))).
  - vm_compute; reflexivity.
  - exact H.
Defined.

(** ** Path strings: joining and splitting *)

Lemma components_free (t : string) :
  Str.contains OsPath.sep t = false ->
  OsPath.components t = if Str.is_empty t then [] else [t].
Proof.
  intros Ht. unfold OsPath.components. rewrite (split_free _ _ Ht).
  destruct t; reflexivity.
Qed.

Lemma components_dirname_head (h : string) :
  OsPath.components
    (match Str.rstrip OsPath.sep h with
     | "" => h
     | String _ _ as stripped => stripped
     end) = OsPath.components h.
Proof.
  destruct (rstrip_seps h) as [k Hk].
  destruct (Str.rstrip OsPath.sep h) as [|e r] eqn:E; [reflexivity|].
  rewrite Hk. now rewrite components_app_seps.
Qed.

(** Splitting a path into [dirname] and [basename] loses no name. *)
Lemma components_split (path : string) :
  OsPath.components path
  = OsPath.components (OsPath.dirname path)
    ++ OsPath.components (OsPath.basename path).
Proof.
  unfold OsPath.basename, OsPath.dirname, OsPath.split.
  pose proof (rsplit_spec OsPath.sep path) as H.
  destruct (Str.rsplit OsPath.sep path) as [h t]. cbn [fst snd].
  destruct H as [Ht Hs]. rewrite components_dirname_head.
  destruct Hs as [[-> ->]|(h0 & -> & ->)].
  - reflexivity.
  - rewrite !components_app_sep.
    change (OsPath.components "") with (@nil string).
    now rewrite app_nil_r.
Qed.

Lemma basename_free (path : string) :
  Str.contains OsPath.sep (OsPath.basename path) = false.
Proof.
  unfold OsPath.basename, OsPath.split.
  pose proof (rsplit_spec OsPath.sep path) as H.
  destruct (Str.rsplit OsPath.sep path) as [h t]. exact (proj1 H).
Qed.

Lemma endswith_spec c (a : string) :
  Str.endswith c a = true -> exists a0, a = a0 +:+ String c "".
Proof.
  induction a as [|d a IH]; [discriminate|].
  destruct a as [|e a].
  - simpl. intros H. apply Ascii.eqb_eq in H. subst d. exists "". reflexivity.
  - intros H. change (Str.endswith c (String e a) = true) in H.
    destruct (IH H) as [a0 Ha0]. exists (String d a0).
    rewrite str_app_cons, <- Ha0. reflexivity.
Qed.

(** [os.path.join] puts the names of its second argument after those of
    its first, unless the second starts with a slash. *)
Lemma components_join (a b : string) :
  Str.startswith OsPath.sep b = false ->
  OsPath.components (OsPath.join a b)
  = OsPath.components a ++ OsPath.components b.
Proof.
  intros Hb. unfold OsPath.join. rewrite Hb.
  destruct a as [|d a]; [reflexivity|]. cbn [Str.is_empty orb].
  destruct (Str.endswith OsPath.sep (String d a)) eqn:E.
  - apply endswith_spec in E as [a0 ->].
    rewrite str_app_assoc.
    change (String OsPath.sep "" +:+ b) with (String OsPath.sep b).
    rewrite !components_app_sep.
    change (OsPath.components "") with (@nil string).
    now rewrite app_nil_r.
  - apply components_app_sep.
Qed.

(** A second argument that starts with a slash replaces the first. *)
Lemma join_absolute (a b : string) :
  Str.startswith OsPath.sep b = true -> OsPath.join a b = b.
Proof. intros Hb. unfold OsPath.join. now rewrite Hb. Qed.

Lemma join_not_empty (a b : string) :
  Str.is_empty b = false -> Str.is_empty (OsPath.join a b) = false.
Proof.
  intros Hb. unfold OsPath.join.
  destruct (Str.startswith OsPath.sep b); [exact Hb|].
  destruct b as [|e b]; [discriminate|].
  destruct (Str.is_empty a || Str.endswith OsPath.sep a);
    destruct a; reflexivity.
Qed.

(** Whatever exists has a parent that exists, if its path has a parent
    part at all. *)
Lemma parent_of_existing w path x :
  Os.node_at w path = Some x ->
  OsPath.dirname path = "" \/ is_Some (Os.node_at w (OsPath.dirname path)).
Proof.
  unfold Os.node_at, Os.resolve.
  destruct (Str.is_empty path) eqn:Ep; [discriminate|].
  destruct (OsPath.dirname path) as [|d s] eqn:Ed; [now left|].
  right. cbn [Str.is_empty]. rewrite <- Ed.
  rewrite (components_split path), lookup_app in H.
  destruct (FS.lookup (fs w) (OsPath.components (OsPath.dirname path)));
    [eauto|discriminate].
Qed.

(** ** A file copied onto itself *)

Lemma pump_at_end_calm r wh size st :
  calm st -> Os.unread st r = [] -> -1 <= size ->
  pump r wh size st = (Returns tt, tick st).
Proof.
  intros Hcalm Hend Hsize. unfold pump. rewrite Hend.
  cbn [length pump_fuel]. rewrite (read_calm _ _ _ Hcalm Hsize), Hend.
  destruct (size =? -1); reflexivity.
Qed.

Lemma open_wb_existing_calm dst w p data atime mtime :
  calm w -> Os.resolve dst = Some p ->
  file_at (fs w) p = Some (data, atime, mtime) ->
  exists n',
    FS.put (fs w) p (File [] atime (now (tick w))) = Some n' /\
    Os.open_wb dst w = (Returns (Os.Handle p 0), with_fs (tick w) n').
Proof.
  intros Hcalm Hp Hat. unfold file_at in Hat.
  destruct (FS.lookup (fs w) p) as [[d a m| | |]|] eqn:E; try discriminate.
  inversion Hat; subst d a m; clear Hat.
  destruct (put_existing (fs w) p (File [] atime (now (tick w))) _ E)
    as [n' Hput].
  exists n'. split; [exact Hput|].
  unfold Os.open_wb. rewrite Hp. unfold bind at 1.
  rewrite (attempt_calm _ _ Hcalm). run_io. rewrite !fs_tick, E.
  cbv beta. rewrite fs_tick, Hput. reflexivity.
Qed.

Lemma node_at_file w path p f :
  Os.resolve path = Some p -> file_at (fs w) p = Some f ->
  exists data atime mtime, Os.node_at w path = Some (File data atime mtime).
Proof.
  intros Hp Hat. unfold Os.node_at. rewrite Hp. unfold file_at in Hat.
  destruct (FS.lookup (fs w) p) as [[d a m| | |]|]; try discriminate. eauto.
Qed.

Lemma ensure_parent_dir_of_existing dst w x :
  Os.node_at w dst = Some x -> ensure_parent_dir dst w = (Returns tt, w).
Proof.
  intros H. apply ensure_parent_dir_present.
  exact (parent_of_existing _ _ _ H).
Qed.

Lemma self_copy_chunked_returns src dst size w w' :
  Os.resolve src = Os.resolve dst ->
  copy_file src dst true size w = (Returns tt, w') ->
  content w' src = Some [].
Proof.
  intros Heq H.
  apply copy_file_chunked_returns in H
    as (ps & pd & data & Hps & Hpd & _ & Hdst & _).
  assert (ps = pd) as -> by congruence.
  rewrite bool_decide_eq_true_2, orb_true_r in Hdst by reflexivity.
  unfold content in *. now rewrite Heq.
Qed.

Lemma self_copy_chunked_calm src dst size w data :
  calm w -> content w src = Some data ->
  Os.resolve src = Os.resolve dst -> -1 <= size ->
  exists w',
    copy_file src dst true size w = (Returns tt, w') /\
    content w' src = Some [].
Proof.
  intros Hcalm Hsrc Heq Hsize.
  apply content_inv in Hsrc as (p & atime & mtime & Hps & Hat).
  assert (Hpd : Os.resolve dst = Some p) by congruence.
  destruct (node_at_file w dst p _ Hpd Hat) as (d & a & m & Hnode).
  pose proof (ensure_parent_dir_of_existing dst w _ Hnode) as He.
  destruct (open_wb_existing_calm dst (tick w) p data atime mtime
              (calm_tick _ Hcalm) Hpd Hat) as (n' & Hput & Hopen).
  destruct (preserve_timestamps_returns src dst
              (tick (with_fs (tick (tick w)) n'))) as (w2 & Hp & _).
  assert (Hrun : copy_file src dst true size w = (Returns tt, w2)).
  { unfold copy_file. unfold bind at 1. rewrite He. cbn [negb].
    unfold bind at 1. unfold chunked_transfer. unfold bind at 1.
    rewrite (open_rb_calm _ _ _ _ _ _ Hcalm Hps Hat).
    unfold bind at 1. rewrite Hopen.
    rewrite pump_at_end_calm; [exact Hp| | |exact Hsize].
    - apply calm_with_fs, calm_tick, calm_tick, Hcalm.
    - unfold Os.unread. cbn [Os.h_path Os.h_pos].
      rewrite fs_with_fs, file_data_file_at,
        (file_at_written _ _ _ _ _ _ Hput). reflexivity. }
  exists w2. split; [exact Hrun|].
  exact (self_copy_chunked_returns _ _ _ _ _ Heq Hrun).
Qed.

Lemma self_copy_fast_raises src dst size w data :
  content w src = Some data ->
  Os.resolve src = Os.resolve dst ->
  copy_file src dst false size w = (Raises (SameFileError src dst), w).
Proof.
  intros Hsrc Heq.
  apply content_inv in Hsrc as (p & atime & mtime & Hps & Hat).
  assert (Hpd : Os.resolve dst = Some p) by congruence.
  destruct (node_at_file w dst p _ Hpd Hat) as (d & a & m & Hnode).
  destruct (node_at_file w src p _ Hps Hat) as (d' & a' & m' & Hnode').
  unfold copy_file. unfold bind at 1.
  rewrite (ensure_parent_dir_of_existing dst w _ Hnode). cbn [negb].
  unfold Shutil.copy2. unfold bind at 1. unfold Os.path_isdir at 1.
  cbv beta iota. rewrite Hnode. cbn [FS.is_dir]. unfold bind at 1.
  unfold Shutil.copyfile. unfold bind at 1. unfold Shutil.samefile at 1.
  cbv beta iota. rewrite Hnode, Hnode'.
  rewrite bool_decide_eq_true_2 by exact Heq. reflexivity.
Qed.

(** X8. When source and destination name the same regular file, the fast
    copy refuses with [SameFileError] and changes nothing, whereas the
    chunked copy, if it returns, has emptied the file; and in a calm world
    it does return. *)
Theorem copying_a_file_onto_itself :
  (forall src dst size w w',
      Os.resolve src = Os.resolve dst ->
      copy_file src dst true size w = (Returns tt, w') ->
      content w' src = Some []) /\
  (forall src dst size w data,
      calm w -> content w src = Some data ->
      Os.resolve src = Os.resolve dst -> -1 <= size ->
      exists w',
        copy_file src dst true size w = (Returns tt, w') /\
        content w' src = Some []) /\
  (forall src dst size w data,
      content w src = Some data ->
      Os.resolve src = Os.resolve dst ->
      copy_file src dst false size w = (Raises (SameFileError src dst), w)).
Proof.
  split; [exact self_copy_chunked_returns|].
  split; [exact self_copy_chunked_calm|exact self_copy_fast_raises].
Qed.

Lemma copying_a_file_onto_itself_example :
  content example_world "A/a.txt"
  = Some (String.list_byte_of_string "hello") /\
  Os.resolve "A/a.txt" = Os.resolve "A//a.txt" /\
  exists w',
    copy_file "A/a.txt" "A//a.txt" true DEFAULT_CHUNK_SIZE example_world
    = (Returns tt, w') /\
    content w' "A/a.txt" = Some [].
Proof.
  split; [reflexivity|]. split; [reflexivity|].
  apply (proj1 (proj2 copying_a_file_onto_itself)
           "A/a.txt" "A//a.txt" DEFAULT_CHUNK_SIZE example_world
           (String.list_byte_of_string "hello")).
  - exact example_world_calm.
  - reflexivity.
  - reflexivity.
  - discriminate.
Defined.

(** ** A relative path that is not relative *)

Lemma sorted_singleton (x : string) : sorted [x] = [x].
Proof. reflexivity. Qed.

(** X9. A path that starts with a separator once normalised (say, the
    name [\x]) is joined to neither root: the batch then copies the file
    of that name onto itself.  In chunked mode and a calm world this
    empties the file, which lies outside both trees, and is counted as a
    success. *)
Theorem leading_separator_bypasses_both_roots :
  forall origin dest rel w data,
    calm w ->
    Str.startswith OsPath.sep (_normalize_rel rel) = true ->
    content w (_normalize_rel rel) = Some data ->
    OsPath.join origin (_normalize_rel rel) = _normalize_rel rel /\
    OsPath.join dest (_normalize_rel rel) = _normalize_rel rel /\
    exists w',
      copy_missing_files {[ rel ]} origin dest true w
      = (Returns (1%nat, []), w') /\
      content w' (_normalize_rel rel) = Some [].
Proof.
  intros origin dest rel w data Hcalm Habs Hsrc.
  pose proof (join_absolute origin _ Habs) as Ho.
  pose proof (join_absolute dest _ Habs) as Hd.
  split; [exact Ho|]. split; [exact Hd|].
  destruct (self_copy_chunked_calm
              (_normalize_rel rel) (_normalize_rel rel) DEFAULT_CHUNK_SIZE
              w data Hcalm Hsrc eq_refl) as (w' & Hrun & Hempty);
    [discriminate|].
  exists w'. split; [|exact Hempty].
  unfold copy_missing_files. rewrite elements_singleton, sorted_singleton.
  rewrite for_each_cons, copy_missing_step_eq, Ho, Hd, Hrun. reflexivity.
Qed.

Lemma leading_separator_bypasses_both_roots_example :
  calm example_world /\
  Str.startswith OsPath.sep (_normalize_rel "\A\a.txt") = true /\
  content example_world (_normalize_rel "\A\a.txt")
  = Some (String.list_byte_of_string "hello") /\
  exists w',
    copy_missing_files {[ "\A\a.txt" ]} "A" "B" true example_world
    = (Returns (1%nat, []), w') /\
    content w' "A/a.txt" = Some [].
Proof.
  split; [exact example_world_calm|]. split; [reflexivity|].
  split; [reflexivity|].
  destruct (leading_separator_bypasses_both_roots "A" "B" "\A\a.txt"
              example_world (String.list_byte_of_string "hello")
              example_world_calm eq_refl eq_refl) as (_ & _ & w' & H1 & H2).
  exists w'. split; [exact H1|exact H2].
Defined.

(** ** A copy that fails on the way *)

Lemma write_raises_keeps_tree h buf w e w' :
  Os.write h buf w = (Raises e, w') -> fs w' = fs w.
Proof.
  unfold Os.write. run_io. case_deny; [intros H; inversion H; reflexivity|].
  rewrite fs_tick.
  destruct (FS.lookup (fs w) (Os.h_path h)) as [[data atime mtime| | |]|];
    try (intros H; inversion H; reflexivity).
  cbv beta. rewrite fs_tick.
  case_put; intros H; inversion H; reflexivity.
Qed.

Lemma open_wb_raises_keeps_tree path w e w' :
  Os.open_wb path w = (Raises e, w') -> fs w' = fs w.
Proof.
  unfold Os.open_wb. destruct (Os.resolve path) as [p|];
    [|intros H; inversion H; reflexivity].
  run_io. case_deny; [intros H; inversion H; reflexivity|].
  rewrite fs_tick.
  destruct (FS.lookup (fs w) p) as [[data atime mtime| | |]|];
    try (intros H; inversion H; reflexivity).
  - cbv beta. rewrite fs_tick.
    case_put; intros H; inversion H; reflexivity.
  - destruct (FS.lookup (fs w) (FS.parent p)) as [[| es | |]|];
      try (intros H; inversion H; reflexivity).
    cbv beta. rewrite fs_tick.
    case_put; intros H; inversion H; reflexivity.
Qed.

Lemma read_keeps_tree h size w r w' :
  Os.read h size w = (r, w') -> fs w' = fs w.
Proof.
  unfold Os.read. destruct (size <? -1); [intros H; inversion H; reflexivity|].
  run_io. case_deny; intros H; inversion H; reflexivity.
Qed.

Lemma read_chunk_is_prefix (size : Z) (unread buf : list byte) :
  buf = (if size =? -1 then unread else Os.take (Z.to_N size) unread) ->
  unread = buf ++ skipn (length buf) unread.
Proof.
  intros ->. destruct (size =? -1).
  - now rewrite skipn_all, app_nil_r.
  - symmetry. apply take_skipn.
Qed.

(** However the loop ends, what it has added to the destination is a
    first part of what was unread. *)
Lemma pump_fuel_written fuel wh size :
  forall r st res st' data atime mtime,
    Os.h_path r <> Os.h_path wh ->
    file_at (fs st) (Os.h_path wh) = Some (data, atime, mtime) ->
    pump_fuel fuel r wh size st = Some (res, st') ->
    exists written rest atime' mtime',
      file_at (fs st') (Os.h_path wh)
      = Some (data ++ written, atime', mtime') /\
      Os.unread st r = written ++ rest.
Proof.
  induction fuel as [|fuel IH];
    intros r st res st' data atime mtime Hne Hat H; [discriminate|].
  simpl in H.
  destruct (Os.read r size st) as [[[buf r']|e] st1] eqn:Hr.
  2:{ inversion H; subst.
      exists [], (Os.unread st r), atime, mtime.
      split; [|reflexivity].
      now rewrite (read_keeps_tree _ _ _ _ _ Hr), app_nil_r. }
  apply read_returns in Hr as (Hsz & -> & Hbuf & ->).
  pose proof (read_chunk_is_prefix _ _ _ Hbuf) as Hsplit.
  destruct buf as [|b buf].
  - inversion H; subst. exists [], (Os.unread st r), atime, mtime.
    now rewrite fs_tick, app_nil_r.
  - destruct (Os.write wh (b :: buf) (tick st)) as [[[]|e] st2] eqn:Hw.
    + apply write_returns in Hw
        as (data0 & atime0 & mtime0 & n' & Hl & Hput & ->).
      rewrite fs_tick in Hl, Hput.
      pose proof (free_or_file_of_file _ _ _ _ _ Hl) as Hfree.
      assert (data0 = data /\ atime0 = atime) as [-> ->].
      { unfold file_at in Hat. rewrite Hl in Hat. now inversion Hat. }
      destruct (IH (Os.Handle (Os.h_path r) (Os.h_pos r + length (b :: buf)))
                  (with_fs (tick (tick st)) n') res st'
                  (data ++ b :: buf) atime (now (tick (tick st)))
                  Hne (file_at_written _ _ _ _ _ _ Hput) H)
        as (written & rest & a' & m' & Hdata & Hun).
      cbn [Os.h_path] in Hdata.
      rewrite (unread_after_write st (with_fs (tick (tick st)) n') r wh n'
                 _ _ _ _ Hne Hfree Hput eq_refl) in Hun.
      exists ((b :: buf) ++ written), rest, a', m'. split.
      * rewrite Hdata. now rewrite <- !app_assoc.
      * rewrite Hsplit at 1. rewrite Hun. now rewrite <- app_assoc.
    + inversion H; subst.
      rewrite (write_raises_keeps_tree _ _ _ _ _ Hw), fs_tick.
      exists [], (Os.unread st r), atime, mtime.
      now rewrite app_nil_r.
Qed.

Lemma open_rb_keeps_tree path w r w' :
  Os.open_rb path w = (r, w') -> fs w' = fs w.
Proof.
  unfold Os.open_rb. destruct (Os.resolve path) as [p|];
    [|intros H; inversion H; reflexivity].
  run_io. case_deny; [intros H; inversion H; reflexivity|].
  rewrite fs_tick.
  destruct (FS.lookup (fs w) p) as [[| | |]|];
    intros H; inversion H; reflexivity.
Qed.

Lemma content_same_tree w w' path :
  fs w' = fs w -> content w' path = content w path.
Proof. unfold content. now intros ->. Qed.

Lemma chunked_transfer_written src dst size w r w' data :
  content w src = Some data ->
  Os.resolve src <> Os.resolve dst ->
  chunked_transfer src dst size w = (r, w') ->
  content w' dst = content w dst \/
  exists written rest,
    content w' dst = Some written /\ data = written ++ rest.
Proof.
  intros Hsrc Hne. unfold chunked_transfer. unfold bind at 1.
  destruct (Os.open_rb src w) as [[rh|e] w1] eqn:Hr.
  2:{ intros H. inversion H; subst. left.
      apply content_same_tree, (open_rb_keeps_tree _ _ _ _ Hr). }
  apply open_rb_returns in Hr as (ps & d0 & a0 & m0 & Hps & -> & -> & Hl).
  assert (d0 = data) as ->.
  { rewrite (content_file_at _ _ _ Hps) in Hsrc. unfold file_at in Hsrc.
    rewrite Hl in Hsrc. now inversion Hsrc. }
  unfold bind at 1.
  destruct (Os.open_wb dst (tick w)) as [[wh|e] w2] eqn:Hw.
  2:{ intros H. inversion H; subst. left.
      apply content_same_tree.
      now rewrite (open_wb_raises_keeps_tree _ _ _ _ Hw). }
  apply open_wb_returns in Hw as (pd & a1 & n' & Hpd & -> & Hfree & Hput & ->).
  rewrite fs_tick in Hfree, Hput.
  assert (Hpp : ps <> pd) by congruence.
  pose proof (file_at_written _ _ _ _ _ _ Hput) as Hnew.
  assert (Hun : Os.unread (with_fs (tick (tick w)) n') (Os.Handle ps 0)
                = data).
  { unfold Os.unread. cbn [Os.h_path Os.h_pos].
    rewrite fs_with_fs, file_data_file_at,
      (file_at_put_other _ _ _ _ ps Hput I Hfree Hpp).
    unfold file_at. now rewrite Hl. }
  intros Hpump. right. rewrite (content_file_at _ _ _ Hpd).
  unfold pump in Hpump.
  destruct (pump_fuel _ (Os.Handle ps 0) (Os.Handle pd 0) size _)
    as [[res1 st1]|] eqn:E.
  - injection Hpump as <- <-.
    destruct (pump_fuel_written _ (Os.Handle pd 0) size (Os.Handle ps 0)
                (with_fs (tick (tick w)) n') res1 st1 [] a1
                (now (tick (tick w))) Hpp Hnew E)
      as (written & rest & a' & m' & Hdata & Hsplit).
    cbn [Os.h_path] in Hdata. rewrite Hun in Hsplit.
    exists written, rest. rewrite Hdata. auto.
  - injection Hpump as <- <-. exists [], data.
    rewrite fs_with_fs, Hnew. auto.
Qed.

(** X10. A chunked copy to another place never leaves at the destination
    anything but bytes of the source: however the copy ends (returned, or
    raised at any system call), the destination holds what it held before
    or a first part of the source's bytes. *)
Theorem chunked_copy_leaves_a_prefix :
  forall src dst size w r w' data,
    content w src = Some data ->
    Os.resolve src <> Os.resolve dst ->
    copy_file src dst true size w = (r, w') ->
    content w' dst = content w dst \/
    exists written rest,
      content w' dst = Some written /\ data = written ++ rest.
Proof.
  intros src dst size w r w' data Hsrc Hne.
  unfold copy_file. unfold bind at 1.
  destruct (ensure_parent_dir dst w) as [[[]|e] w0] eqn:He.
  2:{ intros H. inversion H; subst. left.
      apply content_same_bytes, bytes_at_same_files,
        (ensure_parent_dir_keeps_files _ _ _ _ He). }
  pose proof (ensure_parent_dir_keeps_files _ _ _ _ He) as Hk0.
  pose proof (content_same_bytes _ _ (bytes_at_same_files _ _ Hk0)) as Hc0.
  cbn [negb]. unfold bind at 1.
  destruct (chunked_transfer src dst size w0) as [[[]|e] w1] eqn:Ht.
  - intros Hp.
    destruct (preserve_timestamps_returns src dst w1) as (w2 & Hp' & Hkeep).
    rewrite Hp in Hp'. inversion Hp'; subst w2.
    rewrite (content_same_bytes _ _ Hkeep), <- (Hc0 dst).
    apply (chunked_transfer_written _ _ _ _ _ _ data) in Ht;
      [exact Ht| |exact Hne].
    now rewrite Hc0.
  - intros H. inversion H; subst. rewrite <- (Hc0 dst).
    apply (chunked_transfer_written _ _ _ _ _ _ data) in Ht;
      [exact Ht| |exact Hne].
    now rewrite Hc0.
Qed.

Lemma chunked_copy_leaves_a_prefix_example :
  content interrupted_world "A/sub/b.txt"
  = Some (String.list_byte_of_string "world!") /\
  Os.resolve "A/sub/b.txt" <> Os.resolve "B/b.txt" /\
  (exists e,
      fst (copy_file "A/sub/b.txt" "B/b.txt" true 2 interrupted_world)
      = Raises e) /\
  content (snd (copy_file "A/sub/b.txt" "B/b.txt" true 2 interrupted_world))
    "B/b.txt" = Some (String.list_byte_of_string "wo") /\
  (content (snd (copy_file "A/sub/b.txt" "B/b.txt" true 2 interrupted_world))
     "B/b.txt" = content interrupted_world "B/b.txt" \/
   exists written rest,
     content (snd (copy_file "A/sub/b.txt" "B/b.txt" true 2
                     interrupted_world)) "B/b.txt" = Some written /\
     String.list_byte_of_string "world!" = written ++ rest).
Proof.
  split; [reflexivity|]. split; [discriminate|].
  split; [eexists; vm_compute; reflexivity|].
  split; [vm_compute; reflexivity|].
  apply (chunked_copy_leaves_a_prefix "A/sub/b.txt" "B/b.txt" 2
           interrupted_world
           (fst (copy_file "A/sub/b.txt" "B/b.txt" true 2 interrupted_world))).
  - reflexivity.
  - discriminate.
  - vm_compute; reflexivity.
Defined.

(** ** Destinations that cannot be written *)

Lemma snoc_not_self {A} (l : list A) x : l <> l ++ [x].
Proof.
  intros H. apply (f_equal (@length A)) in H.
  rewrite length_app in H. simpl in H. lia.
Qed.

(** X11. A copy to a path whose parent is a regular file never returns,
    in either mode and whatever the environment does: [ensure_parent_dir]
    is content with a parent that exists, and opening the destination
    fails. *)
Theorem copy_below_a_regular_file_raises :
  forall src dst chunked size w data atime mtime,
    Os.node_at w (OsPath.dirname dst) = Some (File data atime mtime) ->
    OsPath.basename dst <> "" ->
    ensure_parent_dir dst w = (Returns tt, w) /\
    exists e w', copy_file src dst chunked size w = (Raises e, w').
Proof.
  intros src dst chunked size w data atime mtime Hpar Hbase.
  assert (He : ensure_parent_dir dst w = (Returns tt, w)).
  { apply ensure_parent_dir_present. right. rewrite Hpar. eauto. }
  split; [exact He|].
  pose proof (resolve_named dst Hbase) as Hpd.
  rewrite (components_dirname dst Hbase) in Hpd.
  set (par := OsPath.components (OsPath.dirname dst)) in *.
  set (c := OsPath.basename dst) in *.
  assert (Hfile : FS.lookup (fs w) par = Some (File data atime mtime)).
  { unfold Os.node_at, Os.resolve in Hpar.
    destruct (Str.is_empty (OsPath.dirname dst)); [discriminate|]. exact Hpar. }
  assert (Habsurd : forall w',
             content w' dst = None \/
             bytes_at (fs w') par <> bytes_at (fs w) par).
  { intros w'. unfold content. rewrite Hpd. unfold bytes_at, file_at.
    rewrite Hfile, lookup_app.
    destruct (FS.lookup (fs w') par) as [[| es | |]|]; simpl;
      try (now left); right; discriminate. }
  destruct (copy_file src dst chunked size w) as [[[]|e] w'] eqn:Hrun;
    [exfalso|eauto].
  destruct chunked.
  - apply copy_file_chunked_returns in Hrun
      as (ps & pd & d & _ & Hpd' & _ & Hdst & Hothers).
    rewrite Hpd in Hpd'. inversion Hpd'; subst pd.
    destruct (Habsurd w') as [Hn|Hn]; [congruence|].
    apply Hn, Hothers, snoc_not_self.
  - unfold copy_file in Hrun. unfold bind at 1 in Hrun. rewrite He in Hrun.
    cbn [negb] in Hrun.
    apply (copy2_returns _ _ _ _ _ Hpd) in Hrun
      as (ps & d & _ & _ & _ & Hdst & Hothers).
    + destruct (Habsurd w') as [Hn|Hn]; [congruence|].
      apply Hn, Hothers, snoc_not_self.
    + unfold free_or_file. now rewrite lookup_app, Hfile.
Qed.

Lemma copy_below_a_regular_file_raises_example :
  Os.node_at example_world (OsPath.dirname "B/a.txt/c")
  = Some (File (String.list_byte_of_string "old") 5 6) /\
  OsPath.basename "B/a.txt/c" <> "" /\
  exists e w',
    copy_file "A/a.txt" "B/a.txt/c" true DEFAULT_CHUNK_SIZE example_world
    = (Raises e, w').
Proof.
  split; [reflexivity|]. split; [discriminate|].
  apply (copy_below_a_regular_file_raises "A/a.txt" "B/a.txt/c" true
           DEFAULT_CHUNK_SIZE example_world
           (String.list_byte_of_string "old") 5 6).
  - reflexivity.
  - discriminate.
Defined.

(** ** Chunk sizes [read] refuses *)

Lemma pump_refused r wh size st :
  size < -1 ->
  pump r wh size st
  = (Raises (ValueError "read length must be non-negative or -1"), st).
Proof.
  intros Hsize. unfold pump. cbn [pump_fuel]. unfold Os.read.
  destruct (Z.ltb_spec size (-1)) as [_|Hge]; [reflexivity|lia].
Qed.

(** X12. With a chunk size below -1 a chunked copy never returns: [read]
    refuses the size, after the destination has been opened.  In a calm
    world the copy of a regular file with a chunk size from -2^63 to -2
    (below that range the call fails before it looks at the sign), between
    paths without a NUL character and without [.] and [..], then raises
    [ValueError] and leaves the destination empty, whatever it held. *)
Theorem chunk_size_below_minus_one_raises :
  (forall src dst size w r w',
      size < -1 ->
      copy_file src dst true size w = (r, w') ->
      exists e, r = Raises e) /\
  (forall src dst size w data,
      - 2 ^ 63 <= size < -1 ->
      nul_free src = true -> nul_free dst = true ->
      dot_free src = true -> dot_free dst = true ->
      calm w -> OsPath.basename dst <> "" ->
      Str.endswith OsPath.sep src = false ->
      content w src = Some data ->
      target_ok (fs w) (OsPath.components dst) = true ->
      Os.resolve src <> Os.resolve dst ->
      exists w',
        copy_file src dst true size w
        = (Raises (ValueError "read length must be non-negative or -1"), w')
        /\ content w' dst = Some []).
Proof.
  split.
  - intros src dst size w r w' Hsize Hrun.
    destruct r as [[]|e]; [exfalso|eauto].
    apply copy_file_chunked_inv in Hrun as (w0 & w1 & _ & Ht & _).
    unfold chunked_transfer in Ht. unfold bind at 1 in Ht.
    destruct (Os.open_rb src w0) as [[rh|e] w2]; [|discriminate].
    unfold bind at 1 in Ht.
    destruct (Os.open_wb dst w2) as [[wh|e] w3]; [|discriminate].
    rewrite (pump_refused _ _ _ _ Hsize) in Ht. discriminate.
  - intros src dst size w data [_ Hsize] _ _ _ _ Hcalm Hbase _ Hsrc Hok Hne.
    apply content_inv in Hsrc as (ps & atime & mtime & Hps & Hat).
    pose proof (resolve_named dst Hbase) as Hpd.
    destruct (ensure_parent_dir_calm dst w Hcalm Hbase Hok)
      as (w0 & es & He & Hcalm0 & Hpar & Hfree).
    pose proof (ensure_parent_dir_keeps_files _ _ _ _ He) as Hk0.
    rewrite (components_dirname dst Hbase) in Hpd, Hfree.
    rewrite <- (Hk0 ps) in Hat.
    destruct (open_wb_calm dst (tick w0) _ _ es (calm_tick _ Hcalm0) Hpd Hpar
                Hfree) as (n' & a' & Hput & Hopen).
    exists (with_fs (tick (tick w0)) n'). split.
    + unfold copy_file. unfold bind at 1. rewrite He. cbn [negb].
      unfold bind at 1. unfold chunked_transfer. unfold bind at 1.
      rewrite (open_rb_calm _ _ _ _ _ _ Hcalm0 Hps Hat).
      unfold bind at 1. rewrite Hopen.
      now rewrite (pump_refused _ _ _ _ Hsize).
    + rewrite (content_file_at _ _ _ Hpd), fs_with_fs.
      now rewrite (file_at_written _ _ _ _ _ _ Hput).
Qed.

Lemma chunk_size_below_minus_one_raises_example :
  - 2 ^ 63 <= -2 < -1 /\
  content example_world "B/a.txt"
  = Some (String.list_byte_of_string "old") /\
  exists w',
    copy_file "A/a.txt" "B/a.txt" true (-2) example_world
    = (Raises (ValueError "read length must be non-negative or -1"), w') /\
    content w' "B/a.txt" = Some [].
Proof.
  split; [lia|]. split; [reflexivity|].
  apply (proj2 chunk_size_below_minus_one_raises "A/a.txt" "B/a.txt" (-2)
           example_world (String.list_byte_of_string "hello")).
  - lia.
  - reflexivity.
  - reflexivity.
  - reflexivity.
  - reflexivity.
  - exact example_world_calm.
  - discriminate.
  - reflexivity.
  - reflexivity.
  - reflexivity.
  - discriminate.
Defined.

(** ** Timestamps *)

Lemma copystat_calm_times src dst w ps pd ds a m dd a' m' :
  calm w ->
  Os.resolve src = Some ps -> Os.resolve dst = Some pd ->
  file_at (fs w) ps = Some (ds, a, m) ->
  file_at (fs w) pd = Some (dd, a', m') ->
  exists w',
    Shutil.copystat src dst w = (Returns tt, w') /\ calm w' /\
    file_at (fs w') pd = Some (dd, a, m).
Proof.
  intros Hcalm Hps Hpd Hs Hd. unfold file_at in Hs, Hd.
  destruct (FS.lookup (fs w) ps) as [[d0 a0 m0| | |]|] eqn:Es; try discriminate.
  destruct (FS.lookup (fs w) pd) as [[d1 a1 m1| | |]|] eqn:Ed; try discriminate.
  inversion Hs; subst d0 a0 m0. inversion Hd; subst d1 a1 m1.
  destruct (put_existing (fs w) pd (File dd a m) _ Ed) as [n' Hput].
  exists (with_fs (tick (tick w)) n').
  split; [|split; [apply calm_with_fs, calm_tick, calm_tick, Hcalm|
                   exact (file_at_written _ _ _ _ _ _ Hput)]].
  unfold Shutil.copystat. unfold bind at 1. unfold Os.stat. rewrite Hps.
  unfold bind at 1. rewrite (attempt_calm _ _ Hcalm). run_io.
  rewrite fs_tick, Es. unfold Os.utime. rewrite Hpd. unfold bind at 1.
  rewrite (attempt_calm _ _ (calm_tick _ Hcalm)). run_io.
  rewrite !fs_tick, Ed. cbv beta. cbn [fst snd]. rewrite !fs_tick, Hput.
  reflexivity.
Qed.

(** In a calm world a transfer followed by [copystat] leaves at the
    destination the bytes and the two timestamps of the source. *)
Lemma transfer_and_copystat_calm src dst size w ps par c es data atime mtime :
  calm w ->
  Os.resolve src = Some ps -> Os.resolve dst = Some (par ++ [c]) ->
  file_at (fs w) ps = Some (data, atime, mtime) ->
  ps <> par ++ [c] ->
  FS.lookup (fs w) par = Some (Dir es) ->
  free_or_file (fs w) (par ++ [c]) ->
  0 < size ->
  exists w1 w2,
    chunked_transfer src dst size w = (Returns tt, w1) /\
    Shutil.copystat src dst w1 = (Returns tt, w2) /\
    file_at (fs w2) (par ++ [c]) = Some (data, atime, mtime) /\
    (forall q, q <> par ++ [c] -> file_at (fs w2) q = file_at (fs w) q) /\
    calm w2.
Proof.
  intros Hcalm Hps Hpd Hat Hne Hpar Hfree Hsize.
  destruct (chunked_transfer_calm src dst size w ps par c es data atime mtime
              Hcalm Hps Hpd Hat Hne Hpar Hfree) as (w1 & Ht & Hcalm1); [lia|].
  pose proof Ht as Ht'.
  apply chunked_transfer_returns in Ht'
    as (ps' & pd' & data' & Hps' & Hpd' & Hsrc & _ & Hdst & Hothers).
  rewrite Hps in Hps'. inversion Hps'; subst ps'; clear Hps'.
  rewrite Hpd in Hpd'. inversion Hpd'; subst pd'; clear Hpd'.
  rewrite (content_file_at _ _ _ Hps), Hat in Hsrc. simpl in Hsrc.
  inversion Hsrc; subst data'; clear Hsrc.
  destruct (Z.eqb_spec size 0); [lia|].
  rewrite bool_decide_eq_false_2 in Hdst by exact Hne. simpl in Hdst.
  apply content_inv in Hdst as (pd' & a2 & m2 & Hpd' & Hdst).
  rewrite Hpd in Hpd'. inversion Hpd'; subst pd'; clear Hpd'.
  destruct (copystat_calm_times src dst w1 ps (par ++ [c]) data atime mtime
              data a2 m2 Hcalm1 Hps Hpd (eq_trans (Hothers ps Hne) Hat) Hdst)
    as (w2 & Hstat & Hcalm2 & Htimes).
  exists w1, w2. split; [exact Ht|]. split; [exact Hstat|].
  split; [exact Htimes|]. split; [|exact Hcalm2].
  intros q Hq.
  assert (Hts : touches (fun _ => True) (fun p => p = par ++ [c])
                  (Shutil.copystat src dst)).
  { apply touches_copystat. unfold at_path. intros p Hp. congruence. }
  rewrite (evolves_frame _ _ _ _ q (Hts _ _ _ Hstat)) by exact Hq.
  exact (Hothers q Hq).
Qed.

Lemma copy2_unfold src dst w :
  Shutil.copy2 src dst w =
  let d := if match Os.node_at w dst with
              | Some n => FS.is_dir n
              | None => false
              end
           then OsPath.join dst (OsPath.basename src) else dst in
  match Shutil.copyfile src d w with
  | (Returns _, w1) => Shutil.copystat src d w1
  | (Raises e, w1) => (Raises e, w1)
  end.
Proof. reflexivity. Qed.

Lemma copyfile_distinct src d w :
  Os.resolve src <> Os.resolve d ->
  Shutil.copyfile src d w = chunked_transfer src d Shutil.COPY_BUFSIZE w.
Proof.
  intros Hne. unfold Shutil.copyfile. unfold bind at 1.
  unfold Shutil.samefile at 1. cbv beta iota.
  rewrite bool_decide_eq_false_2 by exact Hne.
  destruct (Os.node_at w src); [|reflexivity].
  destruct (Os.node_at w d); reflexivity.
Qed.

Lemma not_dir_of_free_or_file w dst pd :
  Os.resolve dst = Some pd -> free_or_file (fs w) pd ->
  match Os.node_at w dst with
  | Some n => FS.is_dir n
  | None => false
  end = false.
Proof.
  intros Hpd Hfree. unfold Os.node_at. rewrite Hpd.
  unfold free_or_file in Hfree.
  destruct (FS.lookup (fs w) pd) as [[| | |]|]; simpl; tauto.
Qed.

(** X13. In a calm world the copy of a regular file to another place a
    copy may write at, be there a regular file already or nothing, between
    paths without a NUL character and without [.] and [..], returns in
    either mode (for a chunk size from 1 up to the default), leaves the
    bytes of the source there, and leaves the source its bytes. *)
Theorem calm_copy_returns_with_the_bytes :
  forall src dst chunked size w data,
    nul_free src = true -> nul_free dst = true ->
    dot_free src = true -> dot_free dst = true ->
    calm w -> OsPath.basename dst <> "" ->
    Str.endswith OsPath.sep src = false ->
    content w src = Some data ->
    target_ok (fs w) (OsPath.components dst) = true ->
    Os.resolve src <> Os.resolve dst ->
    0 < size <= DEFAULT_CHUNK_SIZE ->
    exists w',
      copy_file src dst chunked size w = (Returns tt, w') /\
      content w' dst = Some data /\
      content w' src = Some data.
Proof.
  intros src dst chunked size w data _ _ _ _ Hcalm Hbase _ Hsrc Hok Hne
    [Hsize _].
  apply content_inv in Hsrc as (ps & atime & mtime & Hps & Hat).
  pose proof (resolve_named dst Hbase) as Hpd.
  destruct (ensure_parent_dir_calm dst w Hcalm Hbase Hok)
    as (w0 & es & He & Hcalm0 & Hpar & Hfree).
  pose proof (ensure_parent_dir_keeps_files _ _ _ _ He) as Hk0.
  assert (Hcontent : forall w',
             content w' dst
             = option_map (fun f => fst (fst f))
                 (file_at (fs w') (OsPath.components dst)) /\
             content w' src
             = option_map (fun f => fst (fst f)) (file_at (fs w') ps)).
  { intros w'. now rewrite (content_file_at _ _ _ Hpd),
                 (content_file_at _ _ _ Hps). }
  rewrite (components_dirname dst Hbase) in Hpd, Hfree, Hcontent.
  assert (Hne' : ps <> OsPath.components (OsPath.dirname dst)
                       ++ [OsPath.basename dst]) by congruence.
  rewrite <- (Hk0 ps) in Hat.
  destruct chunked.
  - destruct (transfer_and_copystat_calm src dst size w0 ps _ _ es
                data atime mtime Hcalm0 Hps Hpd Hat Hne' Hpar Hfree Hsize)
      as (w1 & w2 & Ht & Hstat & Htimes & Hothers & _).
    exists w2. split; [|split].
    + unfold copy_file. unfold bind at 1. rewrite He. cbn [negb].
      unfold bind at 1. rewrite Ht. unfold preserve_timestamps, try_except.
      fold (Shutil.copystat src dst). now rewrite Hstat.
    + now rewrite (proj1 (Hcontent w2)), Htimes.
    + now rewrite (proj2 (Hcontent w2)), (Hothers ps Hne'), Hat.
  - destruct (transfer_and_copystat_calm src dst Shutil.COPY_BUFSIZE w0 ps
                _ _ es data atime mtime Hcalm0 Hps Hpd Hat Hne' Hpar Hfree)
      as (w1 & w2 & Ht & Hstat & Htimes & Hothers & _); [reflexivity|].
    exists w2. split; [|split].
    + unfold copy_file. unfold bind at 1. rewrite He. cbn [negb].
      rewrite copy2_unfold. cbv zeta.
      rewrite (not_dir_of_free_or_file w0 dst _ Hpd Hfree).
      rewrite (copyfile_distinct _ _ _ Hne), Ht. exact Hstat.
    + now rewrite (proj1 (Hcontent w2)), Htimes.
    + now rewrite (proj2 (Hcontent w2)), (Hothers ps Hne'), Hat.
Qed.

Lemma calm_copy_returns_with_the_bytes_example :
  calm example_world /\
  content example_world "B/a.txt"
  = Some (String.list_byte_of_string "old") /\
  exists w',
    copy_file "A/a.txt" "B/a.txt" false DEFAULT_CHUNK_SIZE example_world
    = (Returns tt, w') /\
    content w' "B/a.txt" = Some (String.list_byte_of_string "hello") /\
    content w' "A/a.txt" = Some (String.list_byte_of_string "hello").
Proof.
  split; [exact example_world_calm|]. split; [reflexivity|].
  apply (calm_copy_returns_with_the_bytes "A/a.txt" "B/a.txt" false
           DEFAULT_CHUNK_SIZE example_world).
  - reflexivity.
  - reflexivity.
  - reflexivity.
  - reflexivity.
  - exact example_world_calm.
  - discriminate.
  - reflexivity.
  - reflexivity.
  - reflexivity.
  - discriminate.
  - split; [reflexivity|]. discriminate.
Defined.

(** ** A destination that is a directory *)

Lemma put_keeps_dirs n p v n' q x :
  FS.put n p v = Some n' -> free_or_file n p ->
  FS.lookup n q = Some x -> FS.is_dir x = true ->
  exists x', FS.lookup n' q = Some x' /\ FS.is_dir x' = true.
Proof.
  unfold free_or_file.
  revert n n' q. induction p as [|c p IH]; intros n n' q Hput Hfree Hq Hx.
  - simpl in Hfree. destruct n as [d a m| | |]; try contradiction.
    destruct q; simpl in Hq; [|discriminate].
    inversion Hq; subst x. discriminate.
  - simpl in Hput. destruct n as [| es | |]; try discriminate.
    destruct q as [|c' q].
    { exists n'. split; [reflexivity|].
      destruct p; [inversion Hput; reflexivity|].
      destruct (FS.assoc c es); try discriminate.
      destruct (FS.put _ _ _); try discriminate.
      inversion Hput; reflexivity. }
    destruct (string_dec c' c) as [->|Hc].
    + cbn [FS.lookup] in Hq, Hfree.
      destruct (FS.assoc c es) as [m|] eqn:Ha; [|discriminate].
      destruct p as [|c2 p].
      * simpl in Hfree. destruct m as [d a m'| | |]; try contradiction.
        destruct q; simpl in Hq; [|discriminate].
        inversion Hq; subst x. discriminate.
      * destruct (FS.put m (c2 :: p) v) as [m'|] eqn:Hm; try discriminate.
        inversion Hput; subst n'; clear Hput.
        cbn [FS.lookup]. rewrite assoc_set_entry_same.
        exact (IH m m' q Hm Hfree Hq Hx).
    + exists x. split; [|exact Hx]. rewrite <- Hq.
      destruct p as [|c2 p].
      * inversion Hput; subst n'. cbn [FS.lookup].
        now rewrite assoc_set_entry_other.
      * destruct (FS.assoc c es) as [m|]; try discriminate.
        destruct (FS.put m (c2 :: p) v) as [m'|]; try discriminate.
        inversion Hput; subst n'. cbn [FS.lookup].
        now rewrite assoc_set_entry_other.
Qed.

(** No directory is ever removed, or turned into a regular file. *)
Lemma evolves_keeps_dirs made touch n n' q x :
  evolves made touch n n' ->
  FS.lookup n q = Some x -> FS.is_dir x = true ->
  exists x', FS.lookup n' q = Some x' /\ FS.is_dir x' = true.
Proof.
  intros Hev. revert x.
  induction Hev as [n|n p n' n'' Hnone Hmade Hput _ IH
                    |n p data atime mtime n' n'' Hfree Ht Hput _ IH];
    intros x Hq Hx.
  - eauto.
  - destruct (put_keeps_dirs _ _ _ _ q x Hput (free_or_file_absent _ _ Hnone)
                Hq Hx) as (x' & Hq' & Hx').
    exact (IH x' Hq' Hx').
  - destruct (put_keeps_dirs _ _ _ _ q x Hput Hfree Hq Hx)
      as (x' & Hq' & Hx').
    exact (IH x' Hq' Hx').
Qed.

Lemma startswith_free c (b : string) :
  Str.contains c b = false -> Str.startswith c b = false.
Proof.
  destruct b as [|d b]; [reflexivity|]. simpl.
  intros H. now apply orb_false_iff in H as [H _].
Qed.

Lemma resolve_join_basename dst src :
  Str.is_empty dst = false -> OsPath.basename src <> "" ->
  Os.resolve (OsPath.join dst (OsPath.basename src))
  = Some (OsPath.components dst ++ [OsPath.basename src]).
Proof.
  intros Hdst Hbase. unfold Os.resolve.
  pose proof (basename_free src) as Hfree.
  assert (Hne : Str.is_empty (OsPath.basename src) = false)
    by (destruct (OsPath.basename src); [contradiction|reflexivity]).
  rewrite (join_not_empty _ _ Hne).
  rewrite (components_join _ _ (startswith_free _ _ Hfree)).
  rewrite (components_free _ Hfree), Hne. reflexivity.
Qed.

Lemma chunked_copy_to_directory_raises src dst size w r w' n :
  Os.node_at w dst = Some n -> FS.is_dir n = true ->
  copy_file src dst true size w = (r, w') ->
  exists e, r = Raises e.
Proof.
  intros Hnode Hdir Hrun. destruct r as [[]|e]; [exfalso|eauto].
  apply copy_file_chunked_inv in Hrun as (w0 & w1 & He & Ht & _).
  apply chunked_transfer_returns in Ht
    as (ps & pd & data & _ & Hpd & _ & Hfree & _).
  unfold Os.node_at in Hnode. rewrite Hpd in Hnode.
  destruct (evolves_keeps_dirs (fun _ => True) (fun _ => True) _ _ pd n
              (touches_ensure_parent_dir _ _ dst (fun _ _ => I) _ _ _ He)
              Hnode Hdir)
    as (x' & Hx' & Hd').
  unfold free_or_file in Hfree. rewrite Hx' in Hfree.
  destruct x'; try discriminate; contradiction.
Qed.

Lemma fast_copy_into_directory_calm src dst size w es ps data atime mtime :
  calm w ->
  Os.node_at w dst = Some (Dir es) ->
  Os.resolve src = Some ps ->
  file_at (fs w) ps = Some (data, atime, mtime) ->
  OsPath.basename src <> "" ->
  free_or_file (fs w) (OsPath.components dst ++ [OsPath.basename src]) ->
  ps <> OsPath.components dst ++ [OsPath.basename src] ->
  exists w',
    copy_file src dst false size w = (Returns tt, w') /\
    content w' (OsPath.join dst (OsPath.basename src)) = Some data /\
    exists es', Os.node_at w' dst = Some (Dir es').
Proof.
  intros Hcalm Hnode Hps Hat Hbase Hfree Hne.
  assert (Hdst : Str.is_empty dst = false).
  { unfold Os.node_at, Os.resolve in Hnode.
    destruct (Str.is_empty dst); [discriminate|reflexivity]. }
  assert (Hpd : Os.resolve dst = Some (OsPath.components dst))
    by (unfold Os.resolve; now rewrite Hdst).
  pose proof (resolve_join_basename dst src Hdst Hbase) as Hd.
  set (d := OsPath.join dst (OsPath.basename src)) in *.
  assert (Hpar : FS.lookup (fs w) (OsPath.components dst) = Some (Dir es)).
  { unfold Os.node_at in Hnode. now rewrite Hpd in Hnode. }
  destruct (transfer_and_copystat_calm src d Shutil.COPY_BUFSIZE w ps
              _ _ es data atime mtime Hcalm Hps Hd Hat Hne Hpar Hfree)
    as (w1 & w2 & Ht & Hstat & Htimes & _); [reflexivity|].
  exists w2. split; [|split].
  - unfold copy_file. unfold bind at 1.
    rewrite (ensure_parent_dir_of_existing dst w _ Hnode). cbn [negb].
    rewrite copy2_unfold. cbv zeta. rewrite Hnode. cbn [FS.is_dir].
    fold d. rewrite copyfile_distinct by congruence.
    rewrite Ht. exact Hstat.
  - rewrite (content_file_at _ _ _ Hd), Htimes. reflexivity.
  - unfold Os.node_at. rewrite Hpd.
    unfold file_at in Htimes.
    destruct (FS.lookup (fs w2) (OsPath.components dst
                                 ++ [OsPath.basename src])) as [x|] eqn:E;
      [|discriminate].
    exact (lookup_snoc_dir _ _ _ _ E).
Qed.

(** X14. The two modes part ways when the destination names a directory:
    the chunked copy never returns, while the fast copy (in a calm world)
    returns, having put the file inside that directory under the source's
    own name. *)
Theorem directory_destination_depends_on_mode :
  (forall src dst size w r w' n,
      Os.node_at w dst = Some n -> FS.is_dir n = true ->
      copy_file src dst true size w = (r, w') ->
      exists e, r = Raises e) /\
  (forall src dst size w es ps data atime mtime,
      calm w ->
      Os.node_at w dst = Some (Dir es) ->
      Os.resolve src = Some ps ->
      file_at (fs w) ps = Some (data, atime, mtime) ->
      OsPath.basename src <> "" ->
      free_or_file (fs w) (OsPath.components dst ++ [OsPath.basename src]) ->
      ps <> OsPath.components dst ++ [OsPath.basename src] ->
      exists w',
        copy_file src dst false size w = (Returns tt, w') /\
        content w' (OsPath.join dst (OsPath.basename src)) = Some data /\
        exists es', Os.node_at w' dst = Some (Dir es')).
Proof.
  split.
  - exact chunked_copy_to_directory_raises.
  - exact fast_copy_into_directory_calm.
Qed.

Lemma directory_destination_depends_on_mode_example :
  (exists e,
      fst (copy_file "A/a.txt" "B" true DEFAULT_CHUNK_SIZE example_world)
      = Raises e) /\
  exists w',
    copy_file "A/sub/b.txt" "B" false DEFAULT_CHUNK_SIZE example_world
    = (Returns tt, w') /\
    content w' "B/b.txt" = Some (String.list_byte_of_string "world!") /\
    exists es', Os.node_at w' "B" = Some (Dir es').
Proof.
  split.
  - apply (proj1 directory_destination_depends_on_mode "A/a.txt" "B"
             DEFAULT_CHUNK_SIZE example_world _
             (snd (copy_file "A/a.txt" "B" true DEFAULT_CHUNK_SIZE
                     example_world))
             (Dir [("a.txt", File (String.list_byte_of_string "old") 5 6)])).
    + reflexivity.
    + reflexivity.
    + vm_compute; reflexivity.
  - apply (proj2 directory_destination_depends_on_mode "A/sub/b.txt" "B"
             DEFAULT_CHUNK_SIZE example_world
             [("a.txt", File (String.list_byte_of_string "old") 5 6)]
             ["A"; "sub"; "b.txt"] (String.list_byte_of_string "world!") 3 4).
    + exact example_world_calm.
    + reflexivity.
    + reflexivity.
    + reflexivity.
    + discriminate.
    + exact I.
    + discriminate.
Defined.

(** ** Trees with unique, clean names *)


Lemma assoc_In c es v : FS.assoc c es = Some v -> In (c, v) es.
Proof.
  induction es as [|[k x] es IH]; simpl; [discriminate|].
  destruct (String.eqb_spec k c) as [->|Hk].
  - intros H. inversion H. now left.
  - intros H. right. exact (IH H).
Qed.

Lemma assoc_None_not_in c es :
  FS.assoc c es = None -> ~ In c (map fst es).
Proof.
  induction es as [|[k x] es IH]; simpl; [tauto|].
  destruct (String.eqb_spec k c) as [->|Hk]; [discriminate|].
  intros H [Hc|Hc]; [contradiction|exact (IH H Hc)].
Qed.






Lemma entry_at_inv n p v :
  entry_at n p = Some v <-> FS.lookup n p = Some v /\ FS.is_dir v = false.
Proof.
  unfold entry_at. destruct (FS.lookup n p) as [x|].
  - destruct (FS.is_dir x) eqn:E; split.
    + discriminate.
    + intros [[= ->] H]. congruence.
    + intros [= ->]. auto.
    + now intros [[= ->] _].
  - split; [discriminate|now intros [? _]].
Qed.











Lemma all_regular_lookup n p m :
  all_regular n = true -> FS.lookup n p = Some m -> all_regular m = true.
Proof.
  revert n. induction p as [|c p IH]; intros n Hr H; simpl in H.
  - now inversion H; subst.
  - destruct n as [| es | |]; try discriminate.
    destruct (FS.assoc c es) as [x|] eqn:Ha; [|discriminate].
    simpl in Hr. rewrite forallb_forall in Hr.
    exact (IH x (Hr (c, x) (assoc_In _ _ _ Ha)) H).
Qed.

(** Where nothing is a socket, an entry that is not a directory is a
    regular file. *)
Lemma regular_entry_is_file n p :
  all_regular n = true -> is_Some (entry_at n p) -> is_Some (file_at n p).
Proof.
  intros Hr [v Hv]. apply entry_at_inv in Hv as [Hl Hv].
  pose proof (all_regular_lookup _ _ _ Hr Hl) as Hm.
  unfold file_at. rewrite Hl.
  destruct v as [d a m| | |]; try discriminate. eauto.
Qed.

(** ** Paths made of clean names *)









(** ** Stores keep names unique *)






(** ** What a chunked batch leaves behind *)









(** ** Places a copy may write at, while other copies go on *)








(** ** The last name of a destination *)






(** ** A whole batch in a calm world *)










(** ** What the result of a batch says about the tree *)



